(** * gocloudfiles: a shallow embedding of [cloudfiles.go]

    The development follows the source file top to bottom: Go values and
    64-bit arithmetic, the HTTP surface the client talks to, the four
    object operations ([GetFileSize], [GetChunk], [PutFile], [putManifest]),
    the goroutine body of [CopyFile] and finally [CopyFile] itself as an
    interleaving transition system over the semaphore and the two result
    channels. *)

From Stdlib Require Import ZArith Lia List Permutation Sorted.
From Stdlib.Strings Require Import Ascii String Byte.
From stdpp Require Import base tactics option list gmap strings pretty relations sorting.

Local Open Scope Z_scope.

(** ** Go values *)

(** A Go [error] built by [fmt.Errorf] is its message; [nil] is [None]. *)
Definition error := string.

(** A Go call either returns or panics (nil dereference, index out of
    range, [makeslice]).  A panic is never recovered in this package. *)
Inductive go (A : Type) : Type :=
| Ret (a : A)
| Panic (msg : string).
Arguments Ret {A} a.
Arguments Panic {A} msg.

#[global] Instance go_ret : MRet go := fun A a => Ret a.
#[global] Instance go_bind : MBind go := fun A B k m =>
  match m with
  | Ret a => k a
  | Panic msg => Panic msg
  end.

Definition returns {A} (m : go A) : Prop := exists a, m = Ret a.

Definition nil_deref : string := "invalid memory address or nil pointer dereference".
Definition index_range : string := "index out of range [0] with length 0".

(** [p.field] on a possibly nil pointer. *)
Definition deref {A} (p : option A) : go A :=
  match p with
  | Some a => Ret a
  | None => Panic nil_deref
  end.

(** [s[0]] on a slice. *)
Definition index0 {A} (s : list A) : go A :=
  match s with
  | a :: _ => Ret a
  | [] => Panic index_range
  end.

(** ** int64 arithmetic, with its wrap-around *)
Module Int64.

Definition min_int : Z := - 2 ^ 63.
Definition max_int : Z := 2 ^ 63 - 1.

Definition in_range (z : Z) : Prop := min_int <= z <= max_int.

Definition wrap (z : Z) : Z := (z + 2 ^ 63) mod 2 ^ 64 - 2 ^ 63.

Definition add (a b : Z) : Z := wrap (a + b).
Definition sub (a b : Z) : Z := wrap (a - b).
Definition mul (a b : Z) : Z := wrap (a * b).
(** Go's [/] and [%] truncate toward zero. *)
Definition div (a b : Z) : Z := wrap (Z.quot a b).
Definition rem (a b : Z) : Z := Z.rem a b.

End Int64.

(** ** strconv.ParseInt(s, 10, 64) *)

Definition digit_of (c : ascii) : option Z :=
  let n := Z.of_N (Ascii.N_of_ascii c) in
  if (48 <=? n) && (n <=? 57) then Some (n - 48) else None.

Fixpoint parse_digits (acc : Z) (s : string) : option Z :=
  match s with
  | EmptyString => Some acc
  | String c s' =>
      match digit_of c with
      | Some d => parse_digits (10 * acc + d) s'
      | None => None
      end
  end.

Definition parse_unsigned (s : string) : option Z :=
  match s with
  | EmptyString => None
  | _ => parse_digits 0 s
  end.

(** [None] stands for a non-nil error (syntax or range). *)
Definition ParseInt (s : string) : option Z :=
  match s with
  | EmptyString => None
  | String c s' =>
      if decide (c = "+"%char) then
        match parse_unsigned s' with
        | Some n => if n <=? Int64.max_int then Some n else None
        | None => None
        end
      else if decide (c = "-"%char) then
        match parse_unsigned s' with
        | Some n => if n <=? 2 ^ 63 then Some (- n) else None
        | None => None
        end
      else
        match parse_unsigned s with
        | Some n => if n <=? Int64.max_int then Some n else None
        | None => None
        end
  end.

(** ** The package's data types *)

Record manifestItem := {
  Path : string;
  ETag : string;
  Size : Z;
}.

Definition manifestList := list manifestItem.

(** [manifestList.Less]: byte-wise comparison of the paths of two items. *)
Definition Less (a b : manifestItem) : bool := String.ltb (Path a) (Path b).

Record CloudFiles := {
  userName : string;
  apiEndpoint : string;
  tenantId : string;
  authToken : string;
  apiKey : string;
  dcs : gmap string string;
}.

(** [cf.dcs[dc]]: a missing key reads as the empty string. *)
Definition dcs_lookup (cf : CloudFiles) (dc : string) : string :=
  default "" (dcs cf !! dc).

(** ** net/http as the client sees it *)

Inductive body :=
| NoBody
| BytesBody (data : list byte)
| JsonBody (items : manifestList).

Record request := {
  Method : string;
  URL : string;
  ReqHeader : list (string * string);
  ReqBody : body;
}.

(** The body of a response is a stream: [Body] are the bytes it delivers,
    [BodyErr] the error that ends it, if any. *)
Record response := {
  StatusCode : Z;
  Header : gmap string (list string);
  Body : list byte;
  BodyErr : option error;
}.

(** [client.Do(req)]: a response pointer and an error, either may be nil. *)
Definition transport := request -> option response * option error.

Definition Header_get (r : response) (k : string) : list string :=
  default [] (Header r !! k).

(** [req.Header.Add(k, v)]. *)
Definition Header_Add (r : request) (k v : string) : request :=
  {| Method := Method r; URL := URL r;
     ReqHeader := ReqHeader r ++ [(k, v)]; ReqBody := ReqBody r |}.

Definition Header_has (r : request) (k : string) : Prop :=
  exists v, (k, v) ∈ ReqHeader r.

(** [io.Copy(dst, resp.Body)] into a writer that accepts every write:
    the bytes written, their count and the stream's error. *)
Definition io_Copy (r : response) : list byte * Z * option error :=
  (Body r, Z.of_nat (length (Body r)), BodyErr r).

(** ** The object operations *)

Section Operations.

(** [hex.EncodeToString(md5.Sum(data))]. *)
Variable md5_hex : list byte -> string.

(** Whether [http.NewRequest] accepts the URL.  The source drops the
    error of [http.NewRequest], so a rejected URL leaves [req] nil. *)
Variable url_ok : string -> bool.

(** [sort.Sort] on a [manifestList]; only its contract is known. *)
Variable sort_Sort : manifestList -> manifestList.

(** [req] of [req, err := http.NewRequest(...)]: nil when the URL is
    rejected.  Every caller's next statement is [req.Header.Add], which
    dereferences it. *)
Definition NewRequest (method url : string) (b : body) : option request :=
  if url_ok url
  then Some {| Method := method; URL := url; ReqHeader := []; ReqBody := b |}
  else None.

Definition no_region (dc : string) : error :=
  "Could not find region " +:+ dc +:+ " in service catalog.".

Definition object_url (endpoint bucket filename : string) : string :=
  endpoint +:+ "/" +:+ bucket +:+ "/" +:+ filename.

Definition fetch_failed (status : Z) : error :=
  "Could not fetch cloud file, status: " +:+ pretty status.

(** [GetFileSize] returns [(length, etag, error)]. *)
Definition GetFileSize (cf : CloudFiles) (client_Do : transport)
    (dc bucket filename : string) : go (Z * string * option error) :=
  let endpoint := dcs_lookup cf dc in
  if decide (endpoint = "") then Ret (0, "", Some (no_region dc))
  else
    let url := object_url endpoint bucket filename in
    req ← deref (NewRequest "HEAD" url NoBody);
    let req := Header_Add req "X-Auth-Token" (authToken cf) in
    let '(resp, err) := client_Do req in
    resp ← deref resp;
    if negb (StatusCode resp =? 200)
    then Ret (0, "", Some (fetch_failed (StatusCode resp)))
    else
      cl ← index0 (Header_get resp "Content-Length");
      match ParseInt cl with
      | None => Ret (0, "", Some "Could not determine content length.")
      | Some contentLength =>
          etag ← index0 (Header_get resp "Etag");
          Ret (contentLength, etag, None)
      end.

Definition range_header (offset length : Z) : string :=
  "bytes=" +:+ pretty offset +:+ "-" +:+
  pretty (Int64.sub (Int64.add offset length) 1).

(** [GetChunk] returns [(size, etag, err)]; the first component of the
    result is what was written to [out]. *)
Definition GetChunk (cf : CloudFiles) (client_Do : transport)
    (dc bucket remoteFilename : string) (offset length : Z)
  : go (list byte * (Z * string * option error)) :=
  let endpoint := dcs_lookup cf dc in
  if decide (endpoint = "") then Ret ([], (0, "", Some (no_region dc)))
  else
    let url := object_url endpoint bucket remoteFilename in
    req ← deref (NewRequest "GET" url NoBody);
    let req := if 0 <? length
               then Header_Add req "Range" (range_header offset length)
               else req in
    let req := Header_Add req "X-Auth-Token" (authToken cf) in
    let '(resp, err) := client_Do req in
    resp ← deref resp;
    if negb (StatusCode resp =? 200) && negb (StatusCode resp =? 206)
    then Ret ([], (0, "", Some (fetch_failed (StatusCode resp))))
    else
      r ← (if 0 <? length then
             let '(written, size, err) := io_Copy resp in
             let etag := match err with
                         | None => md5_hex written
                         | Some _ => ""
                         end in
             Ret (written, size, err, etag)
           else
             let '(written, size, err) := io_Copy resp in
             etag ← index0 (Header_get resp "Etag");
             Ret (written, size, err, etag));
      let '(written, size, err, etag) := r in
      match err with
      | Some e => Ret (written, (0, "", Some e))
      | None => Ret (written, (size, etag, None))
      end.

Definition put_failed (status : Z) : error :=
  "Could not put cloud file, status: " +:+ pretty status.

(** [PutFile] returns [(etag, error)]; [data] is what the reader yields. *)
Definition PutFile (cf : CloudFiles) (client_Do : transport)
    (dc bucket filename : string) (data : list byte) : go (string * option error) :=
  let endpoint := dcs_lookup cf dc in
  if decide (endpoint = "") then Ret ("", Some (no_region dc))
  else
    let url := object_url endpoint bucket filename in
    req ← deref (NewRequest "PUT" url (BytesBody data));
    let req := Header_Add req "Content-Type" "application/octet-stream" in
    let req := Header_Add req "X-Auth-Token" (authToken cf) in
    let '(resp, err) := client_Do req in
    resp ← deref resp;
    if negb (StatusCode resp =? 201)
    then Ret ("", Some (put_failed (StatusCode resp)))
    else
      match err with
      | Some e => Ret ("", Some e)
      | None =>
          etag ← index0 (Header_get resp "Etag");
          Ret (etag, None)
      end.

Definition manifest_failed (status : Z) (message : list byte) : error :=
  "Could not put cloud file manifest, status: " +:+ pretty status +:+
  ", error: " +:+ string_of_list_byte message.

(** [putManifest] returns the items as it submitted them, when it
    submitted them, and its error. *)
Definition putManifest (cf : CloudFiles) (client_Do : transport)
    (dc bucket filename : string) (manifestItems : manifestList)
  : go (option manifestList * option error) :=
  let endpoint := dcs_lookup cf dc in
  if decide (endpoint = "") then Ret (None, Some (no_region dc))
  else
    let sorted := sort_Sort manifestItems in
    let url := object_url endpoint bucket filename +:+ "?multipart-manifest=put" in
    req ← deref (NewRequest "PUT" url (JsonBody sorted));
    let req := Header_Add req "Content-Type" "application/json" in
    let req := Header_Add req "X-Auth-Token" (authToken cf) in
    let '(resp, err) := client_Do req in
    resp ← deref resp;
    if negb (StatusCode resp =? 201)
    then Ret (Some sorted, Some (manifest_failed (StatusCode resp) (Body resp)))
    else Ret (Some sorted, err).

End Operations.

(** ** Chunk planning (lines 340-352 and 385-393 of [CopyFile]) *)

(** [int64(256 * 1024 * 1024)] *)
Definition default_chunkSize : Z := 268435456.

Definition plan_remainder (size chunkSize : Z) : Z := Int64.rem size chunkSize.

Definition plan_chunkCount (size chunkSize : Z) : Z :=
  let chunkCount := Int64.div size chunkSize in
  if 0 <? plan_remainder size chunkSize then Int64.add chunkCount 1 else chunkCount.

(** The [size] local of the goroutine: the length it hands to [GetChunk]. *)
Definition chunk_length (size chunkSize chunkIndex : Z) : Z :=
  if chunkIndex =? Int64.sub (plan_chunkCount size chunkSize) 1
  then plan_remainder size chunkSize
  else chunkSize.

Definition chunk_offset (chunkSize chunkIndex : Z) : Z := Int64.mul chunkIndex chunkSize.

(** What the goroutines of one copy ask of [GetChunk], by chunk index:
    [(offset, length)]. *)
Definition chunk_specs (size chunkSize : Z) : list (Z * Z) :=
  map (fun chunkIndex => (chunk_offset chunkSize chunkIndex,
                          chunk_length size chunkSize chunkIndex))
      (seqZ 0 (plan_chunkCount size chunkSize)).

(** ** What a copy does to the outside world *)

Inductive event :=
| TempFileCall (chunkIndex : Z)
| GetChunkCall (dc bucket file : string) (offset length : Z)
| GetFileSizeCall (dc bucket file : string)
| PutFileCall (dc bucket file : string) (data : list byte)
| putManifestCall (dc bucket file : string) (items : manifestList)
| ManifestSubmitted (items : manifestList)
| FileClose (name : string)
| FileSync (name : string)
| FileSeek (name : string)
| Remove (name : string)
| Printf (text : string).

(** The places of [CopyFile] that reach the network. *)
Inductive callsite :=
| SourceStat
| ChunkGet (chunkIndex : Z)
| PartStat (chunkIndex : Z)
| PartPut (chunkIndex : Z)
| ManifestPut.

(** Everything a copy reads from outside: the result of [ioutil.TempFile]
    in the goroutine of each chunk (the file, by name, or nil; and the
    error), and the HTTP client's answer at each call site. *)
Record environment := {
  TempFile : Z -> option string * option error;
  client_Do : callsite -> transport;
}.

(** One goroutine, as the sequence of what it does, in order. *)
Inductive action :=
| Do (e : event)
| SendError (e : error)          (* ec <- err *)
| SendManifest (m : manifestItem) (* mf <- manifest *)
| SemRelease                     (* the deferred <-sem *)
| Crash (msg : string).          (* an unrecovered panic *)

Definition etag_mismatch (etag etagUp : string) : error :=
  "Upload etag does not match download etag: " +:+ etag +:+ " " +:+ etagUp +:+ "!".

Section CopyFile.

Variable md5_hex : list byte -> string.
Variable url_ok : string -> bool.
Variable sort_Sort : manifestList -> manifestList.

Variable cf : CloudFiles.
Variable env : environment.
Variables sourceDC sourceBucket sourceFile destDC destBucket destFile : string.

(** Line 342: the stat of the source, and the [size] it returns. *)
Definition source_stat : go (Z * string * option error) :=
  GetFileSize url_ok cf (client_Do env SourceStat) sourceDC sourceBucket sourceFile.

Definition size : Z :=
  match source_stat with
  | Ret (size, _, _) => size
  | Panic _ => 0
  end.

Definition chunkSize : Z := default_chunkSize.
Definition chunkCount : Z := plan_chunkCount size chunkSize.
Definition remainder : Z := plan_remainder size chunkSize.

Definition destFileName (chunkIndex : Z) : string :=
  destFile +:+ "-" +:+ pretty chunkIndex.

Definition part_manifest (chunkIndex : Z) (etag : string) (bytesRead : Z) : manifestItem :=
  {| Path := destBucket +:+ "/" +:+ destFileName chunkIndex;
     ETag := etag;
     Size := bytesRead |}.

(** The goroutine started for [chunkIndex] (lines 373-437).  The two
    [defer]s run in reverse order at every return; a panic runs the
    pending [os.Remove] and takes the program down. *)
Definition worker (chunkIndex : Z) : list action :=
  let '(tmpFile, err) := TempFile env chunkIndex in
  Do (TempFileCall chunkIndex) ::
  match tmpFile with
  | None => [Crash nil_deref]         (* tmpFile.Name() in the defer statement *)
  | Some name =>
    let deferred := [Do (Remove name); SemRelease] in
    match err with
    | Some e => SendError e :: deferred
    | None =>
      let size := chunk_length size chunkSize chunkIndex in
      let offset := chunk_offset chunkSize chunkIndex in
      Do (GetChunkCall sourceDC sourceBucket sourceFile offset size) ::
      match GetChunk md5_hex url_ok cf (client_Do env (ChunkGet chunkIndex))
                     sourceDC sourceBucket sourceFile offset size with
      | Panic msg => [Do (Remove name); Crash msg]
      | Ret (written, (bytesRead, etag, Some e)) =>
          SendError e :: Do (FileClose name) :: deferred
      | Ret (written, (bytesRead, etag, None)) =>
        Do (FileSync name) :: Do (FileSeek name) ::
        Do (GetFileSizeCall destDC destBucket (destFileName chunkIndex)) ::
        match GetFileSize url_ok cf (client_Do env (PartStat chunkIndex))
                          destDC destBucket (destFileName chunkIndex) with
        | Panic msg => [Do (Remove name); Crash msg]
        | Ret (_, etagUp, err) =>
          let verify (etagUp : string) : list action :=
            if decide (etagUp ≠ etag)
            then SendError (etag_mismatch etag etagUp) :: deferred
            else SendManifest (part_manifest chunkIndex etag bytesRead) :: deferred in
          if bool_decide (err = None) && bool_decide (etagUp = etag)
          then verify etagUp
          else
            Do (PutFileCall destDC destBucket (destFileName chunkIndex) written) ::
            match PutFile url_ok cf (client_Do env (PartPut chunkIndex))
                          destDC destBucket (destFileName chunkIndex) written with
            | Panic msg => [Do (Remove name); Crash msg]
            | Ret (etagUp, Some e) => SendError e :: deferred
            | Ret (etagUp, None) => verify etagUp
            end
        end
      end
    end
  end.

(** *** The orchestrator (lines 354-483) *)

(** [concurrency := 5]: the capacity of [sem], [errorChan] and
    [manifestChan]. *)
Definition concurrency : nat := 5.

(** Where the calling goroutine stands. *)
Inductive main_pc :=
| LoopHead (chunkId : Z)      (* line 370, before the test and [sem <- true] *)
| LoopSelect (chunkId : Z)    (* line 439, the goroutine has been started *)
| DrainHead (i : nat)         (* line 454, before the test and [sem <- true] *)
| DrainSelect (i : nat)       (* line 458 *)
| Finish                      (* line 472 *)
| Returned (err : option error)
| Crashed (msg : string).

(** What a [select] received. *)
Inductive outcome :=
| GotError (e : error)
| GotManifest (m : manifestItem).

Record state := {
  pc : main_pc;
  sem : nat;                            (* values held by the channel [sem] *)
  errorChan : list error;
  manifestChan : list manifestItem;
  manifests : manifestList;
  processError : option error;
  goroutines : list (Z * list action);  (* started and not finished: what is left to do *)
  log : list event;                     (* calls made so far, in order *)
  observed : list outcome;              (* history: what the selects received *)
  dispatched : nat;                     (* history: goroutines started *)
}.

Definition with_pc (p : main_pc) (s : state) : state :=
  {| pc := p; sem := sem s; errorChan := errorChan s; manifestChan := manifestChan s;
     manifests := manifests s; processError := processError s;
     goroutines := goroutines s; log := log s; observed := observed s;
     dispatched := dispatched s |}.

Definition with_sem (n : nat) (s : state) : state :=
  {| pc := pc s; sem := n; errorChan := errorChan s; manifestChan := manifestChan s;
     manifests := manifests s; processError := processError s;
     goroutines := goroutines s; log := log s; observed := observed s;
     dispatched := dispatched s |}.

Definition with_goroutines (gs : list (Z * list action)) (s : state) : state :=
  {| pc := pc s; sem := sem s; errorChan := errorChan s; manifestChan := manifestChan s;
     manifests := manifests s; processError := processError s;
     goroutines := gs; log := log s; observed := observed s;
     dispatched := dispatched s |}.

Definition with_errorChan (ec : list error) (s : state) : state :=
  {| pc := pc s; sem := sem s; errorChan := ec; manifestChan := manifestChan s;
     manifests := manifests s; processError := processError s;
     goroutines := goroutines s; log := log s; observed := observed s;
     dispatched := dispatched s |}.

Definition with_manifestChan (mc : list manifestItem) (s : state) : state :=
  {| pc := pc s; sem := sem s; errorChan := errorChan s; manifestChan := mc;
     manifests := manifests s; processError := processError s;
     goroutines := goroutines s; log := log s; observed := observed s;
     dispatched := dispatched s |}.

Definition with_log (e : event) (s : state) : state :=
  {| pc := pc s; sem := sem s; errorChan := errorChan s; manifestChan := manifestChan s;
     manifests := manifests s; processError := processError s;
     goroutines := goroutines s; log := log s ++ [e]; observed := observed s;
     dispatched := dispatched s |}.

(** [go func(...)] for [chunkId], after [sem <- true]. *)
Definition spawn (chunkId : Z) (s : state) : state :=
  {| pc := LoopSelect chunkId; sem := S (sem s);
     errorChan := errorChan s; manifestChan := manifestChan s;
     manifests := manifests s; processError := processError s;
     goroutines := goroutines s ++ [(chunkId, worker chunkId)];
     log := log s; observed := observed s;
     dispatched := S (dispatched s) |}.

Inductive select_case := CaseError | CaseManifest | CaseDefault.

(** The two [select] statements.  A ready case is taken; [default] runs
    only when neither channel holds a value. *)
Definition select (c : select_case) (text : error -> string)
    (after_error next : main_pc) (s : state) : option state :=
  match c with
  | CaseError =>
      match errorChan s with
      | e :: rest =>
          Some {| pc := after_error; sem := sem s; errorChan := rest;
                  manifestChan := manifestChan s; manifests := manifests s;
                  processError := Some e; goroutines := goroutines s;
                  log := log s ++ [Printf (text e)];
                  observed := observed s ++ [GotError e];
                  dispatched := dispatched s |}
      | [] => None
      end
  | CaseManifest =>
      match manifestChan s with
      | m :: rest =>
          Some {| pc := next; sem := sem s; errorChan := errorChan s;
                  manifestChan := rest; manifests := manifests s ++ [m];
                  processError := processError s; goroutines := goroutines s;
                  log := log s;
                  observed := observed s ++ [GotManifest m];
                  dispatched := dispatched s |}
      | [] => None
      end
  | CaseDefault =>
      match errorChan s, manifestChan s with
      | [], [] => Some (with_pc next s)
      | _, _ => None
      end
  end.

(** Lines 472-482. *)
Definition finish (s : state) : state :=
  match processError s with
  | Some e => with_pc (Returned (Some e)) s
  | None =>
      let s := with_log (putManifestCall destDC destBucket destFile (manifests s)) s in
      match putManifest url_ok sort_Sort cf (client_Do env ManifestPut)
                        destDC destBucket destFile (manifests s) with
      | Panic msg => with_pc (Crashed msg) s
      | Ret (Some submitted, err) =>
          with_pc (Returned err) (with_log (ManifestSubmitted submitted) s)
      | Ret (None, err) => with_pc (Returned err) s
      end
  end.

(** One step of the calling goroutine; [None] when it is blocked or done. *)
Definition main_step (c : select_case) (s : state) : option state :=
  match pc s with
  | LoopHead chunkId =>
      if chunkId <? chunkCount then
        if decide (sem s < concurrency)%nat then Some (spawn chunkId s) else None
      else Some (with_pc (DrainHead 0) s)
  | LoopSelect chunkId =>
      select c (fun e => "Oh no, error: " +:+ e +:+ (String "010" ""))
             (DrainHead 0) (LoopHead (Int64.add chunkId 1)) s
  | DrainHead i =>
      if decide (i < concurrency)%nat then
        if decide (sem s < concurrency)%nat
        then Some (with_pc (DrainSelect i) (with_sem (S (sem s)) s))
        else None
      else Some (with_pc Finish s)
  | DrainSelect i =>
      select c (fun e => "Oh no, error: " +:+ e) (DrainHead (S i)) (DrainHead (S i)) s
  | Finish => Some (finish s)
  | Returned _ | Crashed _ => None
  end.

Definition crashed (p : main_pc) : bool :=
  match p with
  | Crashed _ => true
  | _ => false
  end.

(** The live goroutines once the [n]-th, started for [chunkIndex], has
    done its next action and is left with [rest]. *)
Definition advance (n : nat) (chunkIndex : Z) (rest : list action)
    (gs : list (Z * list action)) : list (Z * list action) :=
  match rest with
  | [] => delete n gs
  | _ => <[n := (chunkIndex, rest)]> gs
  end.

(** One step of the [n]-th live goroutine; [None] when it is blocked. *)
Definition goroutine_step (n : nat) (s : state) : option state :=
  if crashed (pc s) then None
  else
    match goroutines s !! n with
    | Some (chunkIndex, a :: rest) =>
        let s' := with_goroutines (advance n chunkIndex rest (goroutines s)) s in
        match a with
        | Do e => Some (with_log e s')
        | SendError e =>
            if decide (length (errorChan s) < concurrency)%nat
            then Some (with_errorChan (errorChan s ++ [e]) s')
            else None
        | SendManifest m =>
            if decide (length (manifestChan s) < concurrency)%nat
            then Some (with_manifestChan (manifestChan s ++ [m]) s')
            else None
        | SemRelease =>
            match sem s with
            | S k => Some (with_sem k s')
            | O => None
            end
        | Crash msg => Some (with_pc (Crashed msg) s')
        end
    | _ => None
    end.

Inductive choice :=
| Main (c : select_case)
| Goroutine (n : nat).

Definition exec (c : choice) (s : state) : option state :=
  match c with
  | Main c => main_step c s
  | Goroutine n => goroutine_step n s
  end.

Definition step (s s' : state) : Prop := exists c, exec c s = Some s'.

(** A schedule, run from a state. *)
Fixpoint run (cs : list choice) (s : state) : option state :=
  match cs with
  | [] => Some s
  | c :: cs => match exec c s with
               | Some s' => run cs s'
               | None => None
               end
  end.

(** A scheduler for examples: at each turn the first choice of [prio]
    that can take a step takes it; it stops when none can or after
    [fuel] turns. *)
Fixpoint first_enabled (prio : list choice) (s : state) : option state :=
  match prio with
  | [] => None
  | c :: prio => match exec c s with
                 | Some s' => Some s'
                 | None => first_enabled prio s
                 end
  end.

Fixpoint schedule (prio : list choice) (fuel : nat) (s : state) : state :=
  match fuel with
  | O => s
  | S fuel => match first_enabled prio s with
              | Some s' => schedule prio fuel s'
              | None => s
              end
  end.

Definition makeslice_range : string := "makeslice: cap out of range".

(** [CopyFile] up to the loop: the stat of the source, the plan and
    [make(manifestList, 0, chunkCount)]. *)
Definition initial : state :=
  let s0 := {| pc := LoopHead 0; sem := 0; errorChan := []; manifestChan := [];
               manifests := []; processError := None; goroutines := [];
               log := [GetFileSizeCall sourceDC sourceBucket sourceFile];
               observed := []; dispatched := 0 |} in
  match source_stat with
  | Panic msg => with_pc (Crashed msg) s0
  | Ret (_, _, Some e) => with_pc (Returned (Some e)) s0
  | Ret (_, _, None) =>
      if chunkCount <? 0 then with_pc (Crashed makeslice_range) s0 else s0
  end.

Definition reachable (s : state) : Prop := rtc step initial s.

End CopyFile.

(** ** Sample inputs

    Concrete clients, transports and environments on which the
    definitions above are evaluated. *)
Module Sample.

Definition md5_hex (data : list byte) : string := "md5:" +:+ string_of_list_byte data.

Definition url_ok (_ : string) : bool := true.

(** A sort that meets the contract of [sort.Sort]. *)
Definition sort_Sort : manifestList -> manifestList :=
  merge_sort (fun a b => String.le (Path a) (Path b)).

Definition cf : CloudFiles :=
  {| userName := "user"; apiEndpoint := ""; tenantId := "tenant";
     authToken := "token"; apiKey := "key";
     dcs := <["IAD" := "https://iad.example"]> (<["DFW" := "https://dfw.example"]> ∅) |}.

Definition reply (status : Z) (etag length : string) (data : list byte) : response :=
  {| StatusCode := status;
     Header := <["Etag" := [etag]]> (<["Content-Length" := [length]]> ∅);
     Body := data; BodyErr := None |}.

(** A transport that answers every request with the same response. *)
Definition always (r : response) : transport := fun _ => (Some r, None).

(** A transport on which the request itself fails. *)
Definition refused : transport := fun _ => (None, Some "dial tcp: connection refused").

Definition ab : list byte := ["a"; "b"]%byte.

(** Answers of the destination. *)
Definition absent : response := reply 404 "" "0" [].
Definition stored : response := reply 201 "md5:ab" "0" [].
Definition corrupted : response := reply 201 "md5:xx" "0" [].
Definition unavailable : response := reply 500 "" "0" [].
Definition present : response := reply 200 "md5:ab" "2" [].

(** A copy of an object whose stat reports [length] bytes; every chunk
    download delivers the bytes [ab]; [probe] and [put] are the
    destination's answers to the stat and the upload of each part. *)
Definition env (length : string) (probe put : Z -> response) : environment :=
  {| TempFile := fun k => (Some ("/tmp/" +:+ pretty k), None);
     client_Do := fun site =>
       match site with
       | SourceStat => always (reply 200 "src" length [])
       | ChunkGet k => always (reply 206 "src" "2" ab)
       | PartStat k => always (probe k)
       | PartPut k => always (put k)
       | ManifestPut => always (reply 201 "" "0" [])
       end |}.

(** Two chunks, both uploaded and accepted. *)
Definition env_ok : environment := env "268435457" (fun _ => absent) (fun _ => stored).

(** Two chunks: the upload of part 0 comes back with another hash, the
    upload of part 1 is refused. *)
Definition env_two_failures : environment :=
  env "268435457" (fun _ => absent) (fun k => if k =? 0 then corrupted else unavailable).

(** Two chunks, both already at the destination. *)
Definition env_rerun : environment := env "268435457" (fun _ => present) (fun _ => stored).

(** An empty source object. *)
Definition env_empty : environment := env "0" (fun _ => absent) (fun _ => stored).

(** Seven chunks. *)
Definition env_seven : environment := env "1610612737" (fun _ => absent) (fun _ => stored).

(** The calling goroutine runs whenever it can. *)
Definition main_first : list choice :=
  [Main CaseError; Main CaseManifest; Main CaseDefault;
   Goroutine 0; Goroutine 1; Goroutine 2; Goroutine 3; Goroutine 4].

(** The goroutines run whenever they can, the youngest first. *)
Definition goroutines_first : list choice :=
  [Goroutine 4; Goroutine 3; Goroutine 2; Goroutine 1; Goroutine 0;
   Main CaseError; Main CaseManifest; Main CaseDefault].

(** Only the calling goroutine runs. *)
Definition main_only : list choice := [Main CaseDefault].

Definition copy_initial (e : environment) : state :=
  initial url_ok cf e "IAD" "src" "big.iso".

(** The state a copy from IAD to DFW is in after [fuel] turns. *)
Definition copy (e : environment) (prio : list choice) (fuel : nat) : state :=
  schedule md5_hex url_ok sort_Sort cf e "IAD" "src" "big.iso" "DFW" "dst" "big.iso"
           prio fuel (copy_initial e).

End Sample.

(** ** Vocabulary of the properties *)

(** The byte ranges [specs], taken in order, start at [start], are each
    non-empty, follow one another without gap or overlap and end at
    [stop]. *)
Fixpoint tiles (start : Z) (specs : list (Z * Z)) (stop : Z) : bool :=
  match specs with
  | [] => start =? stop
  | (offset, length) :: rest =>
      (offset =? start) && (0 <? length) && tiles (offset + length) rest stop
  end.

(** What is left of a goroutine is well formed when it ends, and only
    ends, in [SemRelease] or [Crash], with at most one send before a
    [SemRelease] and none before a [Crash].  [unsent] tells whether the
    send is still to come. *)
Fixpoint well_formed (unsent : bool) (acts : list action) : bool :=
  match acts with
  | [] => false
  | Do _ :: rest => well_formed unsent rest
  | SendError _ :: rest | SendManifest _ :: rest => unsent && well_formed false rest
  | SemRelease :: rest => negb unsent && bool_decide (rest = [])
  | Crash _ :: rest => unsent && bool_decide (rest = [])
  end.

(** The value a goroutine sends, if it gets to send one. *)
Fixpoint sends (acts : list action) : option outcome :=
  match acts with
  | [] => None
  | SendError e :: _ => Some (GotError e)
  | SendManifest m :: _ => Some (GotManifest m)
  | Crash _ :: _ => None
  | _ :: rest => sends rest
  end.

Definition is_upload (e : event) : Prop :=
  match e with
  | PutFileCall _ _ _ _ => True
  | _ => False
  end.

Definition is_transfer (e : event) : Prop :=
  match e with
  | PutFileCall _ _ _ _ | GetChunkCall _ _ _ _ _ => True
  | _ => False
  end.

Definition is_manifest_write (e : event) : Prop :=
  match e with
  | putManifestCall _ _ _ _ | ManifestSubmitted _ => True
  | _ => False
  end.

Definition is_error (o : outcome) : Prop :=
  match o with
  | GotError _ => True
  | GotManifest _ => False
  end.

(** The errors among what was received, oldest first. *)
Fixpoint errors_of (obs : list outcome) : list error :=
  match obs with
  | [] => []
  | GotError e :: rest => e :: errors_of rest
  | GotManifest _ :: rest => errors_of rest
  end.

(** The manifests among what was received, oldest first. *)
Fixpoint manifests_of (obs : list outcome) : manifestList :=
  match obs with
  | [] => []
  | GotError _ :: rest => manifests_of rest
  | GotManifest m :: rest => m :: manifests_of rest
  end.

Definition final (p : main_pc) : Prop :=
  match p with
  | Returned _ | Crashed _ => True
  | _ => False
  end.

(** [sem <- true] done by the drain loop so far. *)
Definition drained (p : main_pc) : nat :=
  match p with
  | LoopHead _ | LoopSelect _ => 0
  | DrainHead i => i
  | DrainSelect i => S i
  | Finish | Returned _ | Crashed _ => 5
  end.

(** Selects the calling goroutine has been through, given the number of
    goroutines it started. *)
Definition polled (p : main_pc) (started : nat) : nat :=
  match p with
  | LoopHead _ => started
  | LoopSelect _ => started - 1
  | DrainHead i => started + i
  | DrainSelect i => started + i
  | Finish | Returned _ | Crashed _ => started + 5
  end.

Definition unsent (gs : list (Z * list action)) : nat :=
  length (filter (fun g => well_formed true g.2 = true) gs).

Section Invariants.

Variable md5_hex : list byte -> string.
Variable url_ok : string -> bool.
Variable sort_Sort : manifestList -> manifestList.
Variable cf : CloudFiles.
Variable env : environment.
Variables sourceDC sourceBucket sourceFile destDC destBucket destFile : string.

Local Abbreviation worker :=
  (worker md5_hex url_ok cf env sourceDC sourceBucket sourceFile destDC destBucket destFile).
Local Abbreviation chunkCount := (chunkCount url_ok cf env sourceDC sourceBucket sourceFile).
Local Abbreviation source_stat := (source_stat url_ok cf env sourceDC sourceBucket sourceFile).
Local Abbreviation reachable :=
  (reachable md5_hex url_ok sort_Sort cf env sourceDC sourceBucket sourceFile
             destDC destBucket destFile).

(** What the goroutine of chunk [k] sends when it runs to its send. *)
Definition chunk_outcome (k : Z) : option outcome := sends (worker k).

(** Every chunk of the plan ends in a manifest item. *)
Definition all_chunks_succeed : Prop :=
  forall k, 0 <= k < chunkCount -> exists m, chunk_outcome k = Some (GotManifest m).

(** The items of the plan's chunks, by chunk index. *)
Definition chunk_items : manifestList :=
  omap (fun k => match chunk_outcome k with
                 | Some (GotManifest m) => Some m
                 | _ => None
                 end) (seqZ 0 chunkCount).

Definition source_ok : Prop := exists size etag, source_stat = Ret (size, etag, None).

Definition queued (s : state) (o : outcome) : Prop :=
  match o with
  | GotError e => e ∈ errorChan s
  | GotManifest m => m ∈ manifestChan s
  end.

(** A live goroutine: started for a chunk of the plan, and what is left
    of it is a well-formed rest of that chunk's goroutine. *)
Definition goroutine_ok (started : nat) (g : Z * list action) : Prop :=
  0 <= g.1 < Z.of_nat started /\
  (exists b, well_formed b g.2 = true) /\
  (well_formed true g.2 = true -> sends g.2 = chunk_outcome g.1) /\
  (forall a, a ∈ g.2 -> a ∈ worker g.1).

Definition pc_ok (s : state) : Prop :=
  let started := Z.of_nat (dispatched s) in
  match pc s with
  | LoopHead k =>
      0 <= k <= chunkCount /\ started = k /\ errors_of (observed s) = []
  | LoopSelect k =>
      0 <= k < chunkCount /\ started = k + 1 /\ errors_of (observed s) = []
  | DrainHead i =>
      (i <= 5)%nat /\ started <= chunkCount /\
      (errors_of (observed s) = [] -> started = chunkCount)
  | DrainSelect i =>
      (i < 5)%nat /\ started <= chunkCount /\
      (errors_of (observed s) = [] -> started = chunkCount)
  | Finish =>
      started <= chunkCount /\
      (errors_of (observed s) = [] -> started = chunkCount)
  | Returned _ | Crashed _ => True
  end.

(** Every started chunk is still to send, or its outcome is queued or
    has been received. *)
Definition delivered (s : state) : Prop :=
  forall k, 0 <= k < Z.of_nat (dispatched s) ->
    (exists acts, (k, acts) ∈ goroutines s /\ well_formed true acts = true) \/
    (exists o, chunk_outcome k = Some o /\ (queued s o \/ o ∈ observed s)).

(** The invariant of the loops. *)
Record inv_live (s : state) : Prop := {
  live_source : source_ok;
  live_goroutines : Forall (goroutine_ok (dispatched s)) (goroutines s);
  live_sem : sem s = (length (goroutines s) + drained (pc s))%nat;
  live_cap : (sem s <= 5)%nat;
  live_count : dispatched s =
               (length (observed s) + length (errorChan s) +
                length (manifestChan s) + unsent (goroutines s))%nat;
  live_polled : (polled (pc s) (dispatched s) <= length (observed s) + 5)%nat;
  live_pc : pc_ok s;
  live_error : processError s = last (errors_of (observed s));
  live_manifests : manifests s = manifests_of (observed s);
  live_delivered : delivered s;
  live_unwritten : forall e, e ∈ log s -> ~ is_manifest_write e;
}.

(** What holds once [CopyFile] has returned [r]. *)
Record returned_ok (s : state) (r : option error) : Prop := {
  ret_goroutines : goroutines s = [];
  ret_errorChan : errorChan s = [];
  ret_manifestChan : manifestChan s = [];
  ret_count : length (observed s) = dispatched s;
  ret_started : Z.of_nat (dispatched s) <= chunkCount \/ dispatched s = 0%nat;
  ret_delivered : forall k, 0 <= k < Z.of_nat (dispatched s) ->
                  exists o, chunk_outcome k = Some o /\ o ∈ observed s;
  ret_manifests : manifests s = manifests_of (observed s);
  ret_failed : errors_of (observed s) <> [] ->
               r = last (errors_of (observed s)) /\
               (forall e, e ∈ log s -> ~ is_manifest_write e);
  ret_clean : errors_of (observed s) = [] ->
              (~ source_ok /\ (exists e, r = Some e) /\ dispatched s = 0%nat /\
               (forall e, e ∈ log s -> ~ is_manifest_write e)) \/
              (source_ok /\ Z.of_nat (dispatched s) = chunkCount /\
               putManifestCall destDC destBucket destFile (manifests s) ∈ log s /\
               exists submitted,
                 putManifest url_ok sort_Sort cf (client_Do env ManifestPut)
                             destDC destBucket destFile (manifests s)
                 = Ret (submitted, r));
}.

(** Where the events of the log come from. *)
Definition log_ok (s : state) : Prop :=
  forall e, e ∈ log s ->
    is_manifest_write e \/
    e = GetFileSizeCall sourceDC sourceBucket sourceFile \/
    (exists text, e = Printf text) \/
    (exists k, 0 <= k < chunkCount /\ Do e ∈ worker k).

(** A manifest is only ever written at the end of a copy all of whose
    chunks succeeded, and it is made of their items. *)
Definition written_ok (s : state) : Prop :=
  forall e, e ∈ log s -> is_manifest_write e ->
    final (pc s) /\ source_ok /\ all_chunks_succeed /\
    Permutation (manifests s) chunk_items /\
    (e = putManifestCall destDC destBucket destFile (manifests s) \/
     e = ManifestSubmitted (sort_Sort (manifests s))).

Definition Inv (s : state) : Prop :=
  log_ok s /\ written_ok s /\
  match pc s with
  | Crashed _ => (length (goroutines s) <= 5)%nat
  | Returned r => returned_ok s r
  | _ => inv_live s
  end.

(** An outcome is the one some chunk of the plan ends in. *)
Definition from_chunk (o : outcome) : Prop :=
  exists k, 0 <= k < chunkCount /\ chunk_outcome k = Some o.

(** Whatever sits in a channel or was received comes from a chunk. *)
Definition provenance (s : state) : Prop :=
  (forall e, e ∈ errorChan s -> from_chunk (GotError e)) /\
  (forall m, m ∈ manifestChan s -> from_chunk (GotManifest m)) /\
  (forall o, o ∈ observed s -> from_chunk o).

(** The first-error rule, as the specification words it: a call that
    returns after failures were received returns the first of them. *)
Definition first_failure_returned : Prop :=
  forall s r e errs,
    reachable s -> pc s = Returned r -> errors_of (observed s) = e :: errs -> r = Some e.

(** The integrity rule, as the specification words it: when the upload
    hash of some chunk differs from its download hash, a call that
    returns returns an integrity error. *)
Definition mismatch_returns_integrity_error : Prop :=
  forall s r k etag etagUp,
    reachable s -> pc s = Returned r -> 0 <= k < chunkCount ->
    chunk_outcome k = Some (GotError (etag_mismatch etag etagUp)) ->
    exists etag' etagUp', r = Some (etag_mismatch etag' etagUp').

(** The size rule, as the specification words it: on a size [S <= 0] a
    call that returns returns an error and writes no manifest. *)
Definition nonpositive_size_rejected : Prop :=
  size url_ok cf env sourceDC sourceBucket sourceFile <= 0 ->
  forall s r,
    reachable s -> pc s = Returned r ->
    (exists e, r = Some e) /\ (forall e, e ∈ log s -> ~ is_manifest_write e).

(** Work left, for termination: the steps left to the calling
    goroutine, the actions left to the live goroutines and the actions
    of the goroutines still to be started. *)
Definition actions_from (k : Z) : nat :=
  sum_list_with (fun j => length (worker j)) (seqZ k (chunkCount - k)).

Definition main_left (p : main_pc) : nat :=
  match p with
  | LoopHead k => 2 * Z.to_nat (chunkCount - k) + 13 + actions_from k
  | LoopSelect k => 2 * Z.to_nat (chunkCount - k) + 12 + actions_from (k + 1)
  | DrainHead i => 2 * (5 - i) + 2
  | DrainSelect i => 2 * (5 - i) + 1
  | Finish => 1
  | Returned _ | Crashed _ => 0
  end.

Definition work_left (s : state) : nat :=
  main_left (pc s) + sum_list_with (fun g : Z * list action => length g.2) (goroutines s).

End Invariants.
(** The copy of [Sample.env_two_failures] in which the calling goroutine
    runs whenever it can: both failures are received in the drain loop. *)
Definition two_failures : state :=
  Sample.copy Sample.env_two_failures Sample.main_first 200.

(** ** The sort interface of [manifestList] (lines 62-75) *)

Definition index_out_of_range : string := "index out of range".

(** [slice[i]]: out of range it panics. *)
Definition index {A} (slice : list A) (i : Z) : go A :=
  if (0 <=? i) && (i <? Z.of_nat (length slice))
  then match slice !! Z.to_nat i with
       | Some a => Ret a
       | None => Panic index_out_of_range
       end
  else Panic index_out_of_range.

Definition Len (slice : manifestList) : Z := Z.of_nat (length slice).

(** [slice[i].Path < slice[j].Path] *)
Definition Less_at (slice : manifestList) (i j : Z) : go bool :=
  a ← index slice i;
  b ← index slice j;
  Ret (Less a b).

(** [slice[i], slice[j] = slice[j], slice[i]]: both elements are read,
    then [slice[i]] and [slice[j]] are written in that order. *)
Definition Swap (slice : manifestList) (i j : Z) : go manifestList :=
  b ← index slice j;
  a ← index slice i;
  Ret (<[Z.to_nat j := a]> (<[Z.to_nat i := b]> slice)).

(** ** The identity service (lines 17-54 and 86-167) *)

Record cloudFilesAuth := {
  UserName : string;
  ApiKey : string;
}.

Record raxKeyCreds := {
  Credentials : cloudFilesAuth;
}.

Record serviceEndpoints := {
  Region : string;
  TenantId : string;
  PublicURL : string;
}.

Record serviceCatalog := {
  Name : string;
  Endpoints : list serviceEndpoints;
}.

Record tenantData := {
  tenant_Id : string;
  tenant_Name : string;
}.

Record tokenData := {
  token_Id : string;
  Tenant : tenantData;
}.

Record serviceAccess := {
  Catalog : list serviceCatalog;
  Token : tokenData;
}.

Record accessWrapper := {
  Access : serviceAccess;
}.

(** [NewCloudFiles]: the map of regions starts empty. *)
Definition NewCloudFiles (userName apiKey : string) : CloudFiles :=
  {| userName := userName; apiEndpoint := ""; tenantId := ""; authToken := "";
     apiKey := apiKey; dcs := ∅ |}.

Definition identity_url : string := "https://identity.api.rackspacecloud.com/v2.0/tokens".

(** The inner loop of lines 159-161: [cf.dcs[Region] = PublicURL] for
    each endpoint, in order. *)
Definition load_endpoints (endpoints : list serviceEndpoints)
    (dcs : gmap string string) : gmap string string :=
  foldl (fun m ep => <[Region ep := PublicURL ep]> m) dcs endpoints.

(** The loop of lines 156-164: the first catalog entry named
    ["cloudFiles"] is loaded, then the loop breaks. *)
Fixpoint load_catalog (catalog : list serviceCatalog)
    (dcs : gmap string string) : gmap string string :=
  match catalog with
  | [] => dcs
  | entry :: rest =>
      if decide (Name entry = "cloudFiles")
      then load_endpoints (Endpoints entry) dcs
      else load_catalog rest dcs
  end.

Definition not_authenticated (status : Z) : error :=
  "Could not authenticate: " +:+ pretty status.

Definition not_authenticated_because (responseBody : list byte) (status : Z) : error :=
  "Could not authenticate: " +:+ string_of_list_byte responseBody +:+
  " (" +:+ pretty status +:+ ")".

Section Authorize.

Variable url_ok : string -> bool.

(** The error of [http.NewRequest] on a URL it rejects. *)
Variable url_error : string -> error.

(** [json.Marshal] of the credentials. *)
Variable json_Marshal : raxKeyCreds -> list byte * option error.

(** [json.NewDecoder(resp.Body).Decode(&respData)]. *)
Variable json_Decode : response -> accessWrapper * option error.

(** [Authorize] has a pointer receiver: it returns the client as the call
    leaves it, and the error. *)
Definition Authorize (cf : CloudFiles) (client_Do : transport)
  : go (CloudFiles * option error) :=
  let authData := {| Credentials := {| UserName := userName cf; ApiKey := apiKey cf |} |} in
  let '(payLoad, err) := json_Marshal authData in
  match err with
  | Some e => Ret (cf, Some e)
  | None =>
    match NewRequest url_ok "POST" identity_url (BytesBody payLoad) with
    | None => Ret (cf, Some (url_error identity_url))
    | Some req =>
      let req := Header_Add req "Content-Type" "application/json" in
      let '(resp, err) := client_Do req in
      match err with
      | Some e => Ret (cf, Some e)
      | None =>
        resp ← deref resp;
        if negb (StatusCode resp =? 200) then
          match BodyErr resp with
          | Some _ => Ret (cf, Some (not_authenticated (StatusCode resp)))
          | None => Ret (cf, Some (not_authenticated_because (Body resp) (StatusCode resp)))
          end
        else
          let '(respData, err) := json_Decode resp in
          match err with
          | Some e => Ret (cf, Some e)
          | None =>
            Ret ({| userName := userName cf; apiEndpoint := apiEndpoint cf;
                    tenantId := tenant_Id (Tenant (Token (Access respData)));
                    authToken := token_Id (Token (Access respData));
                    apiKey := apiKey cf;
                    dcs := load_catalog (Catalog (Access respData)) (dcs cf) |}, None)
          end
      end
    end
  end.

End Authorize.

(** The requests [Authorize] and the object operations send. *)
Definition auth_request (payLoad : list byte) : request :=
  {| Method := "POST"; URL := identity_url;
     ReqHeader := [("Content-Type", "application/json")];
     ReqBody := BytesBody payLoad |}.

Definition head_request (cf : CloudFiles) (dc bucket filename : string) : request :=
  {| Method := "HEAD"; URL := object_url (dcs_lookup cf dc) bucket filename;
     ReqHeader := [("X-Auth-Token", authToken cf)]; ReqBody := NoBody |}.

Definition put_request (cf : CloudFiles) (dc bucket filename : string)
    (data : list byte) : request :=
  {| Method := "PUT"; URL := object_url (dcs_lookup cf dc) bucket filename;
     ReqHeader := [("Content-Type", "application/octet-stream");
                   ("X-Auth-Token", authToken cf)];
     ReqBody := BytesBody data |}.

Definition manifest_request (cf : CloudFiles) (dc bucket filename : string)
    (items : manifestList) : request :=
  {| Method := "PUT";
     URL := object_url (dcs_lookup cf dc) bucket filename +:+ "?multipart-manifest=put";
     ReqHeader := [("Content-Type", "application/json");
                   ("X-Auth-Token", authToken cf)];
     ReqBody := JsonBody items |}.

(** A goroutine runs to one send and the release of the semaphore, or
    panics before it has sent anything. *)
Definition is_Do (a : action) : Prop :=
  match a with
  | Do _ => True
  | _ => False
  end.

Definition send_of (o : outcome) : action :=
  match o with
  | GotError e => SendError e
  | GotManifest m => SendManifest m
  end.

Definition sends_once (acts : list action) : Prop :=
  (exists pre o post,
     acts = pre ++ send_of o :: post ++ [SemRelease] /\
     Forall is_Do pre /\ Forall is_Do post) \/
  (exists pre msg, acts = pre ++ [Crash msg] /\ Forall is_Do pre).

(** Vocabulary of the properties of a whole copy. *)
Section CopyVocabulary.

Variable md5_hex : list byte -> string.
Variable url_ok : string -> bool.
Variable sort_Sort : manifestList -> manifestList.
Variable cf : CloudFiles.
Variable env : environment.
Variables sourceDC sourceBucket sourceFile destDC destBucket destFile : string.

(** The name under which the manifest lists part [chunkIndex]. *)
Definition part_path (chunkIndex : Z) : string :=
  destBucket +:+ "/" +:+ destFileName destFile chunkIndex.

(** The download of chunk [chunkIndex], as its goroutine asks for it. *)
Definition chunk_download (chunkIndex : Z) : go (list byte * (Z * string * option error)) :=
  GetChunk md5_hex url_ok cf (client_Do env (ChunkGet chunkIndex))
           sourceDC sourceBucket sourceFile
           (chunk_offset chunkSize chunkIndex)
           (chunk_length (size url_ok cf env sourceDC sourceBucket sourceFile)
                         chunkSize chunkIndex).

(** The stat of part [chunkIndex] at the destination. *)
Definition part_stat (chunkIndex : Z) : go (Z * string * option error) :=
  GetFileSize url_ok cf (client_Do env (PartStat chunkIndex))
              destDC destBucket (destFileName destFile chunkIndex).

(** The upload of [data] as part [chunkIndex]. *)
Definition part_upload (chunkIndex : Z) (data : list byte) : go (string * option error) :=
  PutFile url_ok cf (client_Do env (PartPut chunkIndex))
          destDC destBucket (destFileName destFile chunkIndex) data.

(** What the goroutine of chunk [chunkIndex] may ask of the outside
    world. *)
Definition call_ok (chunkIndex : Z) (e : event) : Prop :=
  match e with
  | TempFileCall k => k = chunkIndex
  | GetChunkCall dc bucket file offset length =>
      dc = sourceDC /\ bucket = sourceBucket /\ file = sourceFile /\
      offset = chunk_offset chunkSize chunkIndex /\
      length = chunk_length (size url_ok cf env sourceDC sourceBucket sourceFile)
                            chunkSize chunkIndex
  | GetFileSizeCall dc bucket file =>
      dc = destDC /\ bucket = destBucket /\ file = destFileName destFile chunkIndex
  | PutFileCall dc bucket file data =>
      dc = destDC /\ bucket = destBucket /\ file = destFileName destFile chunkIndex /\
      exists bytesRead etag,
        chunk_download chunkIndex = Ret (data, (bytesRead, etag, None)) /\
        ~ (exists length, part_stat chunkIndex = Ret (length, etag, None))
  | FileClose name | FileSync name | FileSeek name | Remove name =>
      exists err, TempFile env chunkIndex = (Some name, err)
  | putManifestCall _ _ _ _ | ManifestSubmitted _ | Printf _ => False
  end.

(** The temporary file of every goroutine started so far has been
    removed, or its goroutine is live and still has the removal ahead. *)
Definition temp_settled (s : state) : Prop :=
  forall k name err,
    0 <= k < Z.of_nat (dispatched s) ->
    TempFile env k = (Some name, err) ->
    Remove name ∈ log s \/
    exists acts, (k, acts) ∈ goroutines s /\ Do (Remove name) ∈ acts.

(** Nothing in the copy panics: the stat of the source and the manifest
    write return, the plan has a length [make] accepts, and no goroutine
    of the plan runs into a panic. *)
Definition panic_free : Prop :=
  returns (source_stat url_ok cf env sourceDC sourceBucket sourceFile) /\
  0 <= chunkCount url_ok cf env sourceDC sourceBucket sourceFile /\
  (forall k msg,
     0 <= k < chunkCount url_ok cf env sourceDC sourceBucket sourceFile ->
     Crash msg ∉ worker md5_hex url_ok cf env sourceDC sourceBucket sourceFile
                        destDC destBucket destFile k) /\
  (forall items,
     returns (putManifest url_ok sort_Sort cf (client_Do env ManifestPut)
                          destDC destBucket destFile items)).

End CopyVocabulary.

(** Sample answers of the identity service. *)
Module SampleIdentity.

Definition url_error (url : string) : error := "parse " +:+ url.

Definition json_Marshal (creds : raxKeyCreds) : list byte * option error :=
  (list_byte_of_string (UserName (Credentials creds) +:+ ":" +:+ ApiKey (Credentials creds)),
   None).

Definition access : accessWrapper :=
  {| Access :=
       {| Catalog :=
            [{| Name := "cloudServers";
                Endpoints := [{| Region := "ORD"; TenantId := "1"; PublicURL := "https://servers" |}] |};
             {| Name := "cloudFiles";
                Endpoints := [{| Region := "IAD"; TenantId := "1"; PublicURL := "https://iad.files" |};
                              {| Region := "DFW"; TenantId := "1"; PublicURL := "https://dfw.files" |}] |};
             {| Name := "cloudFiles";
                Endpoints := [{| Region := "SYD"; TenantId := "1"; PublicURL := "https://syd.files" |}] |}];
          Token := {| token_Id := "secret";
                      Tenant := {| tenant_Id := "1"; tenant_Name := "one" |} |} |} |}.

Definition json_Decode (_ : response) : accessWrapper * option error := (access, None).

Definition granted : transport := Sample.always (Sample.reply 200 "" "0" []).
Definition denied : transport := Sample.always (Sample.reply 401 "" "0" Sample.ab).

Definition Authorize : CloudFiles -> transport -> go (CloudFiles * option error) :=
  Authorize Sample.url_ok url_error json_Marshal json_Decode.

(** The client a first successful [Authorize] leaves. *)
Definition authorized : CloudFiles :=
  match Authorize (NewCloudFiles "user" "key") granted with
  | Ret (cf, _) => cf
  | Panic _ => NewCloudFiles "user" "key"
  end.

(** The client after a second call, which the service refuses. *)
Definition reauthorized : CloudFiles :=
  match Authorize authorized denied with
  | Ret (cf, _) => cf
  | Panic _ => NewCloudFiles "user" "key"
  end.

End SampleIdentity.
(** Sample faults. *)
Module SampleFaults.

(** A download whose stream breaks after two bytes. *)
Definition broken : response :=
  {| StatusCode := 206; Header := ∅; Body := Sample.ab;
     BodyErr := Some "unexpected EOF" |}.

(** A copy whose source is not there. *)
Definition env_missing : environment :=
  {| TempFile := TempFile Sample.env_ok;
     client_Do := fun site =>
       match site with
       | SourceStat => Sample.always Sample.absent
       | _ => client_Do Sample.env_ok site
       end |}.

(** The copy of [Sample.env_ok] in which the calling goroutine runs
    whenever it can. *)
Definition copied : state := Sample.copy Sample.env_ok Sample.main_first 200.

(** The same copy after two steps: the first goroutine has been started
    and the calling goroutine is past its first [select]. *)
Definition started : state := Sample.copy Sample.env_ok Sample.main_first 2.

End SampleFaults.

(** * Proofs *)

(** ** int64 *)

Lemma wrap_id z : Int64.in_range z -> Int64.wrap z = z.
Proof.
  unfold Int64.in_range, Int64.wrap, Int64.min_int, Int64.max_int. intros H.
  rewrite Z.mod_small; lia.
Qed.

Lemma wrap_in_range z : Int64.in_range (Int64.wrap z).
Proof.
  unfold Int64.in_range, Int64.wrap, Int64.min_int, Int64.max_int.
  pose proof (Z.mod_pos_bound (z + 2 ^ 63) (2 ^ 64)). lia.
Qed.

(** ** The chunk plan *)

Section Planning.
Variables S cs : Z.
Hypothesis S_pos : 0 < S <= Int64.max_int.
Hypothesis cs_pos : 0 < cs <= Int64.max_int.

Lemma plan_remainder_mod : plan_remainder S cs = S mod cs.
Proof. unfold plan_remainder, Int64.rem. apply Z.rem_mod_nonneg; lia. Qed.

Lemma plan_div : Int64.div S cs = S / cs.
Proof.
  unfold Int64.div. rewrite Z.quot_div_nonneg by lia.
  apply wrap_id. unfold Int64.in_range, Int64.min_int, Int64.max_int in *.
  pose proof (Z.div_le_upper_bound S cs S). pose proof (Z.div_pos S cs). nia.
Qed.

Lemma plan_chunkCount_ceil : plan_chunkCount S cs = (S + cs - 1) / cs.
Proof.
  unfold plan_chunkCount. rewrite plan_remainder_mod, plan_div.
  pose proof (Z.div_mod S cs). pose proof (Z.mod_pos_bound S cs).
  assert (Hq : 0 <= S / cs) by (apply Z.div_pos; lia).
  destruct (0 <? S mod cs) eqn:Hr.
  - apply Z.ltb_lt in Hr.
    assert (Hc : (S + cs - 1) / cs = S / cs + 1).
    { symmetry. apply (Z.div_unique _ _ _ (S mod cs - 1)); lia. }
    rewrite Hc. unfold Int64.add. apply wrap_id.
    unfold Int64.in_range, Int64.min_int, Int64.max_int in *.
    assert (cs <> 1) by (intros ->; rewrite Z.mod_1_r in Hr; lia).
    assert (2 * (S / cs) <= S) by nia. lia.
  - apply Z.ltb_ge in Hr.
    apply (Z.div_unique _ _ _ (cs - 1)); lia.
Qed.
End Planning.

Section Tiling.
Variables S cs : Z.
Hypothesis S_pos : 0 < S <= Int64.max_int.
Hypothesis cs_pos : 0 < cs <= Int64.max_int.

Lemma chunk_offset_exact i :
  0 <= i < plan_chunkCount S cs -> chunk_offset cs i = i * cs.
Proof.
  rewrite plan_chunkCount_ceil by done. intros Hi.
  unfold chunk_offset, Int64.mul. apply wrap_id.
  unfold Int64.in_range, Int64.min_int, Int64.max_int in *.
  assert (i * cs <= S + cs - 1 - cs); [| lia].
  pose proof (Z.mul_div_le (S + cs - 1) cs). nia.
Qed.

Lemma chunk_length_cases i :
  chunk_length S cs i =
    if i =? (S + cs - 1) / cs - 1 then S mod cs else cs.
Proof.
  unfold chunk_length.
  rewrite plan_chunkCount_ceil, plan_remainder_mod by done.
  unfold Int64.sub. rewrite wrap_id; [done |].
  unfold Int64.in_range, Int64.min_int, Int64.max_int in *.
  assert ((S + cs - 1) / cs <= S) by (apply Z.div_le_upper_bound; nia).
  pose proof (Z.div_pos (S + cs - 1) cs). lia.
Qed.

Lemma tiles_tail (n : nat) (k : Z) :
  0 < S mod cs -> 0 <= k -> k + Z.of_nat n = S / cs ->
  tiles (k * cs)
        (map (fun i => (chunk_offset cs i, chunk_length S cs i))
             (seqZ k (Z.of_nat n + 1))) S = true.
Proof.
  intros Hr. revert k. 
  assert (Hc : (S + cs - 1) / cs = S / cs + 1).
  { pose proof (Z.div_mod S cs). pose proof (Z.mod_pos_bound S cs).
    symmetry. apply (Z.div_unique _ _ _ (S mod cs - 1)); lia. }
  induction n as [| n IH]; intros k Hk Hq.
  - change (Z.of_nat 0 + 1) with 1. rewrite seqZ_cons, seqZ_nil by lia. simpl.
    rewrite chunk_offset_exact by (rewrite plan_chunkCount_ceil by done; lia).
    rewrite chunk_length_cases, Hc.
    replace (k =? S / cs + 1 - 1) with true by (symmetry; apply Z.eqb_eq; lia).
    pose proof (Z.div_mod S cs).
    repeat (apply andb_true_intro; split); try apply Z.eqb_eq; try apply Z.ltb_lt; lia.
  - rewrite seqZ_cons by lia. simpl.
    rewrite chunk_offset_exact by (rewrite plan_chunkCount_ceil by done; lia).
    rewrite chunk_length_cases, Hc.
    replace (k =? S / cs + 1 - 1) with false by (symmetry; apply Z.eqb_neq; lia).
    rewrite Z.eqb_refl. simpl.
    replace (0 <? cs) with true by (symmetry; apply Z.ltb_lt; lia). simpl.
    replace (k * cs + cs) with (Z.succ k * cs) by lia.
    replace (Z.pred (Z.of_nat (Datatypes.S n) + 1)) with (Z.of_nat n + 1) by lia.
    apply IH; lia.
Qed.

(** Away from exact multiples the plan is the one the specification
    describes: the ranges tile [0, S). *)
Lemma plan_tiles_inexact :
  0 < S mod cs -> tiles 0 (chunk_specs S cs) S = true.
Proof.
  intros Hr. unfold chunk_specs. rewrite plan_chunkCount_ceil by done.
  assert (Hc : (S + cs - 1) / cs = S / cs + 1).
  { pose proof (Z.div_mod S cs). pose proof (Z.mod_pos_bound S cs).
    symmetry. apply (Z.div_unique _ _ _ (S mod cs - 1)); lia. }
  rewrite Hc.
  assert (0 <= S / cs) by (apply Z.div_pos; lia).
  replace (S / cs) with (Z.of_nat (Z.to_nat (S / cs))) at 1 by lia.
  apply (tiles_tail (Z.to_nat (S / cs)) 0); lia.
Qed.

(** At an exact multiple the last chunk is asked for with length 0. *)
Lemma plan_exact_last :
  S mod cs = 0 ->
  last (chunk_specs S cs) = Some (S - cs, 0).
Proof.
  intros Hr. unfold chunk_specs. rewrite plan_chunkCount_ceil by done.
  assert (Hc : (S + cs - 1) / cs = S / cs).
  { pose proof (Z.div_mod S cs). pose proof (Z.mod_pos_bound S cs).
    symmetry. apply (Z.div_unique _ _ _ (cs - 1)); lia. }
  assert (Hq : 0 < S / cs).
  { pose proof (Z.div_mod S cs). pose proof (Z.div_pos S cs). nia. }
  rewrite Hc.
  replace (S / cs) with (Z.of_nat (Datatypes.S (Z.to_nat (S / cs - 1)))) at 1 by lia.
  rewrite seqZ_S, map_app. cbn [map]. rewrite last_snoc. f_equal.
  rewrite chunk_offset_exact by (rewrite plan_chunkCount_ceil, Hc by done; lia).
  rewrite chunk_length_cases, Hc.
  replace (0 + Z.of_nat (Z.to_nat (S / cs - 1))) with (S / cs - 1) by lia.
  rewrite Z.eqb_refl, Hr. f_equal.
  pose proof (Z.div_mod S cs). nia.
Qed.
End Tiling.

(** ** strconv.ParseInt and the stat of an object *)

Lemma parse_digits_nonneg s acc n : 0 <= acc -> parse_digits acc s = Some n -> 0 <= n.
Proof.
  revert acc. induction s as [| c s IH]; simpl; intros acc Hacc H.
  - by simplify_eq.
  - destruct (digit_of c) as [d |] eqn:Hd; [| discriminate].
    apply (IH (10 * acc + d)); [| done].
    unfold digit_of in Hd. destruct (_ && _) eqn:Hc; [| discriminate].
    simplify_eq. lia.
Qed.

Lemma parse_unsigned_nonneg s n : parse_unsigned s = Some n -> 0 <= n.
Proof.
  unfold parse_unsigned. destruct s; [discriminate |].
  by apply parse_digits_nonneg.
Qed.

Lemma ParseInt_in_range s n : ParseInt s = Some n -> Int64.in_range n.
Proof.
  unfold ParseInt, Int64.in_range, Int64.min_int, Int64.max_int.
  destruct s as [| c s']; [discriminate |].
  repeat case_decide;
    (destruct (parse_unsigned _) as [m |] eqn:Hm; [| discriminate]);
    apply parse_unsigned_nonneg in Hm;
    (destruct (m <=? _) eqn:Hle; [| discriminate]);
    apply Z.leb_le in Hle; intros; simplify_eq; lia.
Qed.

Section Stat.

Variable url_ok : string -> bool.

(** [GetFileSize] returns [0, "", err] on every error, and otherwise a
    length that fits an int64. *)
Lemma GetFileSize_result cf client_Do dc bucket filename size etag err :
  GetFileSize url_ok cf client_Do dc bucket filename = Ret (size, etag, err) ->
  Int64.in_range size /\ (err <> None -> size = 0).
Proof.
  unfold GetFileSize. intros H.
  assert (Hz : Int64.in_range 0) by (unfold Int64.in_range, Int64.min_int, Int64.max_int; lia).
  case_decide; [by simplify_eq |].
  destruct (NewRequest _ _ _ _); simpl in H; [| discriminate].
  destruct (client_Do _) as [[resp |] e]; simpl in H; [| discriminate].
  destruct (negb _); [by simplify_eq |].
  destruct (Header_get resp "Content-Length"); simpl in H; [discriminate |].
  destruct (ParseInt _) as [n |] eqn:Hn; [| by simplify_eq].
  destruct (Header_get resp "Etag"); simpl in H; [discriminate |].
  simplify_eq. split; [by eapply ParseInt_in_range | done].
Qed.

End Stat.

(** ** Goroutine bodies *)

Lemma well_formed_exclusive acts :
  well_formed true acts = true -> well_formed false acts = true -> False.
Proof.
  induction acts as [| a rest IH]; simpl; [discriminate |].
  destruct a; simpl; auto; discriminate.
Qed.

Lemma well_formed_nonempty b acts : well_formed b acts = true -> acts <> [].
Proof. destruct acts; simpl; [discriminate | done]. Qed.

Section Worker.

Variable md5_hex : list byte -> string.
Variable url_ok : string -> bool.
Variable cf : CloudFiles.
Variable env : environment.
Variables sourceDC sourceBucket sourceFile destDC destBucket destFile : string.

Local Abbreviation worker :=
  (worker md5_hex url_ok cf env sourceDC sourceBucket sourceFile destDC destBucket destFile).

Lemma worker_well_formed k : well_formed true (worker k) = true.
Proof.
  unfold worker. repeat case_match; simpl; rewrite ?bool_decide_eq_true; done.
Qed.

Lemma worker_never_writes_manifest k e : Do e ∈ worker k -> ~ is_manifest_write e.
Proof.
  unfold worker. intros He Hw.
  repeat case_match; set_unfold; naive_solver.
Qed.

(** The item of chunk [k] is named after [k]. *)
Lemma worker_manifest_path k m :
  sends (worker k) = Some (GotManifest m) ->
  Path m = destBucket +:+ "/" +:+ destFile +:+ "-" +:+ pretty k.
Proof.
  unfold worker. intros H.
  repeat case_match; simpl in H; simplify_eq; done.
Qed.

(** An upload made for chunk [k] goes to the part named after [k]. *)
Lemma worker_upload_name k dc bucket file data :
  Do (PutFileCall dc bucket file data) ∈ worker k -> file = destFileName destFile k.
Proof.
  unfold worker. intros H.
  repeat case_match; set_unfold; naive_solver.
Qed.

(** Once the temporary file exists, the goroutine ends by removing it:
    its last two actions are the [os.Remove] and then the release of the
    semaphore, or the crash of a panic. *)
Lemma worker_removes k name err :
  TempFile env k = (Some name, err) ->
  exists pre last,
    worker k = pre ++ [Do (Remove name); last] /\
    (last = SemRelease \/ exists msg, last = Crash msg).
Proof.
  unfold worker. intros ->.
  repeat case_match;
    (eexists _, _; split; [by apply app_comm_cons || by instantiate (1 := []) | eauto]) ||
    idtac.
  all: try by (eexists [_], _; split; [done | eauto]).
  all: try by (eexists [_; _], _; split; [done | eauto]).
  all: try by (eexists [_; _; _], _; split; [done | eauto]).
  all: try by (eexists [_; _; _; _], _; split; [done | eauto]).
  all: try by (eexists [_; _; _; _; _], _; split; [done | eauto]).
  all: try by (eexists [_; _; _; _; _; _], _; split; [done | eauto]).
  all: try by (eexists [_; _; _; _; _; _; _], _; split; [done | eauto]).
Qed.

(** When [ioutil.TempFile] fails the goroutine panics in its second
    statement, before it looks at the error. *)
Lemma worker_tempfile_nil k err :
  TempFile env k = (None, err) ->
  worker k = [Do (TempFileCall k); Crash nil_deref].
Proof. unfold worker. by intros ->. Qed.

(** The goroutine of a chunk whose part is already at the destination
    with the hash of the bytes just downloaded. *)
Lemma worker_skips_upload k name written bytesRead etag sz :
  TempFile env k = (Some name, None) ->
  GetChunk md5_hex url_ok cf (client_Do env (ChunkGet k)) sourceDC sourceBucket sourceFile
           (chunk_offset (chunkSize) k)
           (chunk_length (size url_ok cf env sourceDC sourceBucket sourceFile) chunkSize k)
    = Ret (written, (bytesRead, etag, None)) ->
  GetFileSize url_ok cf (client_Do env (PartStat k)) destDC destBucket
              (destFileName destFile k)
    = Ret (sz, etag, None) ->
  worker k =
    [Do (TempFileCall k);
     Do (GetChunkCall sourceDC sourceBucket sourceFile (chunk_offset chunkSize k)
           (chunk_length (size url_ok cf env sourceDC sourceBucket sourceFile) chunkSize k));
     Do (FileSync name); Do (FileSeek name);
     Do (GetFileSizeCall destDC destBucket (destFileName destFile k));
     SendManifest (part_manifest destBucket destFile k etag bytesRead);
     Do (Remove name); SemRelease].
Proof.
  unfold worker. intros -> -> ->. simpl.
  rewrite !bool_decide_eq_true_2 by done. simpl.
  by rewrite decide_False by (intros H; by apply H).
Qed.

End Worker.

Section Manifest.

Variable url_ok : string -> bool.
Variable sort_Sort : manifestList -> manifestList.

(** What [putManifest] sends is what [sort.Sort] made of its argument. *)
Lemma putManifest_submitted cf client_Do dc bucket filename items submitted err :
  putManifest url_ok sort_Sort cf client_Do dc bucket filename items
    = Ret (Some submitted, err) ->
  submitted = sort_Sort items.
Proof.
  unfold putManifest. intros H.
  case_decide; [discriminate |].
  destruct (NewRequest _ _ _ _); simpl in H; [| discriminate].
  destruct (client_Do _) as [[resp |] e]; simpl in H; [| discriminate].
  destruct (negb _); by simplify_eq.
Qed.

End Manifest.

(** ** The object operations *)

Lemma go_bind_Ret {A B} (m : go A) (k : A -> go B) b :
  mbind k m = Ret b -> exists a, m = Ret a /\ k a = Ret b.
Proof. destruct m; simpl; [eauto | discriminate]. Qed.


(** When the request itself fails, [client.Do] hands back a nil response:
    each operation then reads [resp.StatusCode] before it looks at the
    error, and panics. *)
Lemma nil_response_panics md5_hex url_ok cf client_Do dc bucket filename
    offset length data :
  dcs_lookup cf dc <> "" ->
  (forall req, (client_Do req).1 = None) ->
  GetFileSize url_ok cf client_Do dc bucket filename = Panic nil_deref /\
  GetChunk md5_hex url_ok cf client_Do dc bucket filename offset length = Panic nil_deref /\
  PutFile url_ok cf client_Do dc bucket filename data = Panic nil_deref.
Proof.
  intros Hdc Hnil. unfold GetFileSize, GetChunk, PutFile, NewRequest.
  rewrite !decide_False by done.
  destruct (url_ok _); simpl; [| done].
  repeat split.
  all: destruct (client_Do _) as [resp err] eqn:Hdo;
       lazymatch type of Hdo with _ ?r = _ => specialize (Hnil r) end;
       rewrite Hdo in Hnil; simpl in Hnil; subst; reflexivity.
Qed.

(** ** Histories *)

Lemma errors_of_app obs1 obs2 : errors_of (obs1 ++ obs2) = errors_of obs1 ++ errors_of obs2.
Proof. induction obs1 as [| [e | m] obs1 IH]; simpl; [done | by rewrite IH | done]. Qed.

Lemma manifests_of_app obs1 obs2 :
  manifests_of (obs1 ++ obs2) = manifests_of obs1 ++ manifests_of obs2.
Proof. induction obs1 as [| [e | m] obs1 IH]; simpl; [done | done | by rewrite IH]. Qed.

Lemma errors_of_elem e obs : GotError e ∈ obs -> e ∈ errors_of obs.
Proof.
  induction obs as [| [e' | m] obs IH]; simpl; set_unfold; naive_solver.
Qed.

Lemma manifests_of_elem m obs : GotManifest m ∈ obs -> m ∈ manifests_of obs.
Proof.
  induction obs as [| [e | m'] obs IH]; simpl; set_unfold; naive_solver.
Qed.

Lemma manifests_of_length obs :
  errors_of obs = [] -> length (manifests_of obs) = length obs.
Proof.
  induction obs as [| [e | m] obs IH]; simpl; [done | discriminate | auto].
Qed.

Lemma unsent_app gs1 gs2 : unsent (gs1 ++ gs2) = (unsent gs1 + unsent gs2)%nat.
Proof. unfold unsent. by rewrite filter_app, length_app. Qed.

Lemma unsent_le gs : (unsent gs <= length gs)%nat.
Proof. unfold unsent. apply length_filter. Qed.

Lemma unsent_one k acts :
  unsent [(k, acts)] = if well_formed true acts then 1%nat else 0%nat.
Proof.
  unfold unsent. rewrite filter_cons. simpl.
  destruct (well_formed true acts); by case_decide.
Qed.

Lemma unsent_cons k acts gs :
  unsent ((k, acts) :: gs) =
  ((if well_formed true acts then 1 else 0) + unsent gs)%nat.
Proof. rewrite <- (unsent_one k). apply (unsent_app [_]). Qed.

(** ** Lists *)

Lemma last_None_nil {A} (l : list A) : last l = None -> l = [].
Proof. destruct l as [| x l] using rev_ind; [done |]. by rewrite last_snoc. Qed.

Lemma length_omap_total {A B} (f : A -> option B) (l : list A) :
  (forall x, x ∈ l -> is_Some (f x)) -> length (omap f l) = length l.
Proof.
  induction l as [| x l IH]; intros H; simpl; [done |].
  destruct (H x) as [y Hy]; [by left |]. rewrite Hy. simpl.
  f_equal. apply IH. intros x' Hx'. apply H. by right.
Qed.

Lemma NoDup_omap_inj {A B} (f : A -> option B) (l : list A) :
  (forall x1 x2 y, x1 ∈ l -> x2 ∈ l -> f x1 = Some y -> f x2 = Some y -> x1 = x2) ->
  NoDup l -> NoDup (omap f l).
Proof.
  intros Hinj Hnd. induction Hnd as [| x l Hx Hnd IH]; simpl; [constructor |].
  assert (IH' : NoDup (omap f l)).
  { apply IH. intros x1 x2 y H1 H2. apply Hinj; by right. }
  destruct (f x) as [y |] eqn:Hy; [| done].
  constructor; [| done].
  intros (x' & Hx' & Hy')%list_elem_of_omap.
  assert (x = x') as ->; [| done].
  eapply Hinj; [by left | by right | done | done].
Qed.

(** ** Advancing one goroutine among the live ones *)

Lemma advance_split n k a rest (gs : list (Z * list action)) :
  gs !! n = Some (k, a :: rest) ->
  exists l1 l2,
    gs = l1 ++ (k, a :: rest) :: l2 /\
    advance n k rest gs = l1 ++ match rest with
                                 | [] => []
                                 | _ => [(k, rest)]
                                 end ++ l2.
Proof.
  intros Hn. exists (take n gs), (drop (S n) gs). split.
  - symmetry. by apply take_drop_middle.
  - unfold advance. destruct rest.
    + simpl. apply delete_take_drop.
    + apply insert_take_drop. by eapply lookup_lt_Some.
Qed.

Lemma well_formed_Do b e rest : well_formed b (Do e :: rest) = well_formed b rest.
Proof. done. Qed.

Lemma well_formed_send b a rest :
  (exists e, a = SendError e) \/ (exists m, a = SendManifest m) ->
  well_formed b (a :: rest) = true ->
  b = true /\ well_formed false rest = true /\ well_formed true rest = false.
Proof.
  intros [[e ->] | [m ->]]; simpl; intros [-> Hwf]%andb_true_iff;
    (split; [done |]; split; [done |]);
    destruct (well_formed true rest) eqn:Ht; try done;
    by destruct (well_formed_exclusive rest).
Qed.

Lemma well_formed_release b rest :
  well_formed b (SemRelease :: rest) = true -> b = false /\ rest = [].
Proof.
  simpl. intros [Hb Hr]%andb_true_iff. apply bool_decide_eq_true in Hr.
  by destruct b.
Qed.

(** ** Sorting by path *)

Lemma Less_false_le a b : Less b a = false <-> String.le (Path a) (Path b).
Proof.
  unfold Less, String.le, String.ltb, String.leb.
  rewrite (String.compare_antisym (Path b) (Path a)).
  destruct (String.compare (Path a) (Path b)); simpl; split; intros H; try done.
Qed.

Lemma le_ne_Less a b : String.le (Path a) (Path b) -> Path a <> Path b -> Less a b = true.
Proof.
  unfold Less, String.le, String.ltb, String.leb. intros Hle Hne.
  destruct (String.compare (Path a) (Path b)) eqn:Hc; [| done | done].
  by apply String.compare_eq_iff in Hc.
Qed.

Lemma Sorted_weaken {A} (R R' : A -> A -> Prop) l :
  (forall a b, R a b -> R' a b) -> Sorted R l -> Sorted R' l.
Proof.
  intros HR Hs. induction Hs as [| a l Hs IH Hhd]; constructor; [done |].
  destruct Hhd; constructor; auto.
Qed.

Section SortContract.

Variable sort_Sort : manifestList -> manifestList.

(** The contract of [sort.Sort]: it rearranges its argument, and
    afterwards no element is [Less] than its predecessor. *)
Hypothesis sort_Sort_perm : forall l, sort_Sort l ≡ₚ l.
Hypothesis sort_Sort_sorted : forall l, Sorted (fun a b => Less b a = false) (sort_Sort l).

Lemma sort_Sort_StronglySorted l :
  StronglySorted (fun a b => String.le (Path a) (Path b)) (sort_Sort l).
Proof.
  apply Sorted_StronglySorted.
  - intros a b c Hab Hbc. by etrans.
  - eapply Sorted_weaken; [| apply sort_Sort_sorted]. intros a b. apply Less_false_le.
Qed.

(** On items of distinct paths the result does not depend on the order
    of the argument. *)
Lemma sort_Sort_unique l1 l2 :
  l1 ≡ₚ l2 -> NoDup (Path <$> l1) -> sort_Sort l1 = sort_Sort l2.
Proof.
  intros Hperm Hnd.
  apply (StronglySorted_unique_strong (fun a b => String.le (Path a) (Path b)));
    try apply sort_Sort_StronglySorted.
  - intros a b Ha Hb Hab Hba.
    assert (Hp : Path a = Path b) by by apply (anti_symm String.le).
    rewrite sort_Sort_perm in Ha. rewrite sort_Sort_perm, <- Hperm in Hb.
    clear -Ha Hb Hp Hnd. induction l1 as [| x l IH]; [by apply elem_of_nil in Ha |].
    apply NoDup_cons in Hnd as [Hx Hnd]. simpl in Hx.
    apply elem_of_cons in Ha as [-> | Ha], Hb as [-> | Hb]; auto.
    + destruct Hx. rewrite Hp. by apply list_elem_of_fmap_2.
    + destruct Hx. rewrite <- Hp. by apply list_elem_of_fmap_2.
  - by rewrite !sort_Sort_perm.
Qed.

Lemma sort_Sort_strict l :
  NoDup (Path <$> l) -> StronglySorted (fun a b => Less a b = true) (sort_Sort l).
Proof.
  intros Hnd. rewrite <- sort_Sort_perm in Hnd.
  pose proof (sort_Sort_StronglySorted l) as Hs.
  induction Hs as [| a l' Hs IH Hall]; [constructor |].
  apply NoDup_cons in Hnd as [Ha Hnd]. constructor; [auto |].
  rewrite Forall_forall in Hall |- *. intros b Hb.
  apply le_ne_Less; [auto |]. intros Hp. destruct Ha. rewrite Hp.
  by apply list_elem_of_fmap_2.
Qed.

End SortContract.

(** ** The invariant of [CopyFile] *)

Section System.

Variable md5_hex : list byte -> string.
Variable url_ok : string -> bool.
Variable sort_Sort : manifestList -> manifestList.
Variable cf : CloudFiles.
Variable env : environment.
Variables sourceDC sourceBucket sourceFile destDC destBucket destFile : string.

Local Abbreviation worker :=
  (worker md5_hex url_ok cf env sourceDC sourceBucket sourceFile destDC destBucket destFile).
Local Abbreviation chunkCount := (chunkCount url_ok cf env sourceDC sourceBucket sourceFile).
Local Abbreviation source_stat := (source_stat url_ok cf env sourceDC sourceBucket sourceFile).
Local Abbreviation source_ok := (source_ok url_ok cf env sourceDC sourceBucket sourceFile).
Local Abbreviation chunk_outcome :=
  (chunk_outcome md5_hex url_ok cf env sourceDC sourceBucket sourceFile destDC destBucket destFile).
Local Abbreviation all_chunks_succeed :=
  (all_chunks_succeed md5_hex url_ok cf env sourceDC sourceBucket sourceFile
                      destDC destBucket destFile).
Local Abbreviation chunk_items :=
  (chunk_items md5_hex url_ok cf env sourceDC sourceBucket sourceFile destDC destBucket destFile).
Local Abbreviation goroutine_ok :=
  (goroutine_ok md5_hex url_ok cf env sourceDC sourceBucket sourceFile destDC destBucket destFile).
Local Abbreviation delivered :=
  (delivered md5_hex url_ok cf env sourceDC sourceBucket sourceFile destDC destBucket destFile).
Local Abbreviation pc_ok := (pc_ok url_ok cf env sourceDC sourceBucket sourceFile).
Local Abbreviation inv_live :=
  (inv_live md5_hex url_ok cf env sourceDC sourceBucket sourceFile destDC destBucket destFile).
Local Abbreviation returned_ok :=
  (returned_ok md5_hex url_ok sort_Sort cf env sourceDC sourceBucket sourceFile
               destDC destBucket destFile).
Local Abbreviation log_ok :=
  (log_ok md5_hex url_ok cf env sourceDC sourceBucket sourceFile destDC destBucket destFile).
Local Abbreviation written_ok :=
  (written_ok md5_hex url_ok sort_Sort cf env sourceDC sourceBucket sourceFile
              destDC destBucket destFile).
Local Abbreviation Inv :=
  (Inv md5_hex url_ok sort_Sort cf env sourceDC sourceBucket sourceFile
       destDC destBucket destFile).
Local Abbreviation main_step :=
  (main_step md5_hex url_ok sort_Sort cf env sourceDC sourceBucket sourceFile
             destDC destBucket destFile).
Local Abbreviation finish := (finish url_ok sort_Sort cf env destDC destBucket destFile).
Local Abbreviation spawn :=
  (spawn md5_hex url_ok cf env sourceDC sourceBucket sourceFile destDC destBucket destFile).
Local Abbreviation exec :=
  (exec md5_hex url_ok sort_Sort cf env sourceDC sourceBucket sourceFile
        destDC destBucket destFile).
Local Abbreviation step :=
  (step md5_hex url_ok sort_Sort cf env sourceDC sourceBucket sourceFile
        destDC destBucket destFile).
Local Abbreviation goroutine_step := goroutine_step.
Local Abbreviation work_left :=
  (work_left md5_hex url_ok cf env sourceDC sourceBucket sourceFile destDC destBucket destFile).
Local Abbreviation main_left :=
  (main_left md5_hex url_ok cf env sourceDC sourceBucket sourceFile destDC destBucket destFile).
Local Abbreviation actions_from :=
  (actions_from md5_hex url_ok cf env sourceDC sourceBucket sourceFile
                destDC destBucket destFile).
Local Abbreviation from_chunk :=
  (from_chunk md5_hex url_ok cf env sourceDC sourceBucket sourceFile destDC destBucket destFile).
Local Abbreviation provenance :=
  (provenance md5_hex url_ok cf env sourceDC sourceBucket sourceFile destDC destBucket destFile).
Local Abbreviation initial := (initial url_ok cf env sourceDC sourceBucket sourceFile).
Local Abbreviation reachable :=
  (reachable md5_hex url_ok sort_Sort cf env sourceDC sourceBucket sourceFile
             destDC destBucket destFile).

Lemma unwritten_written_ok s :
  (forall e, e ∈ log s -> ~ is_manifest_write e) -> written_ok s.
Proof. intros H e He Hw. by destruct (H e He). Qed.

Lemma Inv_live s : ~ final (pc s) -> log_ok s -> inv_live s -> Inv s.
Proof.
  intros Hfinal Hlog Hlive. split; [done |]. split.
  - apply unwritten_written_ok, Hlive.
  - destruct (pc s); simpl in Hfinal; done.
Qed.

Lemma Inv_live_inv s : ~ final (pc s) -> Inv s -> log_ok s /\ inv_live s.
Proof.
  intros Hfinal (Hlog & _ & H). split; [done |].
  destruct (pc s); simpl in Hfinal; done.
Qed.

Lemma initial_Inv : Inv initial.
Proof.
  unfold initial.
  set (s0 := {| pc := LoopHead 0; sem := 0; errorChan := []; manifestChan := [];
                manifests := []; processError := None; goroutines := [];
                log := [GetFileSizeCall sourceDC sourceBucket sourceFile];
                observed := []; dispatched := 0 |}).
  assert (Hlog : forall p, log_ok (with_pc p s0)).
  { intros p e He. simpl in He. apply list_elem_of_singleton in He. auto. }
  assert (Hun : forall p e, e ∈ log (with_pc p s0) -> ~ is_manifest_write e).
  { intros p e He. simpl in He. apply list_elem_of_singleton in He as ->. simpl. auto. }
  destruct source_stat as [[[size etag] [e |]] | msg] eqn:Hstat.
  - split; [apply Hlog |]. split; [apply unwritten_written_ok, Hun |]. simpl.
    split; simpl; try done.
    + auto.
    + intros k Hk. lia.
    + intros _. left. split.
      * intros (size' & etag' & Hok). congruence.
      * split; [eauto |]. split; [done |]. apply (Hun (Returned (Some e))).
  - destruct (chunkCount <? 0) eqn:Hneg.
    + split; [apply Hlog |]. split; [apply unwritten_written_ok, Hun |]. simpl. lia.
    + apply Z.ltb_ge in Hneg. apply Inv_live; [simpl; auto | apply (Hlog (LoopHead 0)) |].
      split; simpl; try done; try lia.
      * by exists size, etag.
      * intros k Hk. simpl in Hk. lia.
      * apply (Hun (LoopHead 0)).
  - split; [apply Hlog |]. split; [apply unwritten_written_ok, Hun |]. simpl. lia.
Qed.

Lemma chunkCount_in_range : Int64.in_range chunkCount.
Proof.
  unfold chunkCount, plan_chunkCount.
  destruct (0 <? _); apply wrap_in_range.
Qed.

Lemma goroutine_ok_mono n g : goroutine_ok n g -> goroutine_ok (S n) g.
Proof. intros (Hk & Hwf & Hs & Hd). split; [lia | done]. Qed.

Lemma log_ok_same s s' : log s' = log s -> log_ok s -> log_ok s'.
Proof. unfold log_ok. by intros ->. Qed.

Lemma log_ok_snoc s s' e :
  log s' = log s ++ [e] ->
  (is_manifest_write e \/ e = GetFileSizeCall sourceDC sourceBucket sourceFile \/
   (exists text, e = Printf text) \/ (exists k, 0 <= k < chunkCount /\ Do e ∈ worker k)) ->
  log_ok s -> log_ok s'.
Proof.
  unfold log_ok. intros -> He Hlog e' [He' | He']%elem_of_app; [auto |].
  by apply list_elem_of_singleton in He' as ->.
Qed.

Lemma delivered_weaken s s' :
  dispatched s' = dispatched s ->
  (forall g, g ∈ goroutines s -> g ∈ goroutines s') ->
  (forall o, queued s o \/ o ∈ observed s -> queued s' o \/ o ∈ observed s') ->
  delivered s -> delivered s'.
Proof.
  intros HD Hgs Hq Hdel k Hk. rewrite HD in Hk.
  destruct (Hdel k Hk) as [(acts & Hin & Hwf) | (o & Ho & Hqo)]; [left | right]; eauto.
Qed.

(** Line 370-437: a goroutine is started. *)
Lemma spawn_Inv s k :
  pc s = LoopHead k -> k < chunkCount -> (sem s < 5)%nat ->
  Inv s -> Inv (spawn k s).
Proof.
  intros Hpc Hk Hsem HI.
  apply Inv_live_inv in HI as [Hlog H]; [| rewrite Hpc; simpl; tauto].
  destruct H as [Hsrc Hgs Hsm Hcap Hcnt Hpol Hpcok Hpe Hman Hdel Hunw].
  unfold pc_ok in Hpcok. rewrite Hpc in *. simpl in *.
  destruct Hpcok as (Hk0 & HD & Herr).
  apply Inv_live; [simpl; auto | by apply (log_ok_same s) |].
  split; simpl; try done; try lia.
  - apply Forall_app. split.
    + eapply Forall_impl; [done |]. apply goroutine_ok_mono.
    + apply Forall_singleton. repeat split; simpl; try lia.
      * exists true. apply worker_well_formed.
      * done.
  - rewrite length_app. simpl. lia.
  - rewrite unsent_app, unsent_one, worker_well_formed. lia.
  - unfold pc_ok. simpl. repeat split; try done; lia.
  - intros j Hj. simpl in Hj.
    destruct (decide (j = k)) as [-> | Hne].
    + left. exists (worker k). split; [| apply worker_well_formed].
      simpl. apply elem_of_app. right. by apply list_elem_of_singleton.
    + destruct (Hdel j) as [(acts & Hin & Hwf) | H]; [lia | left | right; done].
      exists acts. split; [| done]. simpl. apply elem_of_app. by left.
Qed.

(** Line 370: the loop ends when every chunk has its goroutine. *)
Lemma loop_exit_Inv s k :
  pc s = LoopHead k -> ~ k < chunkCount ->
  Inv s -> Inv (with_pc (DrainHead 0) s).
Proof.
  intros Hpc Hk HI.
  apply Inv_live_inv in HI as [Hlog H]; [| rewrite Hpc; simpl; tauto].
  destruct H as [Hsrc Hgs Hsm Hcap Hcnt Hpol Hpcok Hpe Hman Hdel Hunw].
  unfold pc_ok in Hpcok. rewrite Hpc in *. simpl in *.
  destruct Hpcok as (Hk0 & HD & Herr).
  apply Inv_live; [simpl; auto | by apply (log_ok_same s) |].
  split; simpl; try done; try lia.
  unfold pc_ok. simpl. repeat split; try done; lia.
Qed.

(** Receiving moves an outcome from its channel to the history: goals of
    the form [queued s o \/ o ∈ observed s -> queued s' o \/ o ∈ observed s']. *)
Ltac solve_queued H :=
  let o := fresh "o" in
  let Ho := fresh "Ho" in
  intros o Ho; unfold queued in *; simpl in *; rewrite ?H in Ho;
  destruct o; set_unfold; naive_solver.

Lemma last_errors_snoc obs e : last (errors_of (obs ++ [GotError e])) = Some e.
Proof. rewrite errors_of_app. simpl. apply last_snoc. Qed.

Lemma errors_snoc_nonempty obs e : errors_of (obs ++ [GotError e]) <> [].
Proof. rewrite errors_of_app. simpl. by destruct (errors_of obs). Qed.

Lemma errors_snoc_manifest obs m : errors_of (obs ++ [GotManifest m]) = errors_of obs.
Proof. rewrite errors_of_app. simpl. apply app_nil_r. Qed.

Lemma manifests_snoc_error obs e : manifests_of (obs ++ [GotError e]) = manifests_of obs.
Proof. rewrite manifests_of_app. simpl. apply app_nil_r. Qed.

Lemma manifests_snoc_manifest obs m :
  manifests_of (obs ++ [GotManifest m]) = manifests_of obs ++ [m].
Proof. by rewrite manifests_of_app. Qed.

(** Lines 439-449. *)
Lemma loop_select_Inv c text s s' k :
  pc s = LoopSelect k ->
  select c text (DrainHead 0) (LoopHead (Int64.add k 1)) s = Some s' ->
  Inv s -> Inv s'.
Proof.
  intros Hpc Hsel HI.
  apply Inv_live_inv in HI as [Hlog H]; [| rewrite Hpc; simpl; tauto].
  destruct H as [Hsrc Hgs Hsm Hcap Hcnt Hpol Hpcok Hpe Hman Hdel Hunw].
  unfold pc_ok in Hpcok. rewrite Hpc in *. simpl in *.
  destruct Hpcok as (Hk0 & HD & Herr).
  assert (Hnext : Int64.add k 1 = k + 1).
  { pose proof chunkCount_in_range. unfold Int64.add, Int64.in_range in *.
    apply wrap_id. unfold Int64.in_range, Int64.min_int, Int64.max_int in *. lia. }
  pose proof (unsent_le (goroutines s)) as Hle.
  unfold select in Hsel. destruct c.
  - destruct (errorChan s) as [| e rest] eqn:Hec; [discriminate |].
    injection Hsel as <-.
    apply Inv_live; [simpl; tauto | eapply log_ok_snoc; [done | eauto | done] |].
    split; simpl in *; rewrite ?length_app; simpl; try done; try lia.
    + unfold pc_ok. simpl. repeat split; try lia.
      intros H. by apply errors_snoc_nonempty in H.
    + by rewrite last_errors_snoc.
    + by rewrite manifests_snoc_error.
    + eapply delivered_weaken; [| | | done]; simpl; [done | done |].
      solve_queued Hec.
    + intros e' [He' | He']%elem_of_app; [auto |].
      apply list_elem_of_singleton in He' as ->. simpl. tauto.
  - destruct (manifestChan s) as [| m rest] eqn:Hmc; [discriminate |].
    injection Hsel as <-.
    apply Inv_live; [simpl; tauto | by eapply log_ok_same |].
    split; simpl in *; rewrite ?length_app; simpl; try done; try lia.
    + unfold pc_ok. simpl. rewrite errors_snoc_manifest. repeat split; try done; lia.
    + by rewrite errors_snoc_manifest.
    + by rewrite manifests_snoc_manifest, Hman.
    + eapply delivered_weaken; [| | | done]; simpl; [done | done |].
      solve_queued Hmc.
  - destruct (errorChan s) eqn:Hec; [| discriminate].
    destruct (manifestChan s) eqn:Hmc; [| discriminate].
    injection Hsel as <-.
    apply Inv_live; [simpl; tauto | by eapply log_ok_same |].
    split; simpl in *; rewrite ?length_app, ?Hec, ?Hmc; simpl; try done; try lia.
    unfold pc_ok. simpl. repeat split; try done; lia.
Qed.

(** Line 454-455: the drain loop takes a slot of the semaphore. *)
Lemma drain_acquire_Inv s i :
  pc s = DrainHead i -> (i < 5)%nat -> (sem s < 5)%nat ->
  Inv s -> Inv (with_pc (DrainSelect i) (with_sem (S (sem s)) s)).
Proof.
  intros Hpc Hi Hsem HI.
  apply Inv_live_inv in HI as [Hlog H]; [| rewrite Hpc; simpl; tauto].
  destruct H as [Hsrc Hgs Hsm Hcap Hcnt Hpol Hpcok Hpe Hman Hdel Hunw].
  unfold pc_ok in Hpcok. rewrite Hpc in *. simpl in *.
  apply Inv_live; [simpl; tauto | by eapply log_ok_same |].
  split; simpl in *; try done; try lia.
  unfold pc_ok. simpl. repeat split; try tauto; lia.
Qed.

(** Line 454: the drain loop ends after [cap(sem)] rounds. *)
Lemma drain_exit_Inv s i :
  pc s = DrainHead i -> ~ (i < 5)%nat ->
  Inv s -> Inv (with_pc Finish s).
Proof.
  intros Hpc Hi HI.
  apply Inv_live_inv in HI as [Hlog H]; [| rewrite Hpc; simpl; tauto].
  destruct H as [Hsrc Hgs Hsm Hcap Hcnt Hpol Hpcok Hpe Hman Hdel Hunw].
  unfold pc_ok in Hpcok. rewrite Hpc in *. simpl in *.
  apply Inv_live; [simpl; tauto | by eapply log_ok_same |].
  split; simpl in *; try done; try lia.
  unfold pc_ok. simpl. repeat split; try tauto; lia.
Qed.

(** Lines 458-468. *)
Lemma drain_select_Inv c text s s' i :
  pc s = DrainSelect i ->
  select c text (DrainHead (S i)) (DrainHead (S i)) s = Some s' ->
  Inv s -> Inv s'.
Proof.
  intros Hpc Hsel HI.
  apply Inv_live_inv in HI as [Hlog H]; [| rewrite Hpc; simpl; tauto].
  destruct H as [Hsrc Hgs Hsm Hcap Hcnt Hpol Hpcok Hpe Hman Hdel Hunw].
  unfold pc_ok in Hpcok. rewrite Hpc in *. simpl in *.
  destruct Hpcok as (Hi & HD & Herr).
  pose proof (unsent_le (goroutines s)) as Hle.
  unfold select in Hsel. destruct c.
  - destruct (errorChan s) as [| e rest] eqn:Hec; [discriminate |].
    injection Hsel as <-.
    apply Inv_live; [simpl; tauto | eapply log_ok_snoc; [done | eauto | done] |].
    split; simpl in *; rewrite ?length_app; simpl; try done; try lia.
    + unfold pc_ok. simpl. repeat split; try lia.
      intros H. by apply errors_snoc_nonempty in H.
    + by rewrite last_errors_snoc.
    + by rewrite manifests_snoc_error.
    + eapply delivered_weaken; [| | | done]; simpl; [done | done |].
      solve_queued Hec.
    + intros e' [He' | He']%elem_of_app; [auto |].
      apply list_elem_of_singleton in He' as ->. simpl. tauto.
  - destruct (manifestChan s) as [| m rest] eqn:Hmc; [discriminate |].
    injection Hsel as <-.
    apply Inv_live; [simpl; tauto | by eapply log_ok_same |].
    split; simpl in *; rewrite ?length_app; simpl; try done; try lia.
    + unfold pc_ok. simpl. rewrite errors_snoc_manifest. repeat split; try done; lia.
    + by rewrite errors_snoc_manifest.
    + by rewrite manifests_snoc_manifest, Hman.
    + eapply delivered_weaken; [| | | done]; simpl; [done | done |].
      solve_queued Hmc.
  - destruct (errorChan s) eqn:Hec; [| discriminate].
    destruct (manifestChan s) eqn:Hmc; [| discriminate].
    injection Hsel as <-.
    apply Inv_live; [simpl; tauto | by eapply log_ok_same |].
    split; simpl in *; rewrite ?length_app, ?Hec, ?Hmc; simpl; try done; try lia.
    all: unfold pc_ok; simpl; repeat split; try done; lia.
Qed.

(** When the drain loop is over every goroutine has finished and every
    outcome has been received. *)
Lemma finish_settled s :
  pc s = Finish -> inv_live s ->
  goroutines s = [] /\ errorChan s = [] /\ manifestChan s = [] /\
  length (observed s) = dispatched s /\
  (forall k, 0 <= k < Z.of_nat (dispatched s) ->
     exists o, chunk_outcome k = Some o /\ o ∈ observed s).
Proof.
  intros Hpc [Hsrc Hgs Hsm Hcap Hcnt Hpol Hpcok Hpe Hman Hdel Hunw].
  rewrite Hpc in *. simpl in *.
  assert (Hg : goroutines s = []) by (apply length_zero_iff_nil; lia).
  assert (He : errorChan s = []) by (apply length_zero_iff_nil; lia).
  assert (Hm : manifestChan s = []) by (apply length_zero_iff_nil; lia).
  repeat split; try done; [lia |].
  intros k Hk. destruct (Hdel k Hk) as [(acts & Hin & _) | (o & Ho & [Hq | Hq])].
  - rewrite Hg in Hin. by apply elem_of_nil in Hin.
  - unfold queued in Hq. rewrite He, Hm in Hq.
    destruct o; by apply elem_of_nil in Hq.
  - eauto.
Qed.

Lemma chunk_items_NoDup : NoDup chunk_items.
Proof.
  apply NoDup_omap_inj; [| apply NoDup_seqZ].
  intros k1 k2 m _ _ H1 H2.
  destruct (chunk_outcome k1) as [[e1 | m1] |] eqn:E1; try discriminate.
  destruct (chunk_outcome k2) as [[e2 | m2] |] eqn:E2; try discriminate.
  simplify_eq.
  apply worker_manifest_path in E1, E2. rewrite E1 in E2.
  by repeat apply (inj (String.app _)) in E2; apply (inj pretty) in E2.
Qed.

(** A drain that met no error has received the item of every chunk. *)
Lemma finish_succeeds s :
  pc s = Finish -> inv_live s -> errors_of (observed s) = [] ->
  all_chunks_succeed /\ Permutation (manifests s) chunk_items.
Proof.
  intros Hpc Hlive Herr.
  destruct (finish_settled s Hpc Hlive) as (Hg & He & Hm & Hlen & Hdel).
  destruct Hlive as [_ _ _ _ _ _ Hpcok _ Hman _ _].
  unfold pc_ok in Hpcok. rewrite Hpc in Hpcok. destruct Hpcok as [_ HD].
  specialize (HD Herr).
  assert (Hall : forall k, 0 <= k < chunkCount ->
                 exists m, chunk_outcome k = Some (GotManifest m) /\ m ∈ manifests s).
  { intros k Hk. destruct (Hdel k) as (o & Ho & Hin); [lia |].
    destruct o as [e | m].
    - apply errors_of_elem in Hin. rewrite Herr in Hin. by apply elem_of_nil in Hin.
    - exists m. split; [done |]. rewrite Hman. by apply manifests_of_elem. }
  split.
  - intros k Hk. destruct (Hall k Hk) as (m & Hm' & _). eauto.
  - symmetry. apply submseteq_length_Permutation.
    + apply NoDup_submseteq; [apply chunk_items_NoDup |].
      intros m (k & Hk & Hm')%list_elem_of_omap.
      apply elem_of_seqZ in Hk. destruct (Hall k) as (m' & Hm'' & Hin); [lia |].
      rewrite Hm'' in Hm'. by simplify_eq.
    + unfold chunk_items. rewrite length_omap_total.
      * rewrite length_seqZ, Hman, manifests_of_length, Hlen by done. lia.
      * intros k Hk%elem_of_seqZ. destruct (Hall k) as (m & -> & _); [lia |]. eauto.
Qed.

(** Lines 472-482. *)
Lemma finish_Inv s : pc s = Finish -> Inv s -> Inv (finish s).
Proof.
  intros Hpc HI.
  apply Inv_live_inv in HI as [Hlog Hlive]; [| rewrite Hpc; simpl; tauto].
  destruct (finish_settled s Hpc Hlive) as (Hg & He & Hm & Hlen & Hdel).
  pose proof Hlive as [Hsrc _ _ _ _ _ Hpcok Hpe Hman _ Hunw].
  unfold pc_ok in Hpcok. rewrite Hpc in Hpcok. destruct Hpcok as [HDle HD].
  unfold finish. destruct (processError s) as [e |] eqn:Hperr.
  - (* an error was received *)
    split; [by eapply log_ok_same |]. split; [by apply unwritten_written_ok |].
    simpl. split; simpl; try done.
    + auto.
    + intros Herr. rewrite Herr in Hpe. discriminate.
  - (* no error: the manifest is written *)
    symmetry in Hpe. apply last_None_nil in Hpe.
    destruct (finish_succeeds s Hpc Hlive Hpe) as [Hall Hperm].
    set (call := putManifestCall destDC destBucket destFile (manifests s)).
    assert (Hlog1 : log_ok (with_log call s)).
    { eapply log_ok_snoc; [done | | done]. left. simpl. tauto. }
    destruct (putManifest _ _ _ _ _ _ _ _) as [[[submitted |] err] | msg] eqn:Hput; simpl.
    + apply putManifest_submitted in Hput as Hsub.
      split; [| split].
      * eapply log_ok_snoc; [done | | done]. left. simpl. tauto.
      * intros e' Hin Hw. simpl in Hin |- *.
        apply elem_of_app in Hin as [[Hin | Hin]%elem_of_app | Hin].
        -- by destruct (Hunw e' Hin).
        -- apply list_elem_of_singleton in Hin. repeat split; auto.
        -- apply list_elem_of_singleton in Hin. subst. repeat split; auto.
      * simpl. split; simpl; try done; [auto |].
        intros _. right. repeat split; auto; [set_solver | eauto].
    + split; [done | split].
      * intros e' Hin Hw. simpl in Hin |- *.
        apply elem_of_app in Hin as [Hin | Hin].
        -- by destruct (Hunw e' Hin).
        -- apply list_elem_of_singleton in Hin. repeat split; auto.
      * simpl. split; simpl; try done; [auto |].
        intros _. right. repeat split; auto; [set_solver | eauto].
    + split; [done | split].
      * intros e' Hin Hw. simpl in Hin |- *.
        apply elem_of_app in Hin as [Hin | Hin].
        -- by destruct (Hunw e' Hin).
        -- apply list_elem_of_singleton in Hin. repeat split; auto.
      * simpl. rewrite Hg. simpl. lia.
Qed.

Lemma started_le s :
  ~ final (pc s) -> inv_live s -> Z.of_nat (dispatched s) <= chunkCount.
Proof.
  intros Hf [_ _ _ _ _ _ Hpc _ _ _ _]. unfold pc_ok in Hpc.
  destruct (pc s); simpl in *; try lia; tauto.
Qed.

Lemma pc_ok_same s s' :
  pc s' = pc s -> dispatched s' = dispatched s -> observed s' = observed s ->
  pc_ok s -> pc_ok s'.
Proof. unfold pc_ok. by intros -> -> ->. Qed.

(** A goroutine takes a step: what becomes of [delivered]. *)
Lemma delivered_advance s s' l1 l2 k acts new :
  goroutines s = l1 ++ (k, acts) :: l2 ->
  goroutines s' = l1 ++ new ++ l2 ->
  dispatched s' = dispatched s ->
  (forall o, queued s o \/ o ∈ observed s -> queued s' o \/ o ∈ observed s') ->
  (well_formed true acts = true ->
   (exists acts', (k, acts') ∈ new /\ well_formed true acts' = true) \/
   (exists o, chunk_outcome k = Some o /\ (queued s' o \/ o ∈ observed s'))) ->
  delivered s -> delivered s'.
Proof.
  intros Hgs Hgs' HD Hq Hk Hdel j Hj. rewrite HD in Hj.
  destruct (Hdel j Hj) as [(acts0 & Hin & Hwf) | (o & Ho & Hqo)].
  - rewrite Hgs in Hin. rewrite Hgs'.
    apply elem_of_app in Hin as [Hin | Hin]; [left; exists acts0; set_solver |].
    apply elem_of_cons in Hin as [Heq | Hin]; [| left; exists acts0; set_solver].
    simplify_eq. destruct (Hk Hwf) as [(acts' & Hin' & Hwf') | H]; [left | by right].
    exists acts'. set_solver.
  - right. eauto.
Qed.

(** A step of a goroutine preserves the invariant. *)
Lemma goroutine_step_Inv n s s' :
  Inv s -> goroutine_step n s = Some s' -> Inv s'.
Proof.
  intros HI Hstep. unfold goroutine_step in Hstep.
  destruct (crashed (pc s)) eqn:Hcr; [discriminate |].
  destruct (goroutines s !! n) as [[k [| a rest]] |] eqn:Hn; try discriminate.
  assert (Hnf : ~ final (pc s)).
  { destruct HI as (_ & _ & H).
    destruct (pc s); simpl in *; try tauto; try discriminate.
    destruct H as [Hg _ _ _ _ _ _ _ _]. rewrite Hg in Hn. discriminate. }
  apply Inv_live_inv in HI as [Hlog Hlive]; [| done].
  pose proof (started_le s Hnf Hlive) as HDle.
  destruct Hlive as [Hsrc Hgs Hsm Hcap Hcnt Hpol Hpcok Hpe Hman Hdel Hunw].
  destruct (advance_split n k a rest _ Hn) as (l1 & l2 & Hgs_eq & Hadv).
  rewrite Hadv in Hstep. clear Hadv.
  pose proof Hgs as Hall. rewrite Hgs_eq in Hall.
  apply Forall_app in Hall as [Hl1 Hall]. apply Forall_cons in Hall as [Hg Hl2].
  destruct Hg as (Hk & [b Hwf] & Hsends & Hdo). cbn [fst snd] in Hk, Hwf, Hsends, Hdo.
  rewrite Hgs_eq in Hsm, Hcnt.
  rewrite length_app in Hsm. rewrite unsent_app, unsent_cons in Hcnt.
  simpl in Hsm.
  destruct a as [e | e | m | | msg].
  - (* Do *)
    rewrite well_formed_Do in Hcnt, Hwf, Hsends.
    pose proof (well_formed_nonempty _ _ Hwf) as Hne.
    assert (Hrest : match rest with [] => [] | _ => [(k, rest)] end = [(k, rest)])
      by by destruct rest.
    rewrite Hrest in Hstep. injection Hstep as <-.
    assert (He : Do e ∈ worker k) by (apply Hdo; by left).
    apply Inv_live; [done | |].
    { eapply log_ok_snoc; [done | | done]. right; right; right. exists k. split; [lia | done]. }
    split; simpl; try done.
    + apply Forall_app. split; [done |]. apply Forall_cons. split; [| done].
      repeat split; simpl; try lia; eauto. intros e' He'. apply Hdo. by right.
    + rewrite length_app. simpl. lia.
    + rewrite unsent_app, unsent_cons. simpl. lia.
    + eapply (delivered_advance s _ l1 l2 k (Do e :: rest) [(k, rest)]);
        simpl; try done.
      intros Ht. left. exists rest. split; [by left | done].
    + intros e' [He' | He']%elem_of_app; [auto |].
      apply list_elem_of_singleton in He' as ->. by eapply worker_never_writes_manifest.
  - (* SendError *)
    destruct (well_formed_send b (SendError e) rest) as (-> & Hf & Ht); [eauto | done |].
    pose proof (well_formed_nonempty _ _ Hf) as Hne.
    assert (Hrest : match rest with [] => [] | _ => [(k, rest)] end = [(k, rest)])
      by by destruct rest.
    rewrite Hrest in Hstep. case_decide; [| discriminate]. injection Hstep as <-.
    rewrite Hwf in Hcnt.
    apply Inv_live; [done | by eapply log_ok_same |].
    split; simpl; try done.
    + apply Forall_app. split; [done |]. apply Forall_cons. split; [| done].
      repeat split; simpl; try lia; eauto.
      * intros Ht'. rewrite Ht in Ht'. discriminate.
      * intros e' He'. apply Hdo. by right.
    + rewrite length_app. simpl. lia.
    + rewrite unsent_app, unsent_cons, Ht, ?length_app. simpl. lia.
    + eapply (delivered_advance s _ l1 l2 k (SendError e :: rest) [(k, rest)]);
        simpl; try done.
      * intros [e0 | m0]; unfold queued; simpl; set_solver.
      * intros _. right. exists (GotError e). split; [by rewrite <- Hsends |].
        left. unfold queued. simpl. set_solver.
  - (* SendManifest *)
    destruct (well_formed_send b (SendManifest m) rest) as (-> & Hf & Ht); [eauto | done |].
    pose proof (well_formed_nonempty _ _ Hf) as Hne.
    assert (Hrest : match rest with [] => [] | _ => [(k, rest)] end = [(k, rest)])
      by by destruct rest.
    rewrite Hrest in Hstep. case_decide; [| discriminate]. injection Hstep as <-.
    rewrite Hwf in Hcnt.
    apply Inv_live; [done | by eapply log_ok_same |].
    split; simpl; try done.
    + apply Forall_app. split; [done |]. apply Forall_cons. split; [| done].
      repeat split; simpl; try lia; eauto.
      * intros Ht'. rewrite Ht in Ht'. discriminate.
      * intros e' He'. apply Hdo. by right.
    + rewrite length_app. simpl. lia.
    + rewrite unsent_app, unsent_cons, Ht, ?length_app. simpl. lia.
    + eapply (delivered_advance s _ l1 l2 k (SendManifest m :: rest) [(k, rest)]);
        simpl; try done.
      * intros [e0 | m0]; unfold queued; simpl; set_solver.
      * intros _. right. exists (GotManifest m). split; [by rewrite <- Hsends |].
        left. unfold queued. simpl. set_solver.
  - (* SemRelease *)
    destruct (well_formed_release b rest Hwf) as [-> ->].
    destruct (sem s) as [| sem'] eqn:Hs; [discriminate |]. injection Hstep as <-.
    simpl in Hcnt.
    apply Inv_live; [done | by eapply log_ok_same |].
    split; simpl; try done.
    + by apply Forall_app.
    + rewrite length_app. lia.
    + lia.
    + rewrite unsent_app. lia.
    + eapply (delivered_advance s _ l1 l2 k [SemRelease] []); simpl; try done.
  - (* Crash *)
    injection Hstep as <-.
    split; [by eapply log_ok_same |]. split; [by apply unwritten_written_ok |].
    simpl. rewrite !length_app. destruct rest; simpl; lia.
Qed.

(** A step of the calling goroutine preserves the invariant. *)
Lemma main_step_Inv c s s' :
  Inv s -> main_step c s = Some s' -> Inv s'.
Proof.
  intros HI Hstep. unfold main_step in Hstep.
  destruct (pc s) as [k | k | i | i | | r | msg] eqn:Hpc; try discriminate.
  - destruct (k <? chunkCount) eqn:Hk.
    + apply Z.ltb_lt in Hk. case_decide; [| discriminate]. injection Hstep as <-.
      by apply spawn_Inv.
    + apply Z.ltb_ge in Hk. injection Hstep as <-.
      eapply loop_exit_Inv; [done | lia | done].
  - by eapply loop_select_Inv.
  - case_decide.
    + case_decide; [| discriminate]. injection Hstep as <-.
      by apply drain_acquire_Inv.
    + injection Hstep as <-. by eapply drain_exit_Inv.
  - by eapply drain_select_Inv.
  - injection Hstep as <-. by apply finish_Inv.
Qed.

Lemma step_Inv s s' : Inv s -> step s s' -> Inv s'.
Proof.
  intros HI [[c | n] Hexec]; simpl in Hexec.
  - by eapply main_step_Inv.
  - by eapply goroutine_step_Inv.
Qed.

Lemma steps_Inv s s' : Inv s -> rtc step s s' -> Inv s'.
Proof. intros HI Hsteps. induction Hsteps; eauto using step_Inv. Qed.

Lemma reachable_Inv s : reachable s -> Inv s.
Proof. apply steps_Inv, initial_Inv. Qed.

(** A schedule that runs is a sequence of steps. *)
Lemma run_steps cs s s' :
  run md5_hex url_ok sort_Sort cf env sourceDC sourceBucket sourceFile
      destDC destBucket destFile cs s = Some s' ->
  rtc step s s'.
Proof.
  revert s. induction cs as [| c cs IH]; simpl; intros s H.
  - injection H as <-. apply rtc_refl.
  - destruct (exec c s) as [s1 |] eqn:Hexec; [| discriminate].
    eapply rtc_l; [by exists c | by apply IH].
Qed.

Lemma schedule_steps prio fuel s :
  rtc step s (schedule md5_hex url_ok sort_Sort cf env sourceDC sourceBucket sourceFile
                       destDC destBucket destFile prio fuel s).
Proof.
  revert s. induction fuel as [| fuel IH]; intros s; simpl; [apply rtc_refl |].
  destruct (first_enabled _ _ _ _ _ _ _ _ _ _ _ prio s) as [s' |] eqn:Hfirst;
    [| apply rtc_refl].
  eapply rtc_l; [| apply IH].
  clear IH. induction prio as [| c prio IHp]; simpl in Hfirst; [discriminate |].
  destruct (exec c s) as [s1 |] eqn:Hexec; [| auto].
  injection Hfirst as <-. by exists c.
Qed.

(** *** Progress: [CopyFile] never deadlocks *)

(** While the calling goroutine is not between a [go] and its [select],
    the first live goroutine can always take a step: a send finds room
    in its channel. *)
Lemma goroutine_enabled s g gs :
  inv_live s -> ~ final (pc s) -> goroutines s = g :: gs ->
  (dispatched s <= polled (pc s) (dispatched s))%nat ->
  exists s', goroutine_step 0 s = Some s'.
Proof.
  intros [Hsrc Hgs Hsm Hcap Hcnt Hpol Hpcok Hpe Hman Hdel Hunw] Hnf Hg Hp.
  unfold goroutine_step. rewrite Hg in *. simpl.
  assert (crashed (pc s) = false) as -> by (destruct (pc s); simpl in *; tauto).
  apply Forall_cons in Hgs as [(Hk & [b Hwf] & Hs & Hdo) _].
  destruct g as [k acts]. cbn [fst snd] in *.
  destruct acts as [| a rest]; [discriminate |].
  rewrite unsent_cons in Hcnt. simpl in Hsm.
  destruct a as [e | e | m | | msg]; eauto.
  - destruct (well_formed_send b (SendError e) rest) as (-> & _ & _); [eauto | done |].
    rewrite Hwf in Hcnt. case_decide; [eauto |]. unfold concurrency in *. lia.
  - destruct (well_formed_send b (SendManifest m) rest) as (-> & _ & _); [eauto | done |].
    rewrite Hwf in Hcnt. case_decide; [eauto |]. unfold concurrency in *. lia.
  - destruct (sem s); [lia | eauto].
Qed.

Lemma select_enabled text after_error next s :
  exists c s', select c text after_error next s = Some s'.
Proof.
  destruct (errorChan s) as [| e rest] eqn:He.
  - destruct (manifestChan s) as [| m rest] eqn:Hm.
    + exists CaseDefault. simpl. rewrite He, Hm. eauto.
    + exists CaseManifest. simpl. rewrite Hm. eauto.
  - exists CaseError. simpl. rewrite He. eauto.
Qed.

Lemma progress s : Inv s -> ~ final (pc s) -> exists s', step s s'.
Proof.
  intros HI Hnf. apply Inv_live_inv in HI as [_ Hlive]; [| done].
  pose proof Hlive as [_ _ Hsm _ _ _ _ _ _ _ _].
  assert (Hgo : forall g gs, goroutines s = (g :: gs) ->
                (dispatched s <= polled (pc s) (dispatched s))%nat ->
                exists s', step s s').
  { intros g gs Hg Hp. destruct (goroutine_enabled s g gs) as [s' Hs']; try done.
    exists s', (Goroutine 0). done. }
  assert (Hmain : forall c s', main_step c s = Some s' -> exists s', step s s').
  { intros c s' H. exists s', (Main c). done. }
  destruct (pc s) as [k | k | i | i | | r | msg] eqn:Hpc; simpl in Hnf; try tauto.
  - destruct (decide (k < chunkCount)) as [Hk | Hk].
    + destruct (decide (sem s < concurrency)%nat) as [Hs | Hs].
      * apply (Hmain CaseDefault (spawn k s)). unfold main_step. rewrite Hpc.
        apply Z.ltb_lt in Hk. rewrite Hk. by rewrite decide_True.
      * unfold concurrency in Hs. simpl in Hsm.
        destruct (goroutines s) as [| g gs] eqn:Hg; [simpl in *; lia |].
        apply (Hgo g gs); simpl; [done | lia].
    + apply (Hmain CaseDefault (with_pc (DrainHead 0) s)).
      unfold main_step. rewrite Hpc.
      assert ((k <? chunkCount) = false) as -> by (apply Z.ltb_ge; lia). done.
  - destruct (select_enabled (fun e => "Oh no, error: " +:+ e +:+ (String "010" ""))
                (DrainHead 0) (LoopHead (Int64.add k 1)) s) as (c & s' & Hsel).
    apply (Hmain c s'). unfold main_step. by rewrite Hpc.
  - destruct (decide (i < concurrency)%nat) as [Hi | Hi].
    + destruct (decide (sem s < concurrency)%nat) as [Hs | Hs].
      * apply (Hmain CaseDefault (with_pc (DrainSelect i) (with_sem (S (sem s)) s))).
        unfold main_step. rewrite Hpc. by rewrite !decide_True.
      * unfold concurrency in Hs, Hi. simpl in Hsm.
        destruct (goroutines s) as [| g gs] eqn:Hg; [simpl in *; lia |].
        apply (Hgo g gs); simpl; [done | lia].
    + apply (Hmain CaseDefault (with_pc Finish s)).
      unfold main_step. rewrite Hpc. by rewrite decide_False.
  - destruct (select_enabled (fun e => "Oh no, error: " +:+ e)
                (DrainHead (S i)) (DrainHead (S i)) s) as (c & s' & Hsel).
    apply (Hmain c s'). unfold main_step. by rewrite Hpc.
  - apply (Hmain CaseDefault (finish s)). unfold main_step. by rewrite Hpc.
Qed.

(** *** Termination: every step uses up work *)

Lemma actions_from_cons k :
  k < chunkCount ->
  actions_from k = (length (worker k) + actions_from (k + 1))%nat.
Proof.
  intros Hk. unfold actions_from. rewrite seqZ_cons by lia. simpl.
  by replace (Z.pred (chunkCount - k)) with (chunkCount - (k + 1)) by lia.
Qed.

Lemma select_pc c text after_error next s s' :
  select c text after_error next s = Some s' ->
  goroutines s' = goroutines s /\ (pc s' = after_error \/ pc s' = next).
Proof.
  unfold select. intros H. destruct c.
  - destruct (errorChan s); [discriminate |]. injection H as <-. simpl. auto.
  - destruct (manifestChan s); [discriminate |]. injection H as <-. simpl. auto.
  - destruct (errorChan s), (manifestChan s); try discriminate.
    injection H as <-. simpl. auto.
Qed.

Lemma finish_pc s : goroutines (finish s) = goroutines s /\ final (pc (finish s)).
Proof.
  unfold finish. destruct (processError s); [simpl; auto |].
  destruct (putManifest _ _ _ _ _ _ _ _) as [[[submitted |] err] | msg]; simpl; auto.
Qed.

Lemma main_left_final p : final p -> main_left p = 0%nat.
Proof. by destruct p. Qed.

Lemma main_step_decreases c s s' :
  Inv s -> main_step c s = Some s' -> (work_left s' < work_left s)%nat.
Proof.
  intros HI Hstep. unfold main_step in Hstep. unfold work_left.
  destruct (pc s) as [k | k | i | i | | r | msg] eqn:Hpc; try discriminate.
  - destruct (k <? chunkCount) eqn:Hk.
    + apply Z.ltb_lt in Hk. case_decide; [| discriminate]. injection Hstep as <-.
      simpl. rewrite sum_list_with_app, (actions_from_cons k Hk). simpl. lia.
    + injection Hstep as <-. simpl. lia.
  - apply Inv_live_inv in HI as [_ Hlive]; [| rewrite Hpc; simpl; tauto].
    destruct Hlive as [_ _ _ _ _ _ Hpcok _ _ _ _].
    unfold pc_ok in Hpcok. rewrite Hpc in Hpcok. destruct Hpcok as (Hk & _ & _).
    assert (Hnext : Int64.add k 1 = k + 1).
    { pose proof chunkCount_in_range. apply wrap_id.
      unfold Int64.in_range, Int64.min_int, Int64.max_int in *. lia. }
    apply select_pc in Hstep as [-> [-> | ->]]; simpl; rewrite ?Hnext; lia.
  - case_decide.
    + case_decide; [| discriminate]. injection Hstep as <-. simpl.
      unfold concurrency in *. lia.
    + injection Hstep as <-. simpl. lia.
  - apply Inv_live_inv in HI as [_ Hlive]; [| rewrite Hpc; simpl; tauto].
    destruct Hlive as [_ _ _ _ _ _ Hpcok _ _ _ _].
    unfold pc_ok in Hpcok. rewrite Hpc in Hpcok. destruct Hpcok as (Hi & _ & _).
    apply select_pc in Hstep as [-> [-> | ->]]; simpl; lia.
  - injection Hstep as <-. destruct (finish_pc s) as [-> Hf].
    rewrite (main_left_final _ Hf). simpl. lia.
Qed.

Lemma goroutine_step_decreases n s s' :
  goroutine_step n s = Some s' -> (work_left s' < work_left s)%nat.
Proof.
  unfold goroutine_step, work_left. intros Hstep.
  destruct (crashed (pc s)); [discriminate |].
  destruct (goroutines s !! n) as [[k [| a rest]] |] eqn:Hn; try discriminate.
  destruct (advance_split n k a rest _ Hn) as (l1 & l2 & Hgs & Hadv).
  rewrite Hadv in Hstep. clear Hadv. rewrite Hgs.
  assert (Hsum : (sum_list_with (fun g : Z * list action => length g.2)
                     (l1 ++ match rest with [] => [] | _ => [(k, rest)] end ++ l2)
                  < sum_list_with (fun g : Z * list action => length g.2)
                     (l1 ++ (k, a :: rest) :: l2))%nat).
  { rewrite !sum_list_with_app. destruct rest; simpl; lia. }
  destruct a as [e | e | m | | msg].
  - injection Hstep as <-. simpl. lia.
  - case_decide; [| discriminate]. injection Hstep as <-. simpl. lia.
  - case_decide; [| discriminate]. injection Hstep as <-. simpl. lia.
  - destruct (sem s); [discriminate |]. injection Hstep as <-. simpl. lia.
  - injection Hstep as <-. simpl. lia.
Qed.

Lemma step_decreases s s' : Inv s -> step s s' -> (work_left s' < work_left s)%nat.
Proof.
  intros HI [[c | n] Hexec]; simpl in Hexec.
  - by eapply main_step_decreases.
  - by eapply goroutine_step_decreases.
Qed.

(** No run is longer than the work left at its start. *)
Lemma run_bounded n s s' :
  Inv s -> nsteps step n s s' -> (n + work_left s' <= work_left s)%nat.
Proof.
  intros HI Hn. induction Hn as [| n s s1 s' Hstep Hn IH]; [lia |].
  pose proof (step_decreases _ _ HI Hstep).
  specialize (IH (step_Inv _ _ HI Hstep)). lia.
Qed.

(** Every run can be continued to the end of the call. *)
Lemma terminates s : Inv s -> exists s', rtc step s s' /\ final (pc s').
Proof.
  remember (work_left s) as w eqn:Hw. revert s Hw.
  induction w as [w IH] using lt_wf_ind. intros s -> HI.
  assert (final (pc s) \/ ~ final (pc s)) as [Hf | Hnf]
    by (destruct (pc s); simpl; tauto).
  - exists s. split; [apply rtc_refl | done].
  - destruct (progress s HI Hnf) as [s1 Hstep].
    destruct (IH (work_left s1) (step_decreases _ _ HI Hstep) s1 eq_refl
                 (step_Inv _ _ HI Hstep)) as (s' & Hsteps & Hf).
    exists s'. split; [by eapply rtc_l | done].
Qed.

(** *** Sizes that plan no chunk *)

Lemma size_in_range : Int64.in_range (size url_ok cf env sourceDC sourceBucket sourceFile).
Proof.
  unfold size. destruct source_stat as [[[sz etag] err] | msg] eqn:Hstat.
  - by apply GetFileSize_result in Hstat as [H _].
  - unfold Int64.in_range, Int64.min_int, Int64.max_int. lia.
Qed.

Lemma nonpositive_plan :
  size url_ok cf env sourceDC sourceBucket sourceFile <= 0 -> chunkCount <= 0.
Proof.
  intros Hs. pose proof size_in_range as Hr.
  unfold chunkCount, plan_chunkCount, plan_remainder, Int64.rem, Int64.div.
  set (sz := size _ _ _ _ _ _) in *.
  unfold Int64.in_range, Int64.min_int, Int64.max_int, chunkSize, default_chunkSize in *.
  pose proof (Z.rem_bound_pos_neg sz 268435456 ltac:(lia) Hs) as Hb.
  pose proof (Z.quot_rem' sz 268435456) as Hq.
  assert (Hrem : (0 <? Z.rem sz 268435456) = false) by (apply Z.ltb_ge; lia).
  rewrite Hrem.
  assert (- 2 ^ 63 <= Z.quot sz 268435456 <= 0) by lia.
  rewrite wrap_id; unfold Int64.in_range, Int64.min_int, Int64.max_int; lia.
Qed.

Lemma stat_failed_plan : ~ source_ok -> chunkCount = 0.
Proof.
  intros Hno.
  assert (Hs : size url_ok cf env sourceDC sourceBucket sourceFile = 0).
  { unfold size. destruct source_stat as [[[sz etag] [e |]] | msg] eqn:Hstat; [| | done].
    - apply GetFileSize_result in Hstat as [_ H]. by apply H.
    - destruct Hno. by exists sz, etag. }
  unfold chunkCount. by rewrite Hs.
Qed.

(** *** Where received outcomes come from *)

Lemma select_provenance c text after_error next s s' :
  select c text after_error next s = Some s' -> provenance s -> provenance s'.
Proof.
  unfold select. intros H (He & Hm & Ho). destruct c.
  - destruct (errorChan s) as [| e rest] eqn:Hec; [discriminate |]. injection H as <-.
    repeat split; simpl; [set_solver | done |].
    intros o [Hin | ->%list_elem_of_singleton]%elem_of_app; [auto |]. apply He. by left.
  - destruct (manifestChan s) as [| m rest] eqn:Hmc; [discriminate |]. injection H as <-.
    repeat split; simpl; [done | set_solver |].
    intros o [Hin | ->%list_elem_of_singleton]%elem_of_app; [auto |]. apply Hm. by left.
  - assert (s' = with_pc next s) as ->; [| done].
    destruct (errorChan s), (manifestChan s); by simplify_eq.
Qed.

Lemma finish_provenance s : provenance s -> provenance (finish s).
Proof.
  unfold finish. destruct (processError s); [done |].
  by destruct (putManifest _ _ _ _ _ _ _ _) as [[[submitted |] err] | msg].
Qed.

Lemma step_provenance s s' : Inv s -> provenance s -> step s s' -> provenance s'.
Proof.
  intros HI Hp [[c | n] Hexec]; simpl in Hexec.
  - unfold main_step in Hexec.
    destruct (pc s) as [k | k | i | i | | r | msg]; try discriminate.
    + destruct (k <? chunkCount); [case_decide; [| discriminate] |]; by injection Hexec as <-.
    + by eapply select_provenance.
    + case_decide; [case_decide; [| discriminate] |]; by injection Hexec as <-.
    + by eapply select_provenance.
    + injection Hexec as <-. by apply finish_provenance.
  - unfold goroutine_step in Hexec.
    destruct (crashed (pc s)) eqn:Hcr; [discriminate |].
    destruct (goroutines s !! n) as [[k [| a rest]] |] eqn:Hn; try discriminate.
    assert (Hnf : ~ final (pc s)).
    { destruct HI as (_ & _ & H).
      destruct (pc s); simpl in *; try tauto; try discriminate.
      destruct H as [Hg _ _ _ _ _ _ _ _]. rewrite Hg in Hn. discriminate. }
    apply Inv_live_inv in HI as [_ Hlive]; [| done].
    pose proof (started_le s Hnf Hlive) as HDle.
    destruct Hlive as [_ Hgs _ _ _ _ _ _ _ _ _].
    apply list_elem_of_lookup_2 in Hn.
    rewrite Forall_forall in Hgs. destruct (Hgs _ Hn) as (Hk & [b Hwf] & Hsends & _).
    cbn [fst snd] in *. destruct Hp as (He & Hm & Ho).
    destruct a as [e | e | m | | msg].
    + by injection Hexec as <-.
    + case_decide; [| discriminate]. injection Hexec as <-.
      destruct (well_formed_send b (SendError e) rest) as (-> & _ & _); [eauto | done |].
      repeat split; simpl; try done.
      intros e' [Hin | ->%list_elem_of_singleton]%elem_of_app; [auto |].
      exists k. split; [lia | by rewrite <- Hsends].
    + case_decide; [| discriminate]. injection Hexec as <-.
      destruct (well_formed_send b (SendManifest m) rest) as (-> & _ & _); [eauto | done |].
      repeat split; simpl; try done.
      intros m' [Hin | ->%list_elem_of_singleton]%elem_of_app; [auto |].
      exists k. split; [lia | by rewrite <- Hsends].
    + destruct (sem s); [discriminate |]. by injection Hexec as <-.
    + by injection Hexec as <-.
Qed.

Lemma initial_provenance : provenance initial.
Proof.
  unfold initial.
  destruct source_stat as [[[sz etag] [e |]] | msg]; [| destruct (chunkCount <? 0) |];
    repeat split; simpl; intros x Hx; by apply elem_of_nil in Hx.
Qed.

Lemma received_from_chunks s : reachable s -> forall o, o ∈ observed s -> from_chunk o.
Proof.
  intros Hs. enough (provenance s) as (_ & _ & H) by done.
  unfold reachable in Hs. revert s Hs.
  apply (rtc_ind_r (fun s => provenance s)); [apply initial_provenance |].
  intros s1 s2 Hs1 Hstep IH.
  eapply step_provenance; [| done | done]. by eapply steps_Inv; [apply initial_Inv |].
Qed.

(** *** What every run of [CopyFile] satisfies *)


Lemma returned_facts s r : reachable s -> pc s = Returned r -> returned_ok s r.
Proof. intros (_ & _ & H)%reachable_Inv Hpc. by rewrite Hpc in H. Qed.



(** C8, amended: a source size [S <= 0] plans no chunk, so no run
    transfers anything; but no size error is raised: a call that returns
    after a successful stat has gone on to submit an empty manifest and
    returns whatever that write returned. *)
Theorem nonpositive_size_writes_empty_manifest s :
  size url_ok cf env sourceDC sourceBucket sourceFile <= 0 ->
  reachable s ->
  (forall e, e ∈ log s -> ~ is_transfer e) /\
  (forall r, pc s = Returned r -> source_ok ->
     putManifestCall destDC destBucket destFile [] ∈ log s /\
     exists submitted,
       putManifest url_ok sort_Sort cf (client_Do env ManifestPut)
                   destDC destBucket destFile [] = Ret (submitted, r)).
Proof.
  intros Hsize Hs. apply nonpositive_plan in Hsize.
  pose proof (reachable_Inv s Hs) as (Hlog & _ & _). split.
  - intros e He Ht. destruct (Hlog e He) as [Hw | [-> | [[text ->] | (k & Hk & _)]]];
      try done; [by destruct e | lia].
  - intros r Hr Hok. destruct (returned_facts s r Hs Hr) as [_ _ _ Hn Hst _ Hm _ Hc].
    assert (H0 : dispatched s = 0%nat) by lia.
    rewrite H0 in Hn. apply length_zero_iff_nil in Hn. rewrite Hn in *. simpl in Hm.
    destruct (Hc eq_refl) as [(Hno & _) | (_ & _ & Hin & Hput)]; [done |].
    by rewrite Hm in Hin, Hput.
Qed.

(** *** Uploads *)

Lemma destFileName_inj k1 k2 :
  destFileName destFile k1 = destFileName destFile k2 -> k1 = k2.
Proof.
  unfold destFileName. intros H.
  by repeat apply (inj (String.app _)) in H; apply (inj pretty) in H.
Qed.


Lemma rerun_uploads_nothing :
  (forall k, 0 <= k < chunkCount -> forall e, Do e ∈ worker k -> ~ is_upload e) ->
  forall s, reachable s -> forall e, e ∈ log s -> ~ is_upload e.
Proof.
  intros Hall s Hs e He Hu. pose proof (reachable_Inv s Hs) as (Hlog & _ & _).
  destruct (Hlog e He) as [Hw | [-> | [[text ->] | (k & Hk & Hdo)]]]; try done.
  - by destruct e.
  - by apply (Hall k Hk e).
Qed.

(** *** The manifest *)

Lemma chunk_items_paths_NoDup : NoDup (Path <$> chunk_items).
Proof.
  apply NoDup_fmap_2_strong; [| apply chunk_items_NoDup].
  intros m1 m2 (k1 & _ & H1)%list_elem_of_omap (k2 & _ & H2)%list_elem_of_omap Hp.
  destruct (chunk_outcome k1) as [[e1 | m1'] |] eqn:E1; try discriminate.
  destruct (chunk_outcome k2) as [[e2 | m2'] |] eqn:E2; try discriminate.
  simplify_eq.
  pose proof E1 as P1. pose proof E2 as P2.
  apply worker_manifest_path in P1, P2. rewrite P1, P2 in Hp.
  repeat apply (inj (String.app _)) in Hp. apply (inj pretty) in Hp. subst.
  congruence.
Qed.

Section Sorted.

Hypothesis sort_Sort_perm : forall l, sort_Sort l ≡ₚ l.
Hypothesis sort_Sort_sorted : forall l, Sorted (fun a b => Less b a = false) (sort_Sort l).


End Sorted.

End System.

(** ** The properties on the sample copies *)

Lemma sample_reachable e prio fuel :
  reachable Sample.md5_hex Sample.url_ok Sample.sort_Sort Sample.cf e
            "IAD" "src" "big.iso" "DFW" "dst" "big.iso" (Sample.copy e prio fuel).
Proof. apply schedule_steps. Qed.

Lemma sample_sort_perm l : Sample.sort_Sort l ≡ₚ l.
Proof. apply merge_sort_Permutation. Qed.

Lemma sample_sort_sorted l : Sorted (fun a b => Less b a = false) (Sample.sort_Sort l).
Proof.
  eapply Sorted_weaken; [| apply Sorted_merge_sort].
  - intros a b. apply Less_false_le.
  - intros a b. apply (total String.le).
Qed.

(** C1, at an exact multiple of the chunk size: for a source of 1 GiB the
    goroutine of the last chunk asks [GetChunk] for length 0, where the
    plan of the specification has 268435456; the four ranges do not tile
    [0, 1073741824). *)
Theorem exact_multiple_last_chunk_length_zero :
  chunk_specs 1073741824 default_chunkSize =
    [(0, 268435456); (268435456, 268435456); (536870912, 268435456); (805306368, 0)] /\
  chunk_length 1073741824 default_chunkSize 3 = 0 /\
  tiles 0 (chunk_specs 1073741824 default_chunkSize) 1073741824 = false.
Proof. by vm_compute. Qed.

(** C6, where acquiring the buffer fails: [ioutil.TempFile] returns a nil
    file, and the goroutine panics on [tmpFile.Name()] in its [defer]
    statement, before it reaches the check of the error: it sends
    nothing, removes nothing and does not release the semaphore. *)
Theorem worker_panics_when_TempFile_fails md5_hex url_ok cf client
    sourceDC sourceBucket sourceFile destDC destBucket destFile err k :
  worker md5_hex url_ok cf {| TempFile := fun _ => (None, err); client_Do := client |}
         sourceDC sourceBucket sourceFile destDC destBucket destFile k
  = [Do (TempFileCall k); Crash nil_deref].
Proof. reflexivity. Qed.

(** C10, when the HTTP request itself fails: [client.Do] returns a nil
    response with its error, and [GetFileSize], [GetChunk] and [PutFile]
    each panic on [resp.StatusCode] instead of returning the error. *)
Theorem transport_failure_panics :
  GetFileSize Sample.url_ok Sample.cf Sample.refused "IAD" "testing" "file"
    = Panic nil_deref /\
  GetChunk Sample.md5_hex Sample.url_ok Sample.cf Sample.refused "IAD" "testing" "file" 100 100000
    = Panic nil_deref /\
  PutFile Sample.url_ok Sample.cf Sample.refused "IAD" "testing" "file" Sample.ab
    = Panic nil_deref.
Proof. by vm_compute. Qed.



Lemma two_failures_reachable :
  reachable Sample.md5_hex Sample.url_ok Sample.sort_Sort Sample.cf Sample.env_two_failures
            "IAD" "src" "big.iso" "DFW" "dst" "big.iso" two_failures.
Proof. unfold two_failures. apply sample_reachable. Qed.

Lemma two_failures_returned :
  pc two_failures = Returned (Some "Could not put cloud file, status: 500").
Proof. by vm_compute. Qed.



(** An empty source: the call returns no error and has written an empty
    manifest. *)
Lemma empty_source_not_rejected :
  ~ nonpositive_size_rejected Sample.md5_hex Sample.url_ok Sample.sort_Sort Sample.cf
      Sample.env_empty "IAD" "src" "big.iso" "DFW" "dst" "big.iso".
Proof.
  intros H.
  assert (Hsize : size Sample.url_ok Sample.cf Sample.env_empty "IAD" "src" "big.iso" <= 0)
    by (vm_compute; intros Hc; discriminate Hc).
  destruct (H Hsize (Sample.copy Sample.env_empty Sample.main_first 200) None
              (sample_reachable Sample.env_empty Sample.main_first 200))
    as [[e He] _]; [vm_compute; reflexivity | discriminate He].
Qed.



Lemma nonpositive_size_writes_empty_manifest_witness :
  putManifestCall "DFW" "dst" "big.iso" []
    ∈ log (Sample.copy Sample.env_empty Sample.main_first 200) /\
  exists submitted,
    putManifest Sample.url_ok Sample.sort_Sort Sample.cf
                (client_Do Sample.env_empty ManifestPut) "DFW" "dst" "big.iso" []
    = Ret (submitted, None).
Proof.
  destruct (nonpositive_size_writes_empty_manifest
              Sample.md5_hex Sample.url_ok Sample.sort_Sort Sample.cf
              Sample.env_empty "IAD" "src" "big.iso" "DFW" "dst" "big.iso"
              (Sample.copy Sample.env_empty Sample.main_first 200)) as [_ H].
  - vm_compute. intros Hc. discriminate Hc.
  - apply sample_reachable.
  - apply H.
    + vm_compute. reflexivity.
    + eexists _, _. vm_compute. reflexivity.
Defined.



(** ** Beyond the copy: the object operations on their own *)

(** *** Decimal lengths *)

Lemma digit_of_pretty_N_char d :
  (d < 10)%N -> digit_of (pretty_N_char d) = Some (Z.of_N d).
Proof.
  intros Hd.
  assert (d = 0 \/ d = 1 \/ d = 2 \/ d = 3 \/ d = 4 \/ d = 5 \/ d = 6 \/ d = 7 \/
          d = 8 \/ d = 9)%N as H by lia.
  repeat destruct H as [-> | H]; try subst d; reflexivity.
Qed.

Lemma parse_digits_pretty_N_go x s :
  parse_digits 0 (pretty_N_go x s) = parse_digits (Z.of_N x) s.
Proof.
  revert s. induction (N.lt_wf_0 x) as [x _ IH]; intros s.
  assert (x = 0 \/ 0 < x)%N as [-> | Hx] by lia; [by rewrite pretty_N_go_0 |].
  rewrite pretty_N_go_step by done.
  rewrite IH by (by apply N.div_lt). simpl.
  rewrite digit_of_pretty_N_char by (by apply N.mod_lt).
  f_equal. pose proof (N.div_mod x 10). lia.
Qed.

Lemma parse_unsigned_pretty_pos p : parse_unsigned (pretty p) = Some (Z.pos p).
Proof.
  unfold pretty, pretty_positive, pretty, pretty_N.
  case_decide as Hz; [done |].
  unfold parse_unsigned.
  pose proof (parse_digits_pretty_N_go (N.pos p) "") as H. simpl in H.
  destruct (pretty_N_go (N.pos p) "") eqn:E; [| done].
  by destruct (pretty_N_go_ne_0 (N.pos p) "").
Qed.

(** [strconv.ParseInt] reads back the decimal form of every 64-bit
    integer. *)
Lemma ParseInt_pretty n : Int64.in_range n -> ParseInt (pretty n) = Some n.
Proof.
  unfold Int64.in_range, Int64.min_int, Int64.max_int. intros Hn.
  destruct n as [| p | p].
  - reflexivity.
  - change (pretty (Z.pos p)) with (pretty p).
    pose proof (parse_unsigned_pretty_pos p) as H.
    unfold ParseInt. destruct (pretty p) as [| c s'] eqn:E; [done |].
    case_decide as Hc; [subst c; by vm_compute in H |].
    case_decide as Hc'; [subst c; by vm_compute in H |].
    rewrite H. unfold Int64.max_int.
    destruct (Z.pos p <=? 2 ^ 63 - 1) eqn:Hle; [done | lia].
  - change (pretty (Z.neg p)) with (String "-" (pretty p)).
    unfold ParseInt. cbv beta iota.
    case_decide as Hc; [discriminate Hc |].
    case_decide as Hc'; [| done].
    rewrite parse_unsigned_pretty_pos.
    destruct (Z.pos p <=? 2 ^ 63) eqn:Hle; [done | lia].
Qed.

(** *** The four operations *)

Section ObjectOperations.

Variable md5_hex : list byte -> string.
Variable url_ok : string -> bool.
Variable sort_Sort : manifestList -> manifestList.
Variable cf : CloudFiles.
Variable client_Do : transport.
Variables dc bucket filename : string.

Lemma request_sent method (b : body) req :
  NewRequest url_ok method (object_url (dcs_lookup cf dc) bucket filename) b = Some req ->
  url_ok (object_url (dcs_lookup cf dc) bucket filename) = true /\
  req = {| Method := method; URL := object_url (dcs_lookup cf dc) bucket filename;
           ReqHeader := []; ReqBody := b |}.
Proof. unfold NewRequest. case_match; naive_solver. Qed.

(** X1: a region the client has no endpoint for (absent from [cf.dcs],
    or mapped to the empty string) makes each of the four operations
    return the "Could not find region" error with zero values, whatever
    the HTTP client would have answered. *)
Theorem unknown_region_is_refused :
  dcs_lookup cf dc = "" ->
  GetFileSize url_ok cf client_Do dc bucket filename
    = Ret (0, "", Some (no_region dc)) /\
  (forall offset length,
     GetChunk md5_hex url_ok cf client_Do dc bucket filename offset length
       = Ret ([], (0, "", Some (no_region dc)))) /\
  (forall data,
     PutFile url_ok cf client_Do dc bucket filename data
       = Ret ("", Some (no_region dc))) /\
  (forall items,
     putManifest url_ok sort_Sort cf client_Do dc bucket filename items
       = Ret (None, Some (no_region dc))).
Proof.
  intros H. unfold GetFileSize, GetChunk, PutFile, putManifest.
  rewrite H. by repeat split; intros; case_decide.
Qed.

(** X2: [GetFileSize] returns a size and a hash without error exactly
    when the region is known, the URL is accepted, the answer to the
    HEAD request (sent with the token) has status 200, its first
    Content-Length value parses as a 64-bit decimal, which is the size,
    and it carries an Etag value, the first of which is the hash.  The
    error of [client.Do] plays no part. *)
Theorem GetFileSize_succeeds_iff n etag :
  GetFileSize url_ok cf client_Do dc bucket filename = Ret (n, etag, None) <->
  dcs_lookup cf dc <> "" /\
  url_ok (object_url (dcs_lookup cf dc) bucket filename) = true /\
  exists resp err cl cls etags,
    client_Do (head_request cf dc bucket filename) = (Some resp, err) /\
    StatusCode resp = 200 /\
    Header_get resp "Content-Length" = cl :: cls /\
    ParseInt cl = Some n /\
    Header_get resp "Etag" = etag :: etags.
Proof.
  unfold GetFileSize, head_request. split.
  - intros H. case_decide as Hdc; [discriminate H |]. split; [done |].
    destruct (NewRequest _ _ _ _) as [req |] eqn:Hreq; simpl in H; [| discriminate H].
    apply request_sent in Hreq as [Hurl ->]. split; [done |].
    unfold Header_Add in H. simpl in H.
    destruct (client_Do _) as [[resp |] err] eqn:Hdo; simpl in H; [| discriminate H].
    destruct (StatusCode resp =? 200) eqn:Hst; simpl in H; [| discriminate H].
    apply Z.eqb_eq in Hst.
    destruct (Header_get resp "Content-Length") as [| cl cls] eqn:Hcl; simpl in H;
      [discriminate H |].
    destruct (ParseInt cl) as [m |] eqn:Hm; [| discriminate H].
    destruct (Header_get resp "Etag") as [| etag' etags] eqn:Het; simpl in H;
      [discriminate H |].
    simplify_eq. by eexists resp, err, cl, cls, etags.
  - intros (Hdc & Hurl & resp & err & cl & cls & etags & Hdo & Hst & Hcl & Hn & Het).
    case_decide; [done |]. unfold NewRequest. rewrite Hurl. simpl.
    unfold Header_Add. simpl. rewrite Hdo. simpl.
    rewrite Hst. simpl. rewrite Hcl. simpl. rewrite Hn, Het. done.
Qed.

(** X3: a 200 answer whose Content-Length is the decimal form of a
    64-bit integer [n] makes [GetFileSize] return exactly [n], with the
    first Etag value. *)
Theorem GetFileSize_reads_decimal_length resp err n cls etag etags :
  dcs_lookup cf dc <> "" ->
  url_ok (object_url (dcs_lookup cf dc) bucket filename) = true ->
  client_Do (head_request cf dc bucket filename) = (Some resp, err) ->
  StatusCode resp = 200 ->
  Int64.in_range n ->
  Header_get resp "Content-Length" = pretty n :: cls ->
  Header_get resp "Etag" = etag :: etags ->
  GetFileSize url_ok cf client_Do dc bucket filename = Ret (n, etag, None).
Proof.
  intros Hdc Hurl Hdo Hst Hn Hcl Het.
  unfold GetFileSize. fold (head_request cf dc bucket filename).
  case_decide; [done |]. unfold NewRequest. rewrite Hurl. simpl.
  unfold Header_Add. simpl. unfold head_request in Hdo. rewrite Hdo. simpl.
  rewrite Hst. simpl. rewrite Hcl. simpl. rewrite (ParseInt_pretty n Hn), Het. done.
Qed.

(** X4: whatever [GetFileSize] returns, the size is a 64-bit integer,
    and with an error the size is 0 and the hash is empty. *)
Theorem GetFileSize_error_zero n etag err :
  GetFileSize url_ok cf client_Do dc bucket filename = Ret (n, etag, err) ->
  Int64.in_range n /\ (err <> None -> n = 0 /\ etag = "").
Proof.
  intros H. split; [by eapply GetFileSize_result |].
  unfold GetFileSize in H.
  case_decide; [by simplify_eq |].
  destruct (NewRequest _ _ _ _); simpl in H; [| discriminate H].
  destruct (client_Do _) as [[resp |] e]; simpl in H; [| discriminate H].
  destruct (negb _); [by simplify_eq |].
  destruct (Header_get resp "Content-Length"); simpl in H; [discriminate H |].
  destruct (ParseInt _) as [m |]; [| by simplify_eq].
  destruct (Header_get resp "Etag"); simpl in H; [discriminate H |].
  by simplify_eq.
Qed.


(** X6: [PutFile] returns a hash without error exactly when the region
    is known, the URL is accepted, [client.Do] answers the PUT of the
    data (sent as application/octet-stream with the token) with status
    201 and no error, and the answer carries an Etag value, the first of
    which is returned. *)
Theorem PutFile_succeeds_iff data etag :
  PutFile url_ok cf client_Do dc bucket filename data = Ret (etag, None) <->
  dcs_lookup cf dc <> "" /\
  url_ok (object_url (dcs_lookup cf dc) bucket filename) = true /\
  exists resp etags,
    client_Do (put_request cf dc bucket filename data) = (Some resp, None) /\
    StatusCode resp = 201 /\
    Header_get resp "Etag" = etag :: etags.
Proof.
  unfold PutFile, put_request. split.
  - intros H. case_decide as Hdc; [discriminate H |]. split; [done |].
    destruct (NewRequest _ _ _ _) as [req |] eqn:Hreq; simpl in H; [| discriminate H].
    apply request_sent in Hreq as [Hurl ->]. split; [done |].
    unfold Header_Add in H. simpl in H.
    destruct (client_Do _) as [[resp |] err] eqn:Hdo; simpl in H; [| discriminate H].
    destruct (StatusCode resp =? 201) eqn:Hst; simpl in H; [| discriminate H].
    apply Z.eqb_eq in Hst.
    destruct err as [e |]; [discriminate H |].
    destruct (Header_get resp "Etag") as [| etag' etags] eqn:Het; simpl in H;
      [discriminate H |].
    simplify_eq. by eexists resp, etags.
  - intros (Hdc & Hurl & resp & etags & Hdo & Hst & Het).
    case_decide; [done |]. unfold NewRequest. rewrite Hurl. simpl.
    unfold Header_Add. simpl. rewrite Hdo. simpl.
    rewrite Hst. simpl. rewrite Het. done.
Qed.

(** X7: a status other than 201 makes [PutFile] return the "Could not
    put cloud file" error with that status and an empty hash; the error
    of [client.Do], if there was one beside the response, is lost. *)
Theorem PutFile_status_error data resp err :
  dcs_lookup cf dc <> "" ->
  url_ok (object_url (dcs_lookup cf dc) bucket filename) = true ->
  client_Do (put_request cf dc bucket filename data) = (Some resp, err) ->
  StatusCode resp <> 201 ->
  PutFile url_ok cf client_Do dc bucket filename data
    = Ret ("", Some (put_failed (StatusCode resp))).
Proof.
  intros Hdc Hurl Hdo Hst. unfold PutFile.
  case_decide; [done |]. unfold NewRequest. rewrite Hurl. simpl.
  unfold Header_Add. simpl. unfold put_request in Hdo. rewrite Hdo. simpl.
  destruct (StatusCode resp =? 201) eqn:E; [apply Z.eqb_eq in E; done | done].
Qed.

(** X8: [putManifest] returns no error exactly when the region is known,
    the URL (the object's, with [?multipart-manifest=put]) is accepted
    and [client.Do] answers the PUT of the sorted items with status 201
    and no error. *)
Theorem putManifest_succeeds_iff items submitted :
  putManifest url_ok sort_Sort cf client_Do dc bucket filename items
    = Ret (submitted, None) <->
  dcs_lookup cf dc <> "" /\
  url_ok (object_url (dcs_lookup cf dc) bucket filename +:+ "?multipart-manifest=put") = true /\
  submitted = Some (sort_Sort items) /\
  exists resp,
    client_Do (manifest_request cf dc bucket filename (sort_Sort items)) = (Some resp, None) /\
    StatusCode resp = 201.
Proof.
  unfold putManifest, manifest_request. split.
  - intros H. case_decide as Hdc; [discriminate H |]. split; [done |].
    unfold NewRequest in H.
    destruct (url_ok _) eqn:Hurl; simpl in H; [| discriminate H]. split; [done |].
    unfold Header_Add in H. simpl in H.
    destruct (client_Do _) as [[resp |] err] eqn:Hdo; simpl in H; [| discriminate H].
    destruct (StatusCode resp =? 201) eqn:Hst; simpl in H; [| discriminate H].
    apply Z.eqb_eq in Hst. simplify_eq. split; [done |]. by exists resp.
  - intros (Hdc & Hurl & -> & resp & Hdo & Hst).
    case_decide; [done |]. unfold NewRequest. rewrite Hurl. simpl.
    unfold Header_Add. simpl. rewrite Hdo. simpl.
    rewrite Hst. done.
Qed.

End ObjectOperations.

(** ** The sort interface of [manifestList] *)

Lemma index_Ret {A} (slice : list A) i a :
  index slice i = Ret a <->
  0 <= i < Z.of_nat (length slice) /\ slice !! Z.to_nat i = Some a.
Proof.
  unfold index. destruct (0 <=? i) eqn:H0; destruct (i <? Z.of_nat (length slice)) eqn:H1;
    simpl; try (split; [discriminate | lia]).
  apply Z.leb_le in H0. apply Z.ltb_lt in H1.
  destruct (slice !! Z.to_nat i) eqn:E; split; try naive_solver.
Qed.

Lemma index_in_range {A} (slice : list A) i :
  0 <= i < Z.of_nat (length slice) -> exists a, index slice i = Ret a.
Proof.
  intros Hi. destruct (lookup_lt_is_Some_2 slice (Z.to_nat i)) as [a Ha]; [lia |].
  exists a. by apply index_Ret.
Qed.

Lemma index_returns {A} (slice : list A) i :
  returns (index slice i) <-> 0 <= i < Z.of_nat (length slice).
Proof.
  split.
  - intros [a Ha]. by apply index_Ret in Ha as [? _].
  - intros Hi. destruct (index_in_range slice i Hi) as [a Ha]. by exists a.
Qed.

Lemma insert_Permutation {A} (l : list A) i x y :
  l !! i = Some x -> <[i := y]> l ≡ₚ y :: delete i l.
Proof.
  intros Hx. assert (Hy : <[i := y]> l !! i = Some y).
  { apply list_lookup_insert_eq. by eapply lookup_lt_Some. }
  rewrite (delete_Permutation _ _ _ Hy). f_equiv.
  rewrite !delete_take_drop. by rewrite take_insert_ge, drop_insert_lt by lia.
Qed.

(** X9: on indices within the slice [Swap] exchanges the two elements
    and leaves every other position alone: the result is a permutation
    of the slice, of the same length, and swapping again restores it. *)
Theorem Swap_exchanges (slice : manifestList) i j :
  0 <= i < Len slice -> 0 <= j < Len slice ->
  exists swapped,
    Swap slice i j = Ret swapped /\
    swapped ≡ₚ slice /\ Len swapped = Len slice /\
    swapped !! Z.to_nat i = slice !! Z.to_nat j /\
    swapped !! Z.to_nat j = slice !! Z.to_nat i /\
    (forall k, k <> Z.to_nat i -> k <> Z.to_nat j -> swapped !! k = slice !! k) /\
    Swap swapped i j = Ret slice.
Proof.
  unfold Len, Swap, manifestList in *. intros Hi Hj.
  destruct (index_in_range slice i Hi) as [a Ha].
  destruct (index_in_range slice j Hj) as [b Hb].
  pose proof Ha as [_ Ha']%index_Ret. pose proof Hb as [_ Hb']%index_Ret.
  set (n := Z.to_nat i) in *. set (m := Z.to_nat j) in *.
  assert (Hn : (n < length slice)%nat) by lia.
  assert (Hm : (m < length slice)%nat) by lia.
  exists (<[m := a]> (<[n := b]> slice)).
  assert (Hlen : length (<[m := a]> (<[n := b]> slice)) = length slice)
    by by rewrite !length_insert.
  assert (Hat_m : <[m := a]> (<[n := b]> slice) !! m = Some a).
  { apply list_lookup_insert_eq. by rewrite length_insert. }
  assert (Hat_n : <[m := a]> (<[n := b]> slice) !! n = Some b).
  { destruct (decide (m = n)) as [-> | Hne].
    - rewrite Hat_m. congruence.
    - rewrite list_lookup_insert_ne by done. by apply list_lookup_insert_eq. }
  split; [rewrite Hb, Ha; done |].
  split.
  { destruct (decide (n = m)) as [<- | Hne].
    - replace b with a by congruence. by rewrite !list_insert_id by
        (done || (rewrite list_insert_id; done)).
    - assert (Hbn : <[n := b]> slice !! m = Some b)
        by by rewrite list_lookup_insert_ne.
      etrans; [apply (insert_Permutation _ m b a Hbn) |].
      etrans; [| symmetry; apply (delete_Permutation slice n a Ha')].
      f_equiv. apply (inj (cons b)).
      etrans; [symmetry; apply (delete_Permutation _ m b Hbn) |].
      by apply insert_Permutation with a. }
  split; [by rewrite Hlen |].
  split; [by rewrite Hat_n, Hb' |].
  split; [by rewrite Hat_m, Ha' |].
  split; [intros k Hkn Hkm; by rewrite !list_lookup_insert_ne by done |].
  assert (Hib : index (<[m := a]> (<[n := b]> slice)) j = Ret a).
  { apply index_Ret. rewrite Hlen. split; [lia | done]. }
  assert (Hia : index (<[m := a]> (<[n := b]> slice)) i = Ret b).
  { apply index_Ret. rewrite Hlen. split; [lia | done]. }
  rewrite Hib, Hia. simpl. f_equal.
  apply list_eq. intros k.
  destruct (decide (k = m)) as [-> | Hkm].
  - rewrite list_lookup_insert_eq; [done |]. by rewrite !length_insert.
  - rewrite list_lookup_insert_ne by done.
    destruct (decide (k = n)) as [-> | Hkn].
    + rewrite list_lookup_insert_eq; [done |]. by rewrite !length_insert.
    + by rewrite !list_lookup_insert_ne by done.
Qed.

(** X10: [Less] and [Swap] return exactly on indices within the slice
    and panic otherwise; [Less] then compares the paths of the two
    elements, and [Len] counts the elements. *)
Theorem sort_interface_in_range (slice : manifestList) i j :
  (returns (Swap slice i j) <-> 0 <= i < Len slice /\ 0 <= j < Len slice) /\
  (returns (Less_at slice i j) <-> 0 <= i < Len slice /\ 0 <= j < Len slice) /\
  (forall a b, slice !! Z.to_nat i = Some a -> slice !! Z.to_nat j = Some b ->
     0 <= i -> 0 <= j -> Less_at slice i j = Ret (String.ltb (Path a) (Path b))) /\
  Len slice = Z.of_nat (length slice).
Proof.
  unfold Len, Swap, Less_at.
  split; [split |]; [| | split; [split |]; [| | split; [| done]]].
  - intros [l Hl]. destruct (index slice j) eqn:Hj; [| discriminate Hl].
    destruct (index slice i) eqn:Hi; [| discriminate Hl].
    apply index_Ret in Hi as [? _]. by apply index_Ret in Hj as [? _].
  - intros [Hi Hj].
    destruct (index_in_range slice i Hi) as [a ->].
    destruct (index_in_range slice j Hj) as [b ->]. by eexists.
  - intros [l Hl]. destruct (index slice i) eqn:Hi; [| discriminate Hl].
    destruct (index slice j) eqn:Hj; [| discriminate Hl].
    apply index_Ret in Hi as [? _]. by apply index_Ret in Hj as [? _].
  - intros [Hi Hj].
    destruct (index_in_range slice i Hi) as [a ->].
    destruct (index_in_range slice j Hj) as [b ->]. by eexists.
  - intros a b Ha Hb Hi Hj.
    assert (Hia : index slice i = Ret a).
    { apply index_Ret. split; [| done]. apply lookup_lt_Some in Ha. lia. }
    assert (Hjb : index slice j = Ret b).
    { apply index_Ret. split; [| done]. apply lookup_lt_Some in Hb. lia. }
    by rewrite Hia, Hjb.
Qed.

Lemma Less_lt a b : Less a b = true <-> String.le (Path a) (Path b) /\ Path a <> Path b.
Proof.
  split.
  - intros H. assert (Hba : Less b a = false).
    { unfold Less, String.ltb in *. rewrite String.compare_antisym.
      by destruct (String.compare (Path a) (Path b)). }
    split; [by apply Less_false_le |].
    intros Heq. unfold Less in H, Hba. rewrite Heq in H. congruence.
  - intros [Hle Hne]. by apply le_ne_Less.
Qed.

(** X11: the order [Less] sorts by is a strict total order on paths:
    irreflexive, asymmetric, transitive, and two items neither of which
    is less than the other have the same path. *)
Theorem Less_strict_total_order :
  (forall a, Less a a = false) /\
  (forall a b, Less a b = true -> Less b a = false) /\
  (forall a b c, Less a b = true -> Less b c = true -> Less a c = true) /\
  (forall a b, Less a b = false -> Less b a = false -> Path a = Path b).
Proof.
  repeat split.
  - intros a. destruct (Less a a) eqn:H; [| done]. by apply Less_lt in H as [_ H].
  - intros a b [Hab Hne]%Less_lt. destruct (Less b a) eqn:H; [| done].
    apply Less_lt in H as [Hba _]. destruct Hne. by apply (anti_symm String.le).
  - intros a b c [Hab Hne]%Less_lt [Hbc Hne']%Less_lt. apply Less_lt.
    split; [by etrans |]. intros Heq. rewrite Heq in Hab.
    destruct Hne'. by apply (anti_symm String.le).
  - intros a b Hab%Less_false_le Hba%Less_false_le. by apply (anti_symm String.le).
Qed.

(** ** The identity service *)

Lemma load_endpoints_snoc endpoints ep dcs :
  load_endpoints (endpoints ++ [ep]) dcs
  = <[Region ep := PublicURL ep]> (load_endpoints endpoints dcs).
Proof. unfold load_endpoints. by rewrite foldl_app. Qed.

Lemma load_endpoints_other endpoints dcs dc :
  (forall ep, ep ∈ endpoints -> Region ep <> dc) ->
  load_endpoints endpoints dcs !! dc = dcs !! dc.
Proof.
  induction endpoints as [| ep endpoints IH] using rev_ind; intros H; [done |].
  rewrite load_endpoints_snoc, lookup_insert_ne.
  - apply IH. intros ep' Hin. apply H. set_solver.
  - apply H. set_solver.
Qed.

Lemma load_endpoints_last pre ep post dcs :
  (forall ep', ep' ∈ post -> Region ep' <> Region ep) ->
  load_endpoints (pre ++ ep :: post) dcs !! Region ep = Some (PublicURL ep).
Proof.
  intros H.
  assert (Happ : load_endpoints (pre ++ ep :: post) dcs
                 = load_endpoints post (<[Region ep := PublicURL ep]> (load_endpoints pre dcs))).
  { unfold load_endpoints. by rewrite foldl_app. }
  rewrite Happ, load_endpoints_other by done. apply lookup_insert_eq.
Qed.

Lemma load_endpoints_known endpoints dcs dc :
  is_Some (load_endpoints endpoints dcs !! dc) <->
  is_Some (dcs !! dc) \/ exists ep, ep ∈ endpoints /\ Region ep = dc.
Proof.
  induction endpoints as [| ep endpoints IH] using rev_ind.
  - simpl. set_solver.
  - rewrite load_endpoints_snoc.
    destruct (decide (Region ep = dc)) as [<- | Hne].
    + rewrite lookup_insert_eq. split; [| by eauto]. intros _. right. exists ep. set_solver.
    + rewrite lookup_insert_ne by done. rewrite IH. set_solver.
Qed.

Lemma load_catalog_none catalog dcs :
  Forall (fun entry => Name entry <> "cloudFiles") catalog -> load_catalog catalog dcs = dcs.
Proof.
  induction 1 as [| entry catalog Hne _ IH]; [done |]. simpl. by case_decide.
Qed.

Lemma load_catalog_first before entry after dcs :
  Forall (fun entry => Name entry <> "cloudFiles") before ->
  Name entry = "cloudFiles" ->
  load_catalog (before ++ entry :: after) dcs = load_endpoints (Endpoints entry) dcs.
Proof.
  induction 1 as [| entry' before Hne _ IH]; intros Hname; simpl.
  - by case_decide.
  - case_decide; [done | by apply IH].
Qed.

Lemma load_catalog_cases catalog dcs :
  load_catalog catalog dcs = dcs \/
  exists entry, entry ∈ catalog /\ load_catalog catalog dcs = load_endpoints (Endpoints entry) dcs.
Proof.
  induction catalog as [| entry catalog IH]; [by left |]. simpl.
  case_decide.
  - right. exists entry. set_solver.
  - destruct IH as [-> | (entry' & Hin & ->)]; [by left |].
    right. exists entry'. set_solver.
Qed.

Section AuthorizeFacts.

Variable url_ok : string -> bool.
Variable url_error : string -> error.
Variable json_Marshal : raxKeyCreds -> list byte * option error.
Variable json_Decode : response -> accessWrapper * option error.

Local Abbreviation Authorize := (Authorize url_ok url_error json_Marshal json_Decode).

Lemma Authorize_cases cf client_Do cf' err :
  Authorize cf client_Do = Ret (cf', err) ->
  (cf' = cf /\ err <> None) \/
  (err = None /\
   exists payLoad resp respData,
     json_Marshal {| Credentials := {| UserName := userName cf; ApiKey := apiKey cf |} |}
       = (payLoad, None) /\
     url_ok identity_url = true /\
     client_Do (auth_request payLoad) = (Some resp, None) /\
     StatusCode resp = 200 /\
     json_Decode resp = (respData, None) /\
     cf' = {| userName := userName cf; apiEndpoint := apiEndpoint cf;
              tenantId := tenant_Id (Tenant (Token (Access respData)));
              authToken := token_Id (Token (Access respData));
              apiKey := apiKey cf;
              dcs := load_catalog (Catalog (Access respData)) (dcs cf) |}).
Proof.
  unfold Authorize, auth_request. intros H.
  destruct (json_Marshal _) as [payLoad [e |]] eqn:Hm; [simplify_eq; by left |].
  unfold NewRequest in H.
  destruct (url_ok identity_url) eqn:Hurl; [| simplify_eq; by left].
  unfold Header_Add in H. simpl in H.
  destruct (client_Do _) as [resp [e |]] eqn:Hdo; [simplify_eq; by left |].
  destruct resp as [resp |]; simpl in H; [| discriminate H].
  destruct (StatusCode resp =? 200) eqn:Hst; simpl in H.
  - apply Z.eqb_eq in Hst.
    destruct (json_Decode resp) as [respData [e |]] eqn:Hd; [simplify_eq; by left |].
    simplify_eq. right. split; [done |]. by eexists payLoad, resp, respData.
  - destruct (BodyErr resp); simplify_eq; by left.
Qed.

(** X12: a call of [Authorize] that returns an error leaves the client
    as it was: token, tenant and regions are only set once the answer
    has been decoded. *)
Theorem Authorize_failure_keeps_client cf client_Do cf' e :
  Authorize cf client_Do = Ret (cf', Some e) -> cf' = cf.
Proof. intros [[-> _] | [Hc _]]%Authorize_cases; [done | discriminate Hc]. Qed.

(** X13: [Authorize] never changes the credentials and never forgets a
    region: every region the client had an endpoint for still has one
    afterwards. *)
Theorem Authorize_keeps_regions cf client_Do cf' err :
  Authorize cf client_Do = Ret (cf', err) ->
  userName cf' = userName cf /\ apiKey cf' = apiKey cf /\
  forall dc, is_Some (dcs cf !! dc) -> is_Some (dcs cf' !! dc).
Proof.
  intros [[-> _] | (_ & payLoad & resp & respData & _ & _ & _ & _ & _ & ->)]%Authorize_cases;
    [done |].
  simpl. repeat split. intros dc Hdc.
  destruct (load_catalog_cases (Catalog (Access respData)) (dcs cf))
    as [-> | (entry & _ & ->)]; [done |].
  apply load_endpoints_known. by left.
Qed.

(** X14: a call of [Authorize] that returns no error got status 200 for
    its POST of the credentials and decoded the answer; the client then
    holds the token and tenant of the answer, and its regions are
    updated from the first catalog entry named [cloudFiles] only: a
    region of that entry maps to the [PublicURL] of the last endpoint
    listed for it, every other region is as before, and without such an
    entry no region changes. *)
Theorem Authorize_loads_first_cloudFiles cf client_Do cf' :
  Authorize cf client_Do = Ret (cf', None) ->
  exists payLoad resp respData,
    json_Marshal {| Credentials := {| UserName := userName cf; ApiKey := apiKey cf |} |}
      = (payLoad, None) /\
    client_Do (auth_request payLoad) = (Some resp, None) /\
    StatusCode resp = 200 /\
    json_Decode resp = (respData, None) /\
    authToken cf' = token_Id (Token (Access respData)) /\
    tenantId cf' = tenant_Id (Tenant (Token (Access respData))) /\
    (Forall (fun entry => Name entry <> "cloudFiles") (Catalog (Access respData)) ->
     dcs cf' = dcs cf) /\
    (forall before entry after,
       Catalog (Access respData) = before ++ entry :: after ->
       Forall (fun entry => Name entry <> "cloudFiles") before ->
       Name entry = "cloudFiles" ->
       (forall dc, (forall ep, ep ∈ Endpoints entry -> Region ep <> dc) ->
          dcs cf' !! dc = dcs cf !! dc) /\
       (forall pre ep post,
          Endpoints entry = pre ++ ep :: post ->
          (forall ep', ep' ∈ post -> Region ep' <> Region ep) ->
          dcs cf' !! Region ep = Some (PublicURL ep))).
Proof.
  intros [[_ Hc] | (_ & payLoad & resp & respData & Hm & _ & Hdo & Hst & Hd & ->)]%Authorize_cases;
    [done |].
  exists payLoad, resp, respData. simpl. repeat split; try done.
  - apply load_catalog_none.
  - intros dc Hdc. rewrite H. rewrite load_catalog_first by done.
    by apply load_endpoints_other.
  - intros pre ep post Heps Hpost. rewrite H. rewrite load_catalog_first by done.
    rewrite Heps. by apply load_endpoints_last.
Qed.

(** X15: a client fresh from [NewCloudFiles] knows no region: each of
    the four operations refuses every region until [Authorize] has
    succeeded; and after its first successful [Authorize] the regions it
    knows are exactly those of the endpoints of the first catalog entry
    named [cloudFiles]. *)
Theorem new_client_knows_no_region userName apiKey :
  (forall dc, dcs_lookup (NewCloudFiles userName apiKey) dc = "") /\
  (forall md5_hex sort_Sort client_Do dc bucket filename,
     GetFileSize url_ok (NewCloudFiles userName apiKey) client_Do dc bucket filename
       = Ret (0, "", Some (no_region dc)) /\
     (forall offset length,
        GetChunk md5_hex url_ok (NewCloudFiles userName apiKey) client_Do dc bucket filename
                 offset length
          = Ret ([], (0, "", Some (no_region dc)))) /\
     (forall data,
        PutFile url_ok (NewCloudFiles userName apiKey) client_Do dc bucket filename data
          = Ret ("", Some (no_region dc))) /\
     (forall items,
        putManifest url_ok sort_Sort (NewCloudFiles userName apiKey) client_Do
                    dc bucket filename items
          = Ret (None, Some (no_region dc)))) /\
  (forall client_Do cf',
     Authorize (NewCloudFiles userName apiKey) client_Do = Ret (cf', None) ->
     exists resp respData,
       client_Do (auth_request
                    (json_Marshal
                       {| Credentials := {| UserName := userName; ApiKey := apiKey |} |}).1)
         = (Some resp, None) /\
       json_Decode resp = (respData, None) /\
       forall before entry after,
         Catalog (Access respData) = before ++ entry :: after ->
         Forall (fun entry => Name entry <> "cloudFiles") before ->
         Name entry = "cloudFiles" ->
         forall dc, is_Some (dcs cf' !! dc) <->
                    exists ep, ep ∈ Endpoints entry /\ Region ep = dc).
Proof.
  split; [done |]. split.
  - intros. unfold GetFileSize, GetChunk, PutFile, putManifest.
    by repeat split; intros; case_decide.
  - intros client_Do cf'
      [[_ Hc] | (_ & payLoad & resp & respData & Hm & _ & Hdo & Hst & Hd & ->)]%Authorize_cases;
      [done |].
    simpl in Hm. exists resp, respData. rewrite Hm. simpl. repeat split; try done.
    + rewrite H, load_catalog_first by done.
      intros [Hin | Hex]%load_endpoints_known; [| done].
      rewrite lookup_empty in Hin. by destruct Hin.
    + intros Hex. rewrite H, load_catalog_first by done.
      apply load_endpoints_known. by right.
Qed.

End AuthorizeFacts.

(** ** More on the chunk plan *)

(** X16: for a positive size the number of chunks is the ceiling of
    [S / chunkSize], the remainder is [S mod chunkSize], and the offset
    of every chunk of the plan is [i * chunkSize], computed without
    wrap-around and inside the object. *)
Theorem chunk_count_is_ceiling S cs :
  0 < S <= Int64.max_int -> 0 < cs <= Int64.max_int ->
  plan_chunkCount S cs = (S + cs - 1) / cs /\
  plan_remainder S cs = S mod cs /\
  forall i, 0 <= i < plan_chunkCount S cs ->
    chunk_offset cs i = i * cs /\ 0 <= i * cs < S.
Proof.
  intros HS Hcs. split; [by apply plan_chunkCount_ceil |].
  split; [by apply plan_remainder_mod |].
  intros i Hi. split; [by apply (chunk_offset_exact S) |].
  rewrite plan_chunkCount_ceil in Hi by done.
  pose proof (Z.mul_div_le (S + cs - 1) cs). nia.
Qed.

(** X17: when the size is positive and not a multiple of the chunk
    size, the ranges the goroutines ask for, taken by chunk index, tile
    the object: each is non-empty, each starts where the one before
    ended, the first starts at 0 and the last ends at [S]. *)
Theorem inexact_plan_tiles S cs :
  0 < S <= Int64.max_int -> 0 < cs <= Int64.max_int -> 0 < S mod cs ->
  tiles 0 (chunk_specs S cs) S = true.
Proof. intros HS Hcs Hr. by apply plan_tiles_inexact. Qed.

(** ** More on the goroutine of a chunk *)

Lemma released_shape acts :
  well_formed false acts = true ->
  exists post, acts = post ++ [SemRelease] /\ Forall is_Do post.
Proof.
  induction acts as [| a rest IH]; simpl; [discriminate |].
  destruct a as [e | e | m | | msg]; simpl; try discriminate.
  - intros (post & -> & Hpost)%IH. exists (Do e :: post). split; [done |].
    by constructor.
  - intros ->%bool_decide_eq_true. by exists [].
Qed.

Lemma well_formed_sends_once acts : well_formed true acts = true -> sends_once acts.
Proof.
  induction acts as [| a rest IH]; simpl; [discriminate |].
  destruct a as [e | e | m | | msg]; simpl; try discriminate.
  - intros [(pre & o & post & -> & Hpre & Hpost) | (pre & msg & -> & Hpre)]%IH.
    + left. exists (Do e :: pre), o, post. split; [done |]. split; [by constructor | done].
    + right. exists (Do e :: pre), msg. split; [done | by constructor].
  - intros (post & -> & Hpost)%released_shape.
    left. by exists [], (GotError e), post.
  - intros (post & -> & Hpost)%released_shape.
    left. by exists [], (GotManifest m), post.
  - intros ->%bool_decide_eq_true. right. by exists [], msg.
Qed.

Section WorkerFacts.

Variable md5_hex : list byte -> string.
Variable url_ok : string -> bool.
Variable cf : CloudFiles.
Variable env : environment.
Variables sourceDC sourceBucket sourceFile destDC destBucket destFile : string.

Local Abbreviation worker :=
  (worker md5_hex url_ok cf env sourceDC sourceBucket sourceFile destDC destBucket destFile).
Local Abbreviation chunk_download :=
  (chunk_download md5_hex url_ok cf env sourceDC sourceBucket sourceFile).
Local Abbreviation part_stat := (part_stat url_ok cf env destDC destBucket destFile).
Local Abbreviation part_upload := (part_upload url_ok cf env destDC destBucket destFile).
Local Abbreviation call_ok :=
  (call_ok md5_hex url_ok cf env sourceDC sourceBucket sourceFile destDC destBucket destFile).



(** X20: a manifest item is only sent for a chunk that was downloaded
    without error and whose part is at the destination with the same
    hash: the item is named after the chunk, carries the size and hash
    of the download, and either the stat of the part returned that hash
    without error or the upload of the downloaded bytes did. *)
Theorem manifest_item_is_verified k m :
  sends (worker k) = Some (GotManifest m) ->
  Path m = part_path destBucket destFile k /\
  exists name written,
    TempFile env k = (Some name, None) /\
    chunk_download k = Ret (written, (Size m, ETag m, None)) /\
    ((exists length, part_stat k = Ret (length, ETag m, None)) \/
     part_upload k written = Ret (ETag m, None)).
Proof.
  unfold chunk_download, part_stat, part_upload, part_path, worker.
  intros H.
  destruct (TempFile env k) as [[name |] [e |]] eqn:Htmp; simpl in H; try discriminate H.
  destruct (GetChunk _ _ _ _ _ _ _ _ _) as [[written [[bytesRead etag] [e |]]] | msg]
    eqn:Hget; simpl in H; try discriminate H.
  destruct (GetFileSize _ _ _ _ _ _) as [[[sz etagUp] err] | msg] eqn:Hstat;
    simpl in H; try discriminate H.
  destruct (bool_decide (err = None) && bool_decide (etagUp = etag)) eqn:Hb.
  - apply andb_prop in Hb as [->%bool_decide_eq_true ->%bool_decide_eq_true].
    case_decide; [done |]. simpl in H. simplify_eq. simpl.
    split; [done |]. exists name, written. eauto.
  - simpl in H.
    destruct (PutFile _ _ _ _ _ _ _) as [[etagUp' [e |]] | msg] eqn:Hput;
      simpl in H; try discriminate H.
    case_decide as Hne; simpl in H; [discriminate H |].
    destruct (decide (etagUp' = etag)) as [-> | Hne']; [| done].
    simplify_eq. simpl. split; [done |]. exists name, written. eauto.
Qed.

Lemma worker_calls k e : Do e ∈ worker k -> call_ok k e.
Proof.
  unfold call_ok, chunk_download, part_stat, worker.
  intros H.
  destruct (TempFile env k) as [[name |] err0] eqn:Htmp.
  2: { set_unfold. naive_solver. }
  destruct err0 as [e0 |]; [set_unfold; naive_solver |].
  destruct (GetChunk _ _ _ _ _ _ _ _ _) as [[written [[bytesRead etag] [e1 |]]] | msg]
    eqn:Hget.
  1, 3: set_unfold; naive_solver.
  destruct (GetFileSize _ _ _ _ _ _) as [[[sz etagUp] err] | msg] eqn:Hstat.
  2: { set_unfold. naive_solver. }
  destruct (bool_decide (err = None) && bool_decide (etagUp = etag)) eqn:Hb.
  { case_decide; set_unfold; naive_solver. }
  assert (Hno : ~ (exists length, Ret (sz, etagUp, err) = Ret (length, etag, None))).
  { intros [length Heq]. simplify_eq. by rewrite !bool_decide_eq_true_2 in Hb. }
  assert (Hput : call_ok k (PutFileCall destDC destBucket (destFileName destFile k) written)).
  { unfold call_ok, chunk_download, part_stat.
    rewrite Hget, Hstat. repeat split; try done. by exists bytesRead, etag. }
  unfold call_ok, chunk_download, part_stat in Hput.
  rewrite Hget, Hstat in Hput.
  destruct (PutFile _ _ _ _ _ _ _) as [[etagUp' [e2 |]] | msg] eqn:Hp.
  2: case_decide.
  all: apply elem_of_cons in H as [H | H]; [simplify_eq; done |].
  all: apply elem_of_cons in H as [H | H]; [simplify_eq; done |].
  all: apply elem_of_cons in H as [H | H]; [simplify_eq; eauto |].
  all: apply elem_of_cons in H as [H | H]; [simplify_eq; eauto |].
  all: apply elem_of_cons in H as [H | H]; [simplify_eq; done |].
  all: apply elem_of_cons in H as [H | H]; [simplify_eq; exact Hput |].
  all: set_unfold; naive_solver.
Qed.

Lemma worker_length k : (length (worker k) <= 9)%nat.
Proof. unfold worker. repeat case_match; simpl; lia. Qed.

End WorkerFacts.

(** ** More on every run of [CopyFile] *)

Lemma sum_list_with_bound {A} (f : A -> nat) (c : nat) (l : list A) :
  (forall x, f x <= c)%nat -> (sum_list_with f l <= c * length l)%nat.
Proof.
  intros Hf. induction l as [| x l IH]; simpl; [lia |]. specialize (Hf x). lia.
Qed.

Lemma paths_of_omap {A} (f : A -> option manifestItem) (path : A -> string) (l : list A) :
  (forall x, x ∈ l -> exists m, f x = Some m /\ Path m = path x) ->
  Path <$> omap f l = path <$> l.
Proof.
  induction l as [| x l IH]; intros H; simpl; [done |].
  destruct (H x) as (m & -> & Hm); [by left |]. simpl. rewrite Hm. f_equal.
  apply IH. intros y Hy. apply H. by right.
Qed.

Section SystemFacts.

Variable md5_hex : list byte -> string.
Variable url_ok : string -> bool.
Variable sort_Sort : manifestList -> manifestList.
Variable cf : CloudFiles.
Variable env : environment.
Variables sourceDC sourceBucket sourceFile destDC destBucket destFile : string.

Local Abbreviation worker :=
  (worker md5_hex url_ok cf env sourceDC sourceBucket sourceFile destDC destBucket destFile).
Local Abbreviation size := (size url_ok cf env sourceDC sourceBucket sourceFile).
Local Abbreviation chunkCount := (chunkCount url_ok cf env sourceDC sourceBucket sourceFile).
Local Abbreviation source_stat := (source_stat url_ok cf env sourceDC sourceBucket sourceFile).
Local Abbreviation source_ok := (source_ok url_ok cf env sourceDC sourceBucket sourceFile).
Local Abbreviation chunk_outcome :=
  (chunk_outcome md5_hex url_ok cf env sourceDC sourceBucket sourceFile destDC destBucket destFile).
Local Abbreviation all_chunks_succeed :=
  (all_chunks_succeed md5_hex url_ok cf env sourceDC sourceBucket sourceFile
                      destDC destBucket destFile).
Local Abbreviation chunk_items :=
  (chunk_items md5_hex url_ok cf env sourceDC sourceBucket sourceFile destDC destBucket destFile).
Local Abbreviation Inv :=
  (Inv md5_hex url_ok sort_Sort cf env sourceDC sourceBucket sourceFile
       destDC destBucket destFile).
Local Abbreviation main_step :=
  (main_step md5_hex url_ok sort_Sort cf env sourceDC sourceBucket sourceFile
             destDC destBucket destFile).
Local Abbreviation finish := (finish url_ok sort_Sort cf env destDC destBucket destFile).
Local Abbreviation spawn :=
  (spawn md5_hex url_ok cf env sourceDC sourceBucket sourceFile destDC destBucket destFile).
Local Abbreviation exec :=
  (exec md5_hex url_ok sort_Sort cf env sourceDC sourceBucket sourceFile
        destDC destBucket destFile).
Local Abbreviation step :=
  (step md5_hex url_ok sort_Sort cf env sourceDC sourceBucket sourceFile
        destDC destBucket destFile).
Local Abbreviation work_left :=
  (work_left md5_hex url_ok cf env sourceDC sourceBucket sourceFile destDC destBucket destFile).
Local Abbreviation initial := (initial url_ok cf env sourceDC sourceBucket sourceFile).
Local Abbreviation reachable :=
  (reachable md5_hex url_ok sort_Sort cf env sourceDC sourceBucket sourceFile
             destDC destBucket destFile).
Local Abbreviation chunk_download :=
  (chunk_download md5_hex url_ok cf env sourceDC sourceBucket sourceFile).
Local Abbreviation call_ok :=
  (call_ok md5_hex url_ok cf env sourceDC sourceBucket sourceFile destDC destBucket destFile).
Local Abbreviation temp_settled := (temp_settled env).
Local Abbreviation panic_free :=
  (panic_free md5_hex url_ok sort_Sort cf env sourceDC sourceBucket sourceFile
              destDC destBucket destFile).
Local Abbreviation part_path := (part_path destBucket destFile).

(** *** What a step changes *)

Lemma goroutine_step_frame n s s' :
  goroutine_step n s = Some s' ->
  crashed (pc s) = false /\
  exists k a rest l1 l2,
    goroutines s = l1 ++ (k, a :: rest) :: l2 /\
    goroutines s' = l1 ++ match rest with [] => [] | _ => [(k, rest)] end ++ l2 /\
    dispatched s' = dispatched s /\
    log s' = log s ++ match a with Do e => [e] | _ => [] end /\
    (pc s' = pc s \/ exists msg, a = Crash msg /\ pc s' = Crashed msg).
Proof.
  unfold goroutine_step. intros Hstep.
  destruct (crashed (pc s)); [discriminate Hstep |]. split; [done |].
  destruct (goroutines s !! n) as [[k [| a rest]] |] eqn:Hn; try discriminate Hstep.
  destruct (advance_split n k a rest _ Hn) as (l1 & l2 & Hgs & Hadv).
  rewrite Hadv in Hstep. clear Hadv.
  exists k, a, rest, l1, l2. split; [done |].
  destruct a as [e | e | m | | msg].
  - injection Hstep as <-. simpl. repeat split; auto.
  - case_decide; [| discriminate Hstep]. injection Hstep as <-. simpl.
    rewrite app_nil_r. repeat split; auto.
  - case_decide; [| discriminate Hstep]. injection Hstep as <-. simpl.
    rewrite app_nil_r. repeat split; auto.
  - destruct (sem s); [discriminate Hstep |]. injection Hstep as <-. simpl.
    rewrite app_nil_r. repeat split; auto.
  - injection Hstep as <-. simpl. rewrite app_nil_r. repeat split; eauto.
Qed.

Lemma select_frame c text after_error next s s' :
  select c text after_error next s = Some s' ->
  goroutines s' = goroutines s /\ dispatched s' = dispatched s /\
  (exists l, log s' = log s ++ l) /\ (pc s' = after_error \/ pc s' = next).
Proof.
  unfold select. intros H. destruct c.
  - destruct (errorChan s); [discriminate H |]. injection H as <-. simpl.
    split; [done |]. split; [done |]. split; [by eexists | auto].
  - destruct (manifestChan s); [discriminate H |]. injection H as <-. simpl.
    split; [done |]. split; [done |]. split; [| auto].
    exists []. by rewrite app_nil_r.
  - destruct (errorChan s), (manifestChan s); try discriminate H.
    injection H as <-. simpl.
    split; [done |]. split; [done |]. split; [| auto].
    exists []. by rewrite app_nil_r.
Qed.

Lemma finish_frame s :
  goroutines (finish s) = goroutines s /\ dispatched (finish s) = dispatched s /\
  exists l, log (finish s) = log s ++ l.
Proof.
  unfold finish. destruct (processError s).
  { simpl. split; [done |]. split; [done |]. exists []. by rewrite app_nil_r. }
  destruct (putManifest _ _ _ _ _ _ _ _) as [[[submitted |] err] | msg]; simpl;
    (split; [done |]); (split; [done |]); rewrite <- ?app_assoc; by eexists.
Qed.

Lemma main_step_frame c s s' :
  main_step c s = Some s' ->
  (exists k, pc s = LoopHead k /\ k < chunkCount /\ s' = spawn k s) \/
  (goroutines s' = goroutines s /\ dispatched s' = dispatched s /\
   exists l, log s' = log s ++ l).
Proof.
  unfold main_step. intros Hstep.
  assert (Hsame : forall p, let s1 := with_pc p s in
            goroutines s1 = goroutines s /\ dispatched s1 = dispatched s /\
            exists l, log s1 = log s ++ l).
  { intros p. simpl. split; [done |]. split; [done |]. exists []. by rewrite app_nil_r. }
  destruct (pc s) as [k | k | i | i | | r | msg] eqn:Hpc; try discriminate Hstep.
  - destruct (k <? chunkCount) eqn:Hk.
    + apply Z.ltb_lt in Hk. case_decide; [| discriminate Hstep]. injection Hstep as <-.
      left. by exists k.
    + injection Hstep as <-. right. apply Hsame.
  - right. apply select_frame in Hstep. tauto.
  - right. case_decide.
    + case_decide; [| discriminate Hstep]. injection Hstep as <-. simpl.
      split; [done |]. split; [done |]. exists []. by rewrite app_nil_r.
    + injection Hstep as <-. apply Hsame.
  - right. apply select_frame in Hstep. tauto.
  - right. injection Hstep as <-. apply finish_frame.
Qed.

Lemma reachable_step s s' : reachable s -> step s s' -> reachable s'.
Proof. intros Hs Hstep. by eapply rtc_r. Qed.

(** *** Deadlock freedom and the length of runs *)


Lemma initial_work : (work_left initial <= 11 * Z.to_nat chunkCount + 13)%nat.
Proof.
  unfold work_left, initial.
  assert (Hloop : (main_left md5_hex url_ok cf env sourceDC sourceBucket sourceFile
                     destDC destBucket destFile (LoopHead 0)
                   <= 11 * Z.to_nat chunkCount + 13)%nat).
  { simpl. unfold actions_from.
    pose proof (sum_list_with_bound (fun j => length (worker j)) 9
                  (seqZ 0 (chunkCount - 0))
                  (worker_length md5_hex url_ok cf env sourceDC sourceBucket sourceFile
                                 destDC destBucket destFile)) as Hsum.
    rewrite length_seqZ in Hsum. lia. }
  destruct source_stat as [[[sz etag] [e |]] | msg]; simpl; try lia.
  destruct (chunkCount <? 0); simpl in *; lia.
Qed.

(** X22: every run of a copy is finite, whatever the schedule: no run
    from the start of [CopyFile] takes more than [11 * chunkCount + 13]
    steps of the calling goroutine and the chunk goroutines together. *)
Theorem runs_are_bounded n s :
  nsteps step n initial s -> (n <= 11 * Z.to_nat chunkCount + 13)%nat.
Proof.
  intros Hn.
  pose proof (run_bounded _ _ _ _ _ _ _ _ _ _ _ n initial s
                (initial_Inv _ _ _ _ _ _ _ _ _ _ _) Hn) as Hb.
  pose proof initial_work. lia.
Qed.

(** X23: when the stat of the source returns an error, [CopyFile]
    returns that error at once: it has made the one [GetFileSize] call,
    started no goroutine, and nothing more happens. *)
Theorem stat_failure_returns_at_once length etag e s :
  source_stat = Ret (length, etag, Some e) ->
  reachable s ->
  pc s = Returned (Some e) /\
  log s = [GetFileSizeCall sourceDC sourceBucket sourceFile] /\
  dispatched s = 0%nat /\ goroutines s = [].
Proof.
  intros Hstat Hs.
  assert (Hinit : pc initial = Returned (Some e) /\
                  log initial = [GetFileSizeCall sourceDC sourceBucket sourceFile] /\
                  dispatched initial = 0%nat /\ goroutines initial = []).
  { unfold initial. by rewrite Hstat. }
  apply rtc_inv in Hs as [<- | (s1 & Hstep & _)]; [done |].
  exfalso. destruct Hinit as (Hpc & _ & _ & Hgs).
  destruct Hstep as [[c | n] Hexec]; simpl in Hexec.
  - unfold main_step in Hexec. by rewrite Hpc in Hexec.
  - apply goroutine_step_frame in Hexec as (_ & k & a & rest & l1 & l2 & Hg & _).
    rewrite Hgs in Hg. by destruct l1.
Qed.


(** *** Panics *)

Lemma main_step_no_panic c s s' :
  (forall items,
     returns (putManifest url_ok sort_Sort cf (client_Do env ManifestPut)
                          destDC destBucket destFile items)) ->
  crashed (pc s) = false -> main_step c s = Some s' -> crashed (pc s') = false.
Proof.
  intros Hput Hcr Hstep. unfold main_step in Hstep.
  destruct (pc s) as [k | k | i | i | | r | msg] eqn:Hpc; try discriminate Hstep.
  - destruct (k <? chunkCount).
    + case_decide; [| discriminate Hstep]. by injection Hstep as <-.
    + by injection Hstep as <-.
  - by apply select_frame in Hstep as (_ & _ & _ & [-> | ->]).
  - case_decide.
    + case_decide; [| discriminate Hstep]. by injection Hstep as <-.
    + by injection Hstep as <-.
  - by apply select_frame in Hstep as (_ & _ & _ & [-> | ->]).
  - injection Hstep as <-. unfold finish.
    destruct (processError s); [done |].
    destruct (Hput (manifests (with_log (putManifestCall destDC destBucket destFile
                                            (manifests s)) s))) as [[submitted err] ->].
    by destruct submitted.
Qed.

Lemma step_no_panic s s' :
  panic_free -> Inv s -> crashed (pc s) = false -> step s s' -> crashed (pc s') = false.
Proof.
  intros (_ & _ & Hw & Hput) HI Hcr [[c | n] Hexec]; simpl in Hexec.
  - by eapply main_step_no_panic.
  - apply goroutine_step_frame in Hexec
      as (_ & k & a & rest & l1 & l2 & Hgs & _ & _ & _ & [-> | (msg & -> & _)]); [done |].
    exfalso. destruct HI as (_ & _ & H).
    destruct (pc s) as [k' | k' | i | i | | r | msg'] eqn:Hpc; try discriminate Hcr.
    6: { destruct H as [Hnil _ _ _ _ _ _ _ _]. rewrite Hnil in Hgs. by destruct l1. }
    all: pose proof (started_le _ _ _ _ _ _ _ _ _ _ s
                       ltac:(rewrite Hpc; simpl; tauto) H) as Hle.
    all: destruct H as [_ Hall _ _ _ _ _ _ _ _ _].
    all: rewrite Hgs in Hall; apply Forall_app in Hall as [_ Hall].
    all: apply Forall_cons in Hall as [(Hk & _ & _ & Hdo) _]; cbn [fst snd] in Hk, Hdo.
    all: apply (Hw k msg); [lia | apply Hdo; by left].
Qed.


(** *** What a copy touches *)

Lemma logged_call s e :
  reachable s -> e ∈ log s ->
  is_manifest_write e \/
  e = GetFileSizeCall sourceDC sourceBucket sourceFile \/
  (exists text, e = Printf text) \/
  exists k, 0 <= k < chunkCount /\ call_ok k e.
Proof.
  intros Hs He.
  pose proof (reachable_Inv _ _ _ _ _ _ _ _ _ _ _ s Hs) as (Hlog & _ & _).
  destruct (Hlog e He) as [Hw | [-> | [[text ->] | (k & Hk & Hdo)]]]; eauto.
  right; right; right. exists k. split; [done |]. by apply worker_calls.
Qed.

(** X26: a copy only downloads from the source object and only uploads
    to the parts of the destination.  Every [GetChunk] call reads the
    range of a chunk of the plan from the source; every [PutFile] call
    writes, to the part named after a chunk of the plan, the bytes that
    chunk's download delivered, and only when the stat of the part did
    not already return the download's hash; and every [GetFileSize] call
    is the stat of the source or of such a part. *)
Theorem transfers_stay_in_place s :
  reachable s ->
  (forall dc bucket file offset length,
     GetChunkCall dc bucket file offset length ∈ log s ->
     dc = sourceDC /\ bucket = sourceBucket /\ file = sourceFile /\
     exists k, 0 <= k < chunkCount /\
       offset = chunk_offset chunkSize k /\
       length = chunk_length size chunkSize k) /\
  (forall dc bucket file data,
     PutFileCall dc bucket file data ∈ log s ->
     dc = destDC /\ bucket = destBucket /\
     exists k bytesRead etag, 0 <= k < chunkCount /\
       file = destFileName destFile k /\
       chunk_download k = Ret (data, (bytesRead, etag, None)) /\
       ~ (exists length,
            part_stat url_ok cf env destDC destBucket destFile k
            = Ret (length, etag, None))) /\
  (forall dc bucket file,
     GetFileSizeCall dc bucket file ∈ log s ->
     (dc = sourceDC /\ bucket = sourceBucket /\ file = sourceFile) \/
     (dc = destDC /\ bucket = destBucket /\
      exists k, 0 <= k < chunkCount /\ file = destFileName destFile k)).
Proof.
  intros Hs. split; [| split].
  - intros dc bucket file offset length Hin.
    destruct (logged_call s _ Hs Hin) as [Hw | [Heq | [[text Heq] | (k & Hk & Hc)]]];
      try done.
    destruct Hc as (-> & -> & -> & -> & ->). eauto 10.
  - intros dc bucket file data Hin.
    destruct (logged_call s _ Hs Hin) as [Hw | [Heq | [[text Heq] | (k & Hk & Hc)]]];
      try done.
    destruct Hc as (-> & -> & -> & bytesRead & etag & Hget & Hno).
    repeat split. by exists k, bytesRead, etag.
  - intros dc bucket file Hin.
    destruct (logged_call s _ Hs Hin) as [Hw | [Heq | [[text Heq] | (k & Hk & Hc)]]];
      try done.
    + simplify_eq. by left.
    + destruct Hc as (-> & -> & ->). right. eauto.
Qed.

Lemma all_succeed_paths :
  all_chunks_succeed -> Path <$> chunk_items = part_path <$> seqZ 0 chunkCount.
Proof.
  intros Hall. unfold chunk_items. apply paths_of_omap.
  intros k Hk. apply elem_of_seqZ in Hk. destruct (Hall k ltac:(lia)) as [m Hm].
  exists m. rewrite Hm. split; [done |].
  by apply worker_manifest_path in Hm.
Qed.


(** *** Temporary files *)

Lemma initial_temp_settled : temp_settled initial.
Proof.
  intros k name err Hk. exfalso. unfold initial in Hk.
  destruct source_stat as [[[sz etag] [e |]] | msg]; simpl in Hk; try lia.
  destruct (chunkCount <? 0); simpl in Hk; lia.
Qed.

Lemma step_temp_settled s s' :
  Inv s -> temp_settled s -> step s s' -> temp_settled s'.
Proof.
  intros HI Ht [[c | n] Hexec]; simpl in Hexec.
  - destruct (main_step_frame c s s' Hexec)
      as [(k & Hpc & Hk & ->) | (Hgs & Hd & l & Hlog)].
    + assert (Hcount : Z.of_nat (dispatched s) = k).
      { destruct HI as (_ & _ & H). rewrite Hpc in H.
        destruct H as [_ _ _ _ _ _ Hpcok _ _ _ _].
        unfold pc_ok in Hpcok. rewrite Hpc in Hpcok. lia. }
      intros k' name err Hk' Htmp. simpl in *.
      destruct (decide (k' = k)) as [-> | Hne].
      * right. exists (worker k). split; [set_solver |].
        destruct (worker_removes md5_hex url_ok cf env sourceDC sourceBucket sourceFile
                    destDC destBucket destFile k name err Htmp)
          as (pre & last & -> & _).
        set_solver.
      * destruct (Ht k' name err ltac:(lia) Htmp) as [Hin | (acts & Hin & Hrm)];
          [by left |].
        right. exists acts. set_solver.
    + intros k' name err Hk' Htmp. rewrite Hd in Hk'. rewrite Hgs, Hlog.
      destruct (Ht k' name err Hk' Htmp) as [Hin | (acts & Hin & Hrm)];
        [left; set_solver | right; eauto].
  - apply goroutine_step_frame in Hexec
      as (_ & k & a & rest & l1 & l2 & Hgs & Hgs' & Hd & Hlog & _).
    intros k' name err Hk' Htmp. rewrite Hd in Hk'. rewrite Hgs', Hlog.
    destruct (Ht k' name err Hk' Htmp) as [Hin | (acts & Hin & Hrm)];
      [left; set_solver |].
    rewrite Hgs in Hin.
    apply elem_of_app in Hin as [Hin | Hin]; [right; exists acts; set_solver |].
    apply elem_of_cons in Hin as [Heq | Hin]; [| right; exists acts; set_solver].
    injection Heq as -> ->.
    apply elem_of_cons in Hrm as [<- | Hrm]; [left; set_solver |].
    right. exists rest. split; [| done].
    destruct rest; [by apply elem_of_nil in Hrm | set_solver].
Qed.

Lemma reachable_temp_settled s : reachable s -> temp_settled s.
Proof.
  unfold reachable. revert s.
  apply (rtc_ind_r (fun s => temp_settled s)); [apply initial_temp_settled |].
  intros s1 s2 Hs1 Hstep IH.
  eapply step_temp_settled; [| done | done]. by apply reachable_Inv.
Qed.

(** X28: when [CopyFile] returns, whatever it returns, the temporary
    file of every goroutine it started has been removed. *)
Theorem temp_files_removed_at_return s r k name err :
  reachable s -> pc s = Returned r ->
  0 <= k < Z.of_nat (dispatched s) ->
  TempFile env k = (Some name, err) ->
  Remove name ∈ log s.
Proof.
  intros Hs Hpc Hk Htmp.
  destruct (reachable_temp_settled s Hs k name err Hk Htmp) as [Hin | (acts & Hin & _)];
    [done |].
  destruct (returned_facts _ _ _ _ _ _ _ _ _ _ _ s r Hs Hpc) as [Hnil _ _ _ _ _ _ _ _].
  rewrite Hnil in Hin. by apply elem_of_nil in Hin.
Qed.

End SystemFacts.

(** ** The further properties on sample inputs *)

Lemma unknown_region_is_refused_witness :
  GetFileSize Sample.url_ok Sample.cf Sample.refused "LON" "testing" "file"
    = Ret (0, "", Some (no_region "LON")) /\
  PutFile Sample.url_ok Sample.cf Sample.refused "LON" "testing" "file" Sample.ab
    = Ret ("", Some (no_region "LON")).
Proof.
  destruct (unknown_region_is_refused Sample.md5_hex Sample.url_ok Sample.sort_Sort
              Sample.cf Sample.refused "LON" "testing" "file")
    as (Hstat & _ & Hput & _).
  - vm_compute. reflexivity.
  - split; [exact Hstat | exact (Hput Sample.ab)].
Defined.

Lemma GetFileSize_reads_decimal_length_witness :
  GetFileSize Sample.url_ok Sample.cf (Sample.always (Sample.reply 200 "abc" "268435457" []))
              "IAD" "testing" "file"
    = Ret (268435457, "abc", None).
Proof.
  apply (GetFileSize_reads_decimal_length Sample.url_ok Sample.cf
           (Sample.always (Sample.reply 200 "abc" "268435457" [])) "IAD" "testing" "file"
           (Sample.reply 200 "abc" "268435457" []) None 268435457 [] "abc" []).
  - vm_compute. intros Hc. discriminate Hc.
  - reflexivity.
  - reflexivity.
  - reflexivity.
  - unfold Int64.in_range, Int64.min_int, Int64.max_int. lia.
  - vm_compute. reflexivity.
  - vm_compute. reflexivity.
Defined.

Lemma GetFileSize_error_zero_witness :
  Int64.in_range 0 /\
  (Some (fetch_failed 404) <> None -> 0 = 0 /\ "" = "").
Proof.
  apply (GetFileSize_error_zero Sample.url_ok Sample.cf (Sample.always Sample.absent)
           "IAD" "testing" "file").
  vm_compute. reflexivity.
Defined.


Lemma PutFile_status_error_witness :
  PutFile Sample.url_ok Sample.cf
          (fun _ => (Some Sample.unavailable, Some "dial tcp: connection refused"))
          "IAD" "testing" "file" Sample.ab
    = Ret ("", Some (put_failed 500)).
Proof.
  apply (PutFile_status_error Sample.url_ok Sample.cf
           (fun _ => (Some Sample.unavailable, Some "dial tcp: connection refused"))
           "IAD" "testing" "file" Sample.ab Sample.unavailable
           (Some "dial tcp: connection refused")).
  - vm_compute. intros Hc. discriminate Hc.
  - reflexivity.
  - reflexivity.
  - vm_compute. intros Hc. discriminate Hc.
Defined.

Lemma Swap_exchanges_witness :
  exists swapped,
    Swap [part_manifest "dst" "f" 0 "a" 1; part_manifest "dst" "f" 1 "b" 2;
          part_manifest "dst" "f" 2 "c" 3] 0 2 = Ret swapped /\
    swapped ≡ₚ [part_manifest "dst" "f" 0 "a" 1; part_manifest "dst" "f" 1 "b" 2;
                part_manifest "dst" "f" 2 "c" 3] /\
    Len swapped = 3.
Proof.
  destruct (Swap_exchanges
              [part_manifest "dst" "f" 0 "a" 1; part_manifest "dst" "f" 1 "b" 2;
               part_manifest "dst" "f" 2 "c" 3] 0 2)
    as (swapped & Hswap & Hperm & Hlen & _).
  - vm_compute. split; [intros Hc; discriminate Hc | reflexivity].
  - vm_compute. split; [intros Hc; discriminate Hc | reflexivity].
  - exists swapped. split; [exact Hswap |]. split; [exact Hperm | exact Hlen].
Defined.

Lemma authorized_once :
  SampleIdentity.Authorize (NewCloudFiles "user" "key") SampleIdentity.granted
  = Ret (SampleIdentity.authorized, None).
Proof. vm_compute. reflexivity. Qed.

Lemma Authorize_failure_keeps_client_witness :
  SampleIdentity.reauthorized = SampleIdentity.authorized.
Proof.
  apply (Authorize_failure_keeps_client Sample.url_ok SampleIdentity.url_error
           SampleIdentity.json_Marshal SampleIdentity.json_Decode
           SampleIdentity.authorized SampleIdentity.denied SampleIdentity.reauthorized
           "Could not authenticate: ab (401)").
  vm_compute. reflexivity.
Defined.

Lemma Authorize_keeps_regions_witness :
  userName SampleIdentity.authorized = "user" /\
  apiKey SampleIdentity.authorized = "key" /\
  forall dc, is_Some (dcs (NewCloudFiles "user" "key") !! dc) ->
             is_Some (dcs SampleIdentity.authorized !! dc).
Proof.
  apply (Authorize_keeps_regions Sample.url_ok SampleIdentity.url_error
           SampleIdentity.json_Marshal SampleIdentity.json_Decode
           (NewCloudFiles "user" "key") SampleIdentity.granted
           SampleIdentity.authorized None).
  exact authorized_once.
Defined.

Lemma Authorize_loads_first_cloudFiles_witness :
  authToken SampleIdentity.authorized = "secret" /\
  dcs SampleIdentity.authorized !! "DFW" = Some "https://dfw.files" /\
  dcs SampleIdentity.authorized !! "SYD" = None.
Proof.
  destruct (Authorize_loads_first_cloudFiles Sample.url_ok SampleIdentity.url_error
              SampleIdentity.json_Marshal SampleIdentity.json_Decode
              (NewCloudFiles "user" "key") SampleIdentity.granted
              SampleIdentity.authorized authorized_once)
    as (payLoad & resp & respData & _ & _ & _ & Hd & Htok & _ & _ & Hcat).
  injection Hd as <-.
  destruct (Hcat [{| Name := "cloudServers";
                     Endpoints := [{| Region := "ORD"; TenantId := "1";
                                      PublicURL := "https://servers" |}] |}]
                 {| Name := "cloudFiles";
                    Endpoints := [{| Region := "IAD"; TenantId := "1";
                                     PublicURL := "https://iad.files" |};
                                  {| Region := "DFW"; TenantId := "1";
                                     PublicURL := "https://dfw.files" |}] |}
                 [{| Name := "cloudFiles";
                     Endpoints := [{| Region := "SYD"; TenantId := "1";
                                      PublicURL := "https://syd.files" |}] |}])
    as [Hother Hlast].
  - reflexivity.
  - constructor; [intros Hc; discriminate Hc | constructor].
  - reflexivity.
  - split; [exact Htok |]. split.
    + apply (Hlast [{| Region := "IAD"; TenantId := "1"; PublicURL := "https://iad.files" |}]
                   {| Region := "DFW"; TenantId := "1"; PublicURL := "https://dfw.files" |}
                   []); [reflexivity |].
      intros ep Hep. by apply elem_of_nil in Hep.
    + rewrite (Hother "SYD"); [reflexivity |].
      intros ep Hep Hc. simpl in Hep.
      apply elem_of_cons in Hep as [-> | Hep]; [discriminate Hc |].
      apply elem_of_cons in Hep as [-> | Hep]; [discriminate Hc |].
      by apply elem_of_nil in Hep.
Defined.

Lemma chunk_count_is_ceiling_witness :
  plan_chunkCount 268435457 default_chunkSize = (268435457 + default_chunkSize - 1) / default_chunkSize /\
  plan_remainder 268435457 default_chunkSize = 268435457 mod default_chunkSize /\
  forall i, 0 <= i < plan_chunkCount 268435457 default_chunkSize ->
    chunk_offset default_chunkSize i = i * default_chunkSize /\
    0 <= i * default_chunkSize < 268435457.
Proof.
  apply (chunk_count_is_ceiling 268435457 default_chunkSize).
  - unfold Int64.max_int. lia.
  - unfold Int64.max_int, default_chunkSize. lia.
Defined.

Lemma inexact_plan_tiles_witness :
  tiles 0 (chunk_specs 268435457 default_chunkSize) 268435457 = true.
Proof.
  apply (inexact_plan_tiles 268435457 default_chunkSize).
  - unfold Int64.max_int. lia.
  - unfold Int64.max_int, default_chunkSize. lia.
  - vm_compute. reflexivity.
Defined.


Lemma manifest_item_is_verified_witness :
  Path (part_manifest "dst" "big.iso" 0 "md5:ab" 2) = part_path "dst" "big.iso" 0 /\
  exists name written,
    TempFile Sample.env_ok 0 = (Some name, None) /\
    chunk_download Sample.md5_hex Sample.url_ok Sample.cf Sample.env_ok
                   "IAD" "src" "big.iso" 0
      = Ret (written, (2, "md5:ab", None)) /\
    ((exists length,
        part_stat Sample.url_ok Sample.cf Sample.env_ok "DFW" "dst" "big.iso" 0
        = Ret (length, "md5:ab", None)) \/
     part_upload Sample.url_ok Sample.cf Sample.env_ok "DFW" "dst" "big.iso" 0 written
       = Ret ("md5:ab", None)).
Proof.
  apply (manifest_item_is_verified Sample.md5_hex Sample.url_ok Sample.cf Sample.env_ok
           "IAD" "src" "big.iso" "DFW" "dst" "big.iso" 0
           (part_manifest "dst" "big.iso" 0 "md5:ab" 2)).
  vm_compute. reflexivity.
Defined.

Lemma copied_reachable :
  reachable Sample.md5_hex Sample.url_ok Sample.sort_Sort Sample.cf Sample.env_ok
            "IAD" "src" "big.iso" "DFW" "dst" "big.iso" SampleFaults.copied.
Proof. unfold SampleFaults.copied. apply sample_reachable. Qed.

Lemma started_reachable :
  reachable Sample.md5_hex Sample.url_ok Sample.sort_Sort Sample.cf Sample.env_ok
            "IAD" "src" "big.iso" "DFW" "dst" "big.iso" SampleFaults.started.
Proof. unfold SampleFaults.started. apply sample_reachable. Qed.

Lemma copied_returned : pc SampleFaults.copied = Returned None.
Proof. vm_compute. reflexivity. Qed.


Lemma runs_are_bounded_witness :
  exists n,
    nsteps (step Sample.md5_hex Sample.url_ok Sample.sort_Sort Sample.cf Sample.env_ok
                 "IAD" "src" "big.iso" "DFW" "dst" "big.iso")
           n (Sample.copy_initial Sample.env_ok) SampleFaults.copied /\
    (n <= 11 * Z.to_nat (chunkCount Sample.url_ok Sample.cf Sample.env_ok
                                    "IAD" "src" "big.iso") + 13)%nat.
Proof.
  destruct (rtc_nsteps_1 _ _ copied_reachable) as [n Hn].
  exists n. split; [exact Hn |].
  exact (runs_are_bounded Sample.md5_hex Sample.url_ok Sample.sort_Sort Sample.cf
           Sample.env_ok "IAD" "src" "big.iso" "DFW" "dst" "big.iso"
           n SampleFaults.copied Hn).
Defined.

Lemma stat_failure_returns_at_once_witness :
  pc (Sample.copy SampleFaults.env_missing Sample.main_first 200)
    = Returned (Some (fetch_failed 404)) /\
  log (Sample.copy SampleFaults.env_missing Sample.main_first 200)
    = [GetFileSizeCall "IAD" "src" "big.iso"] /\
  dispatched (Sample.copy SampleFaults.env_missing Sample.main_first 200) = 0%nat /\
  goroutines (Sample.copy SampleFaults.env_missing Sample.main_first 200) = [].
Proof.
  apply (stat_failure_returns_at_once Sample.md5_hex Sample.url_ok Sample.sort_Sort
           Sample.cf SampleFaults.env_missing "IAD" "src" "big.iso" "DFW" "dst" "big.iso"
           0 "").
  - vm_compute. reflexivity.
  - exact (sample_reachable SampleFaults.env_missing Sample.main_first 200).
Defined.


Lemma sample_panic_free :
  panic_free Sample.md5_hex Sample.url_ok Sample.sort_Sort Sample.cf Sample.env_ok
             "IAD" "src" "big.iso" "DFW" "dst" "big.iso".
Proof.
  assert (Hc : chunkCount Sample.url_ok Sample.cf Sample.env_ok "IAD" "src" "big.iso" = 2)
    by (vm_compute; reflexivity).
  unfold panic_free. rewrite Hc. split; [| split; [lia | split]].
  - eexists. vm_compute. reflexivity.
  - intros k msg Hk Hin.
    assert (k = 0 \/ k = 1) as [-> | ->] by lia;
      apply list_elem_of_In in Hin; vm_compute in Hin; intuition discriminate.
  - intros items. eexists. vm_compute. reflexivity.
Qed.


Lemma copied_uploads :
  PutFileCall "DFW" "dst" "big.iso-1" Sample.ab ∈ log SampleFaults.copied.
Proof. apply list_elem_of_In. vm_compute. tauto. Qed.

Lemma transfers_stay_in_place_witness :
  "DFW" = "DFW" /\ "dst" = "dst" /\
  exists k bytesRead etag,
    0 <= k < chunkCount Sample.url_ok Sample.cf Sample.env_ok "IAD" "src" "big.iso" /\
    "big.iso-1" = destFileName "big.iso" k /\
    chunk_download Sample.md5_hex Sample.url_ok Sample.cf Sample.env_ok
                   "IAD" "src" "big.iso" k
      = Ret (Sample.ab, (bytesRead, etag, None)) /\
    ~ (exists length,
         part_stat Sample.url_ok Sample.cf Sample.env_ok "DFW" "dst" "big.iso" k
         = Ret (length, etag, None)).
Proof.
  destruct (transfers_stay_in_place Sample.md5_hex Sample.url_ok Sample.sort_Sort
              Sample.cf Sample.env_ok "IAD" "src" "big.iso" "DFW" "dst" "big.iso"
              SampleFaults.copied copied_reachable) as (_ & Hput & _).
  exact (Hput "DFW" "dst" "big.iso-1" Sample.ab copied_uploads).
Defined.

Lemma copied_manifest :
  putManifestCall "DFW" "dst" "big.iso"
    [part_manifest "dst" "big.iso" 0 "md5:ab" 2; part_manifest "dst" "big.iso" 1 "md5:ab" 2]
    ∈ log SampleFaults.copied.
Proof. apply list_elem_of_In. vm_compute. tauto. Qed.


Lemma temp_files_removed_at_return_witness :
  Remove "/tmp/1" ∈ log SampleFaults.copied.
Proof.
  apply (temp_files_removed_at_return Sample.md5_hex Sample.url_ok Sample.sort_Sort
           Sample.cf Sample.env_ok "IAD" "src" "big.iso" "DFW" "dst" "big.iso"
           SampleFaults.copied None 1 "/tmp/1" None copied_reachable copied_returned).
  - vm_compute. split; [intros Hc; discriminate Hc | reflexivity].
  - vm_compute. reflexivity.
Defined.
